(** * Affiliate payouts of yearn-exporter: [yearn/affiliates.py]

    A shallow embedding of the tier lookup ([TIERS], [get_tier]), of the
    per-partner aggregation ([Partner.process]) and of the monthly export
    ([Partner.export_payouts]), together with the properties the
    specification states about them.

    Conventions.
    - Python [float] and numpy [float64] are IEEE binary64 numbers: the
      primitive type [float], whose operations are specified in [FloatAxioms]
      by the functions of [SpecFloat].
    - Python [int] is [Z]; addresses and names are [string].
    - A raised exception is a value [Raise e] of [result].
    - The chain readers ([get_logs_asap], [batch_call], [magic.get_price],
      [get_block_timestamp]) are the fields of a record [Chain]: pure
      point-in-time reads.
    - The pandas operations the module calls are written out as functions on
      lists, following the library's documented behaviour; each definition
      says which call it stands for.  They are generic in the type of the
      values ([Scalar]); the module runs them on [float].
    - The files and the plot [process] and [export_payouts] write on the
      side ([to_csv], [savefig]) do not enter any value they return and are
      left out.  [process_affiliates] returns nothing in the source; here it
      returns what it prints and what it saves. *)

From Stdlib Require Import ZArith List String Bool Floats Lia Permutation.
From Stdlib Require Import Sorted.
From Equations Require Import Equations.
Import ListNotations.

Set Warnings "-inexact-float".
Open Scope Z_scope.

(** ** Exceptions *)

Inductive exn : Type :=
| ValueError
| IndexError
| KeyError
| OverflowError
| OutOfBoundsDatetime.

Inductive result (A : Type) : Type :=
| Ok (a : A)
| Raise (e : exn).
Arguments Ok {A} a.
Arguments Raise {A} e.

Definition bind {A B : Type} (r : result A) (k : A -> result B) : result B :=
  match r with
  | Ok a => k a
  | Raise e => Raise e
  end.

Notation "x <- r ;; k" := (bind r (fun x => k))
  (at level 61, r at next level, right associativity).
Notation "' p <- r ;; k" := (bind r (fun x => let p := x in k))
  (at level 61, p pattern, r at next level, right associativity).

(** [for x in xs: ...] with a body that may raise: stops at the first
    exception. *)
Fixpoint mapM {A B : Type} (f : A -> result B) (xs : list A) : result (list B) :=
  match xs with
  | [] => Ok []
  | x :: xs' => y <- f x ;; ys <- mapM f xs' ;; Ok (y :: ys)
  end.

(** ** Python sequences and dicts *)

(** [xs[i]] on a list: negative indices count from the end. *)
Definition getitem {A : Type} (xs : list A) (i : Z) : result A :=
  let n := Z.of_nat (List.length xs) in
  let j := if i <? 0 then i + n else i in
  if (0 <=? j) && (j <? n)
  then match nth_error xs (Z.to_nat j) with
       | Some x => Ok x
       | None => Raise IndexError
       end
  else Raise IndexError.

(** A dict with [int] keys, as its items in insertion order. *)
Definition dict (V : Type) : Type := list (Z * V).

Fixpoint dict_get {V : Type} (d : dict V) (k : Z) : result V :=
  match d with
  | [] => Raise KeyError
  | (k', v) :: d' => if k =? k' then Ok v else dict_get d' k
  end.

(** [d[k] = v]: an existing key keeps its position and takes the new value. *)
Fixpoint dict_set {V : Type} (d : dict V) (k : Z) (v : V) : dict V :=
  match d with
  | [] => [(k, v)]
  | (k', v') :: d' => if k =? k' then (k, v) :: d' else (k', v') :: dict_set d' k v
  end.

(** [{k: v for (k, v) in kvs}] *)
Definition dict_of {V : Type} (kvs : list (Z * V)) : dict V :=
  fold_left (fun d kv => dict_set d (fst kv) (snd kv)) kvs [].

Definition dict_keys {V : Type} (d : dict V) : list Z := map fst d.

(** Sorting by a strict comparison [ltb]: insertion sort, ascending. *)
Section Sort.
Context {K : Type} (ltb : K -> K -> bool).

Fixpoint insert_sorted (x : K) (xs : list K) : list K :=
  match xs with
  | [] => [x]
  | y :: ys => if ltb x y then x :: xs else y :: insert_sorted x ys
  end.

Definition sort_by (xs : list K) : list K :=
  fold_right insert_sorted [] xs.
End Sort.

(** [sorted(xs)] on ints. *)
Definition sorted (xs : list Z) : list Z := sort_by Z.ltb xs.

(** ** [bisect.bisect_right]

    [[
    lo, hi = 0, len(a)
    while lo < hi:
        mid = (lo + hi) // 2
        if x < a[mid]: hi = mid
        else: lo = mid + 1
    return lo
    ]]
    The comparison [x < a[mid]] is the parameter [lt]. *)

Section Bisect.
Context {A K : Type} (lt : A -> K -> bool) (dflt : K).

Equations bisect_loop (a : list K) (x : A) (lo hi : Z) : Z
  by wf (Z.to_nat (hi - lo)) Nat.lt :=
  bisect_loop a x lo hi with Z_lt_dec lo hi := {
    | left _ =>
        if lt x (nth (Z.to_nat ((lo + hi) / 2)) a dflt)
        then bisect_loop a x lo ((lo + hi) / 2)
        else bisect_loop a x ((lo + hi) / 2 + 1) hi
    | right _ => lo }.
Next Obligation.
  assert (lo <= (lo + hi) / 2 < hi)
    by (split; [apply Z.div_le_lower_bound | apply Z.div_lt_upper_bound]; lia).
  lia.
Qed.
Next Obligation.
  assert (lo <= (lo + hi) / 2 < hi)
    by (split; [apply Z.div_le_lower_bound | apply Z.div_lt_upper_bound]; lia).
  lia.
Qed.

Definition bisect_right (a : list K) (x : A) : Z :=
  bisect_loop a x 0 (Z.of_nat (List.length a)).
End Bisect.

(** ** The tier table *)

(** The float with the value of a non-negative int below [2^53] (exact). *)
Definition of_int (k : Z) : float := of_uint63 (Uint63.of_Z k).

(** [x < k] for a float [x] and an int [k]; every key of [TIERS] converts
    exactly, so this is Python's exact mixed comparison. *)
Definition lt_int (x : float) (k : Z) : bool := (x <? of_int k)%float.

Definition TIERS : dict float :=
  [ (0, 0%float);
    (1000000, 0.10%float);
    (5000000, 0.15%float);
    (10000000, 0.20%float);
    (50000000, 0.25%float);
    (100000000, 0.30%float);
    (200000000, 0.35%float);
    (400000000, 0.40%float);
    (700000000, 0.45%float);
    (1000000000, 0.5%float) ].

Definition get_tier (amount : float) : result float :=
  let keys := sorted (dict_keys TIERS) in
  let index := bisect_right lt_int 0 keys amount - 1 in
  k <- getitem keys index ;;
  dict_get TIERS k.


(** ** Scalars of a table

    The values of a Series or DataFrame column: a zero, an addition, a
    subtraction, the missing value [NaN] and the test [isna].  The pipeline
    runs on [float]. *)

Class Scalar (N : Type) : Type := {
  s_zero : N;
  s_add : N -> N -> N;
  s_sub : N -> N -> N;
  s_nan : N;
  isna : N -> bool }.

#[export] Instance Scalar_float : Scalar float := {|
  s_zero := 0%float;
  s_add := PrimFloat.add;
  s_sub := PrimFloat.sub;
  s_nan := nan;
  isna := is_nan |}.

(** ** Timestamps

    Block times are Unix seconds, Python ints.  [get_timestamps] multiplies
    each by the float [1e9] and hands the products to [pd.to_datetime],
    which reads a number as nanoseconds since 1970 and keeps it as an
    [int64]. *)

(** [float(x)] for an int [x]: the nearest binary64 number, ties to even;
    [OverflowError] when that is beyond the largest finite one. *)
Definition float_of_int (x : Z) : result float :=
  if 2 ^ 1024 - 2 ^ 970 <=? Z.abs x then Raise OverflowError
  else Ok (SF2Prim (binary_normalize prec emax x 0 false)).

(** [x * 1e9] for an int [x] *)
Definition to_ns (x : Z) : result float :=
  f <- float_of_int x ;; Ok (f * 1e9)%float.

(** One element of [pd.to_datetime(values)] for a float: its integer part
    as nanoseconds, [OutOfBoundsDatetime] outside the [int64] range.  (NaN
    and [-2^63] read as [NaT]; no product [x * 1e9] of an int is either, and
    the last line is not reached from [get_timestamps].) *)
Definition to_datetime (v : float) : result Z :=
  match Prim2SF v with
  | S754_zero _ => Ok 0
  | S754_finite s m e =>
      let n := cond_Zopp s (Z.shiftl (Z.pos m) e) in
      if (- 2 ^ 63 <? n) && (n <? 2 ^ 63) then Ok n else Raise OutOfBoundsDatetime
  | S754_infinity _ => Raise OutOfBoundsDatetime
  | S754_nan => Raise OutOfBoundsDatetime
  end.

(** ** Calendar

    A timestamp is a number of nanoseconds since 1970-01-01 UTC; a date is a
    proleptic Gregorian civil date in UTC. *)

Record date : Type := { year : Z; month : Z; day : Z }.

(** Days since 1970-01-01 to a civil date. *)
Definition civil_from_days (days : Z) : date :=
  let z := days + 719468 in
  let era := z / 146097 in
  let doe := z - era * 146097 in
  let yoe := (doe - doe / 1460 + doe / 36524 - doe / 146096) / 365 in
  let doy := doe - (365 * yoe + yoe / 4 - yoe / 100) in
  let mp := (5 * doy + 2) / 153 in
  let d := doy - (153 * mp + 2) / 5 + 1 in
  let m := if mp <? 10 then mp + 3 else mp - 9 in
  {| year := yoe + era * 400 + (if m <=? 2 then 1 else 0); month := m; day := d |}.

(** The month of a timestamp, counted from year 0: [12 * year + month - 1]. *)
Definition month_ord (ts : Z) : Z :=
  let d := civil_from_days (ts / 86400000000000) in
  12 * year d + (month d - 1).

Definition is_leap (y : Z) : bool :=
  ((y mod 4 =? 0) && negb (y mod 100 =? 0)) || (y mod 400 =? 0).

Definition days_in_month (y m : Z) : Z :=
  if m =? 2 then (if is_leap y then 29 else 28)
  else if (m =? 4) || (m =? 6) || (m =? 9) || (m =? 11) then 30
  else 31.

(** The label of a monthly bin: the last day of the month. *)
Definition month_end (o : Z) : date :=
  let y := o / 12 in
  let m := o mod 12 + 1 in
  {| year := y; month := m; day := days_in_month y m |}.

(** ** Tables

    A wide table ([DataFrame] with an int index): its column labels and its
    rows, each row holding one value per column.  A [Series] with an int
    index is a list of (label, value). *)

Section Frames.
Context {N : Type} `{Scalar N}.

Record Wide : Type := { columns : list string; rows : list (Z * list N) }.

Definition Series : Type := list (Z * N).

Definition index (w : Wide) : list Z := map fst (rows w).

Fixpoint zip_with {X Y Z' : Type} (f : X -> Y -> Z') (xs : list X) (ys : list Y)
  : list Z' :=
  match xs, ys with
  | x :: xs', y :: ys' => f x y :: zip_with f xs' ys'
  | _, _ => []
  end.

(** *** Sums

    pandas sums skip missing values ([skipna=True]) and give zero for no
    value at all ([min_count=0]). *)

(** The sum of a group ([groupby(...).sum()], which [pivot_table] and
    [resample(...).sum()] call): Kahan's compensated summation over the
    values of the group that are not missing, in row order.
    [[
    if val == val:
        y = val - compensation
        t = sumx + y
        compensation = t - sumx - y
        sumx = t
    ]] *)
Definition kahan_step (acc : N * N) (val : N) : N * N :=
  if isna val then acc
  else
    let y := s_sub val (snd acc) in
    let t := s_add (fst acc) y in
    (t, s_sub (s_sub t (fst acc)) y).

Definition group_sum (xs : list N) : N :=
  fst (fold_left kahan_step xs (s_zero, s_zero)).

(** numpy's sum of a vector ([add.reduce], the pairwise summation of
    [pairwise_sum]): fewer than eight numbers are added to zero from left
    to right; up to 128 numbers go into eight accumulators, which are then
    added in pairs, and the numbers left over are added one by one; a
    longer vector is cut in two at a multiple of eight. *)
Fixpoint accumulate (r a : list N) (k : nat) : list N * list N :=
  match k with
  | O => (r, a)
  | S k' => accumulate (zip_with s_add r (firstn 8 a)) (skipn 8 a) k'
  end.

Definition block_sum (a : list N) : N :=
  let '(r, rest) := accumulate (firstn 8 a) (skipn 8 a) (List.length a / 8 - 1) in
  match r with
  | [r0; r1; r2; r3; r4; r5; r6; r7] =>
      fold_left s_add rest
        (s_add (s_add (s_add r0 r1) (s_add r2 r3))
               (s_add (s_add r4 r5) (s_add r6 r7)))
  | _ => s_zero
  end.

Definition half8 (n : nat) : nat := (n / 2 - (n / 2) mod 8)%nat.

Equations pairwise_sum (a : list N) : N by wf (List.length a) lt :=
  pairwise_sum a with le_lt_dec 8 (List.length a) := {
    | right _ => fold_left s_add a s_zero
    | left _ with le_lt_dec (List.length a) 128 := {
        | left _ => block_sum a
        | right _ =>
            s_add (pairwise_sum (firstn (half8 (List.length a)) a))
                  (pairwise_sum (skipn (half8 (List.length a)) a)) } }.
Next Obligation.
  rewrite length_firstn. unfold half8.
  pose proof (Nat.div_lt (List.length a) 2). lia.
Qed.
Next Obligation.
  rewrite length_skipn. unfold half8.
  pose proof (Nat.mod_upper_bound (List.length a / 2) 8).
  assert (64 <= List.length a / 2)%nat by (apply Nat.div_le_lower_bound; lia).
  lia.
Qed.

(** [Series.sum()] and [DataFrame.sum(axis=1)]: the missing values count as
    zero and the vector is added to zero by numpy. *)
Definition clean (x : N) : N := if isna x then s_zero else x.

Definition nansum (xs : list N) : N :=
  s_add s_zero (pairwise_sum (map clean xs)).

(** *** [pd.pivot_table(data, values, index, columns, 'sum')]

    [data] is the frame restricted to the three columns named in the call:
    (index key, column key, value).  Each (index, column) group is summed;
    a group whose sum is missing is dropped; the index and the columns are
    the sorted distinct keys of the remaining groups, and a cell without a
    group is missing. *)

Definition Long : Type := list (Z * string * N).

Definition in_group (i : Z) (c : string) (r : Z * string * N) : bool :=
  (fst (fst r) =? i) && (snd (fst r) =? c)%string.

Definition group (data : Long) (i : Z) (c : string) : list N :=
  map snd (filter (in_group i c) data).

Definition cell (data : Long) (i : Z) (c : string) : N :=
  match group data i c with
  | [] => s_nan
  | xs => group_sum xs
  end.

Definition kept (data : Long) (r : Z * string * N) : bool :=
  negb (isna (cell data (fst (fst r)) (snd (fst r)))).

Definition pivot_index (data : Long) : list Z :=
  sort_by Z.ltb (nodup Z.eq_dec (map (fun r => fst (fst r)) (filter (kept data) data))).

Definition pivot_columns (data : Long) : list string :=
  sort_by String.ltb
    (nodup string_dec (map (fun r => snd (fst r)) (filter (kept data) data))).

Definition pivot_table (data : Long) : Wide :=
  {| columns := pivot_columns data;
     rows := map (fun i => (i, map (cell data i) (pivot_columns data)))
                 (pivot_index data) |}.

(** *** [DataFrame.ffill()]: a scan down the rows; a missing cell takes
    the value the same column had in the row above. *)

Definition fill (prev x : N) : N := if isna x then prev else x.

Fixpoint ffill_rows (prev : list N) (rs : list (Z * list N)) : list (Z * list N) :=
  match rs with
  | [] => []
  | (i, vs) :: rs' =>
      let vs' := zip_with fill prev vs in
      (i, vs') :: ffill_rows vs' rs'
  end.

Definition ffill (w : Wide) : Wide :=
  {| columns := columns w;
     rows := ffill_rows (map (fun _ => s_nan) (columns w)) (rows w) |}.

(** *** [DataFrame.sum(axis=1)] *)
Definition sum_axis1 (w : Wide) : Series :=
  map (fun r => (fst r, nansum (snd r))) (rows w).

(** [series.loc[i]] as an option. *)
Fixpoint loc (s : Series) (i : Z) : option N :=
  match s with
  | [] => None
  | (j, v) :: s' => if i =? j then Some v else loc s' i
  end.

(** *** [DataFrame.resample('1M').sum()]

    The index holds timestamps.  There is one bin per calendar month from
    the first to the last month that has a row, empty months included; a
    bin sums each column over the rows of its month. *)

Definition col_sums (ncols : nat) (rs : list (list N)) : list N :=
  map fst (fold_left (zip_with kahan_step) rs (repeat (s_zero, s_zero) ncols)).

Definition month_range (ords : list Z) : list Z :=
  match ords with
  | [] => []
  | o :: os =>
      let lo := fold_left Z.min os o in
      let hi := fold_left Z.max os o in
      map (fun k => lo + Z.of_nat k) (seq 0 (Z.to_nat (hi - lo + 1)))
  end.

Definition in_month (o : Z) (r : Z * list N) : bool := month_ord (fst r) =? o.

Definition resample_month_sum (w : Wide) : Wide :=
  {| columns := columns w;
     rows := map (fun o => (o, col_sums (List.length (columns w))
                                        (map snd (filter (in_month o) (rows w)))))
                 (month_range (map month_ord (index w))) |}.

(** *** [DataFrame.stack().reset_index()]: wide to long, row by row, the
    missing cells dropped. *)
Definition stack (w : Wide) : Long :=
  flat_map (fun r =>
              map (fun cv => (fst r, fst cv, snd cv))
                  (filter (fun cv => negb (isna (snd cv)))
                          (combine (columns w) (snd r))))
           (rows w).
End Frames.

Arguments Wide N : clear implicits.
Arguments Series N : clear implicits.
Arguments Long N : clear implicits.

(** ** The chain

    What the module reads from its collaborators.  Token amounts come
    already divided by the vault's scale, as the module divides them on
    arrival. *)

Record Chain : Type := {
  (** [decode_logs(get_logs_asap(vault, topics))]: the fee transfers of a
      vault as (block_number, value / scale), in log order *)
  fee_logs : string -> list (Z * float);
  get_block_timestamp : Z -> Z;
  (** [balanceOf(wrapper)] on a vault at a block, scaled *)
  balanceOf : string -> string -> Z -> float;
  (** [totalSupply()] of a vault at a block, scaled *)
  totalSupply : string -> Z -> float;
  (** [magic.get_price(vault, block)] *)
  get_price : string -> Z -> float }.

(** [{log.block_number: log['value'] / vault.scale for log in logs}] *)
Definition get_protocol_fees (c : Chain) (address : string) : dict float :=
  dict_of (fee_logs c address).

(** [[
    data = Parallel(50, 'threading')(delayed(get_block_timestamp)(block) for block in blocks)
    return pd.to_datetime([x * 1e9 for x in data])
    ]] *)
Definition get_timestamps (c : Chain) (blocks : list Z) : result (list Z) :=
  let data := map (get_block_timestamp c) blocks in
  values <- mapM to_ns data ;;
  mapM to_datetime values.

(** [a, b = zip( *d.items())]: [zip] of no arguments yields nothing, and
    unpacking nothing into two names raises [ValueError]. *)
Definition unzip_items {V : Type} (d : dict V) : result (list Z * list V) :=
  match d with
  | [] => Raise ValueError
  | _ :: _ => Ok (map fst d, map snd d)
  end.

Module Wrapper.
Record t : Type := { name : string; vault : string; wrapper : string }.

Definition protocol_fees (c : Chain) (self : t) : dict float :=
  get_protocol_fees c (vault self).

Definition balances (c : Chain) (self : t) (blocks : list Z) : list float :=
  map (balanceOf c (vault self) (wrapper self)) blocks.

Definition total_supplies (c : Chain) (self : t) (blocks : list Z) : list float :=
  map (totalSupply c (vault self)) blocks.

Definition vault_prices (c : Chain) (self : t) (blocks : list Z) : list float :=
  map (get_price c (vault self)) blocks.
End Wrapper.

(** One row of a wrapper's frame: a fee event with the wrapper's state at
    that block. *)
Module Row.
Record t : Type := {
  block : Z;
  timestamp : Z;
  protocol_fee : float;
  balance : float;
  total_supply : float;
  vault_price : float;
  balance_usd : float;
  share : float;
  payout_base : float;
  wrapper : string;
  vault : string }.

(** The three derived columns of [Partner.process]. *)
Definition make (block timestamp : Z)
           (protocol_fee balance total_supply vault_price : float)
           (wrapper vault : string) : t :=
  let balance_usd := (balance * vault_price)%float in
  let share := (balance / total_supply)%float in
  let payout_base := (share * protocol_fee * 0.65)%float in
  {| block := block; timestamp := timestamp; protocol_fee := protocol_fee;
     balance := balance; total_supply := total_supply;
     vault_price := vault_price; balance_usd := balance_usd; share := share;
     payout_base := payout_base; wrapper := wrapper; vault := vault |}.
End Row.

(** A row of the partner ledger: a wrapper row with its tier and payout. *)
Module Ledger.
Record t : Type := { row : Row.t; tier : float; payout : float }.
End Ledger.

(** A line of the monthly export. *)
Module Payout.
Record t (N : Type) : Type := {
  timestamp : date;
  partner : string;
  token : string;
  treasury : option string;
  amount : N }.
Arguments timestamp {N} _.
Arguments partner {N} _.
Arguments token {N} _.
Arguments treasury {N} _.
Arguments amount {N} _.
End Payout.

(** [pd.DataFrame({...})] from the six columns of [Partner.process], with
    the derived columns and the two constant ones added. *)
Fixpoint frame (wrapper vault : string) (blocks timestamps : list Z)
         (protocol_fees balances total_supplies vault_prices : list float)
  : list Row.t :=
  match blocks, timestamps, protocol_fees, balances, total_supplies, vault_prices with
  | b :: bs, t :: ts, f :: fs, x :: xs, s :: ss, p :: ps =>
      Row.make b t f x s p wrapper vault :: frame wrapper vault bs ts fs xs ss ps
  | _, _, _, _, _, _ => []
  end.

(** [Index.is_unique] and [Index.is_monotonic] (not decreasing). *)
Fixpoint is_unique (idx : list Z) : bool :=
  match idx with
  | [] => true
  | i :: idx' => negb (existsb (Z.eqb i) idx') && is_unique idx'
  end.

Fixpoint is_monotonic (idx : list Z) : bool :=
  match idx with
  | i :: (j :: _) as idx' => (i <=? j) && is_monotonic idx'
  | _ => true
  end.

Module Partner.
Record t : Type := {
  name : string;
  wrappers : list Wrapper.t;
  treasury : option string }.

(** The body of the loop over [self.wrappers]: one wrapper's frame. *)
Definition wrap (c : Chain) (wrapper : Wrapper.t) : result (list Row.t) :=
  let protocol_fees := Wrapper.protocol_fees c wrapper in
  '(blocks, protocol_fees) <- unzip_items protocol_fees ;;
  timestamps <- get_timestamps c blocks ;;
  Ok (frame (Wrapper.wrapper wrapper) (Wrapper.vault wrapper)
            blocks timestamps protocol_fees
            (Wrapper.balances c wrapper blocks)
            (Wrapper.total_supplies c wrapper blocks)
            (Wrapper.vault_prices c wrapper blocks)).

(** [pd.concat(frames)]: raises on an empty list of frames. *)
Definition concat {A : Type} (frames : list (list A)) : result (list A) :=
  match frames with
  | [] => Raise ValueError
  | _ :: _ => Ok (List.concat frames)
  end.

(** [pd.pivot_table(partner, 'balance_usd', 'block', 'vault', 'sum')
       .ffill().sum(axis=1)] *)
Definition balance_columns (partner : list Row.t) : Long float :=
  map (fun r => (Row.block r, Row.vault r, Row.balance_usd r)) partner.

Definition total_balances (partner : list Row.t) : Series float :=
  sum_axis1 (ffill (pivot_table (balance_columns partner))).

(** [total_balances.apply(get_tier)] *)
Definition tiers_of (total_balances : Series float) : result (Series float) :=
  mapM (fun bv => t <- get_tier (snd bv) ;; Ok (fst bv, t)) total_balances.

(** [partner.join(tiers)] then [partner['payout'] = payout_base * tier]:
    a left join on the block; a block without a tier gets a missing one. *)
(** The rows of [partner.join(tiers)], a left join on the block index.
    The index of [tiers] is unique and increasing.  With an empty [tiers],
    with a unique block index, or with one that does not decrease, the join
    keeps the rows in their order; with a block index that repeats and is
    not in order, it returns them sorted by block, rows of one block in
    their order ([Index.join]: [_join_non_unique] sorts). *)
Definition join_index (partner : list Row.t) (tiers : Series float) : list Row.t :=
  let idx := map Row.block partner in
  match tiers with
  | [] => partner
  | _ :: _ =>
      if negb (is_unique idx) && negb (is_monotonic idx)
      then sort_by (fun r r' => Row.block r <=? Row.block r') partner
      else partner
  end.

Definition join_tier (tiers : Series float) (r : Row.t) : Ledger.t :=
  let tier := match loc tiers (Row.block r) with
              | Some t => t
              | None => nan
              end in
  {| Ledger.row := r; Ledger.tier := tier;
     Ledger.payout := (Row.payout_base r * tier)%float |}.

Section ExportPayouts.
Context {N : Type} `{Scalar N}.

(** [partner] is the ledger restricted to the columns the pivot reads:
    (timestamp, vault, payout). *)
Definition export_payouts (self : t) (partner : Long N) : list (Payout.t N) :=
  let payouts := resample_month_sum (pivot_table partner) in
  map (fun r => {| Payout.timestamp := month_end (fst (fst r));
                   Payout.partner := name self;
                   Payout.token := snd (fst r);
                   Payout.treasury := treasury self;
                   Payout.amount := snd r |})
      (stack payouts).
End ExportPayouts.

Definition payout_columns (partner : list Ledger.t) : Long float :=
  map (fun l => (Row.timestamp (Ledger.row l), Row.vault (Ledger.row l),
                 Ledger.payout l)) partner.

(** The loop over the wrappers and [partner = pd.concat(wrappers)]. *)
Definition snapshot (c : Chain) (self : t) : result (list Row.t) :=
  wrappers <- mapM (wrap c) (wrappers self) ;;
  concat wrappers.

Definition process (c : Chain) (self : t)
  : result (list Ledger.t * list (Payout.t float)) :=
  partner <- snapshot c self ;;
  let total_balances := total_balances partner in
  tiers <- tiers_of total_balances ;;
  let partner := map (join_tier tiers) (join_index partner tiers) in
  let payouts := export_payouts self (payout_columns partner) in
  Ok (partner, payouts).
End Partner.

(** ** The configured partners *)


(** ** The run over all partners: [process_affiliates]

    [[
    total = 0
    payouts = []
    for partner in affiliates:
        result, payout = partner.process()
        payouts.append(payout)
        usd = (result.payout * result.vault_price).sum()
        print(partner.name, usd, 'usd to pay')
        total += usd
    print(total, 'total so far')
    pd.concat(payouts).sort_values('timestamp').to_csv(path, index=False)
    ]]
    The function returns nothing: what it does is what it prints and the
    file it saves.  [Run.t] holds the lines printed for the partners, the
    total when the loop got to printing it, and the frame handed to
    [sort_values], or the exception that ended the run. *)

Module Run.
Record t : Type := {
  lines : list (string * float);
  total : option float;
  payouts : result (list (Payout.t float)) }.
End Run.

(** [(result.payout * result.vault_price).sum()] *)
Definition usd_to_pay (result : list Ledger.t) : float :=
  nansum (map (fun l => (Ledger.payout l * Row.vault_price (Ledger.row l))%float) result).

(** The loop of [process_affiliates], from the state it has reached. *)
Fixpoint process_loop (c : Chain) (partners : list Partner.t) (total : float)
         (payouts : list (list (Payout.t float))) (lines : list (string * float))
  : Run.t :=
  match partners with
  | [] =>
      {| Run.lines := lines; Run.total := Some total;
         Run.payouts := Partner.concat payouts |}
  | partner :: rest =>
      match Partner.process c partner with
      | Raise e => {| Run.lines := lines; Run.total := None; Run.payouts := Raise e |}
      | Ok res =>
          let usd := usd_to_pay (fst res) in
          process_loop c rest (total + usd)%float (payouts ++ [snd res])
                       (lines ++ [(Partner.name partner, usd)])
      end
  end.

Definition process_all (c : Chain) (partners : list Partner.t) : Run.t :=
  process_loop c partners 0%float [] [].


(** The order of dates. *)
Definition date_leb (d1 d2 : date) : bool :=
  (year d1 <? year d2) ||
  ((year d1 =? year d2) &&
   ((month d1 <? month d2) || ((month d1 =? month d2) && (day d1 <=? day d2)))).

Definition date_le (d1 d2 : date) : Prop := date_leb d1 d2 = true.

(** [frame.sort_values('timestamp')].  The default sort of pandas is not
    stable: what it promises of its result is that it holds the rows of the
    frame, in the order of their timestamps.  [sort_values rows out] says
    that [out] is such a result. *)
Definition sort_values (rows out : list (Payout.t float)) : Prop :=
  Permutation rows out /\
  StronglySorted (fun p q => date_le (Payout.timestamp p) (Payout.timestamp q)) out.

(** The file a run saves. *)
Definition saved (run : Run.t) (out : list (Payout.t float)) : Prop :=
  exists rows, Run.payouts run = Ok rows /\ sort_values rows out.

(** The sort by timestamp that keeps the rows of one timestamp in their
    order: one of the results [sort_values] allows. *)
Definition stable_sort_values (ps : list (Payout.t float)) : list (Payout.t float) :=
  sort_by (fun p q => date_leb (Payout.timestamp p) (Payout.timestamp q)) ps.

(** ** The order of binary64 numbers

    [SFcompare] orders the numbers that are not NaN like the lexicographic
    order of a triple: class and sign, then exponent, then mantissa (both
    negated for negative numbers). *)

Definition rank (x : spec_float) : Z * Z * Z :=
  match x with
  | S754_zero _ => (0, 0, 0)
  | S754_infinity false => (2, 0, 0)
  | S754_infinity true => (-2, 0, 0)
  | S754_nan => (0, 0, 0)
  | S754_finite false m e => (1, e, Zpos m)
  | S754_finite true m e => (-1, - e, Zneg m)
  end.

Definition lexlt (p q : Z * Z * Z) : Prop :=
  let '(a, b, c) := p in
  let '(a', b', c') := q in
  a < a' \/ (a = a' /\ (b < b' \/ (b = b' /\ c < c'))).

Definition lexle (p q : Z * Z * Z) : Prop := lexlt p q \/ p = q.

Definition not_nan (x : spec_float) : Prop := x <> S754_nan.

(** ** Vocabulary of the statements *)

(** [x < a[i]], the test of [bisect_right] at position [i]. *)
Definition below {A K : Type} (lt : A -> K -> bool) (dflt : K) (a : list K) (x : A)
           (i : Z) : bool :=
  lt x (nth (Z.to_nat i) a dflt).

Definition tier_keys : list Z := sorted (dict_keys TIERS).

(** The facts [bisect_right] establishes about its result on the keys. *)
Definition tier_split (amount : float) (r : Z) : Prop :=
  0 <= r <= 10 /\
  (forall i, 0 <= i < r -> lt_int amount (nth (Z.to_nat i) tier_keys 0) = false) /\
  (forall i, r <= i < 10 -> lt_int amount (nth (Z.to_nat i) tier_keys 0) = true).

(** The result of [get_tier] as a function of the insertion point. *)
Definition tier_at (r : Z) : result float :=
  k <- getitem tier_keys (r - 1) ;; dict_get TIERS k.

(** A block time [pd.to_datetime] accepts, and the timestamp it gives. *)
Definition to_timestamp (x : Z) : result Z := v <- to_ns x ;; to_datetime v.

Definition datable (x : Z) : bool :=
  match to_timestamp x with Ok _ => true | Raise _ => false end.

Definition timestamp_of (x : Z) : Z :=
  match to_timestamp x with Ok ts => ts | Raise _ => 0 end.

(** Every fee block of the wrapper's vault has a time [pd.to_datetime]
    accepts. *)
Definition blocks_datable (c : Chain) (w : Wrapper.t) : Prop :=
  forall b, In b (dict_keys (get_protocol_fees c (Wrapper.vault w))) ->
            datable (get_block_timestamp c b) = true.

(** The (wrapper, block) pairs of the fees of a list of wrappers, wrapper
    after wrapper, and the pair of a ledger row. *)
Definition wrapper_blocks (c : Chain) (ws : list Wrapper.t) : list (string * Z) :=
  flat_map (fun w => map (fun b => (Wrapper.wrapper w, b))
                         (dict_keys (get_protocol_fees c (Wrapper.vault w)))) ws.

Definition ledger_key (l : Ledger.t) : string * Z :=
  (Row.wrapper (Ledger.row l), Row.block (Ledger.row l)).

(** What [Partner.process] needs to return: a wrapper, and for every
    wrapper a fee event of its vault and fee blocks with times
    [pd.to_datetime] accepts. *)
Definition processable (c : Chain) (p : Partner.t) : Prop :=
  Partner.wrappers p <> [] /\
  forall w, In w (Partner.wrappers p) ->
            fee_logs c (Wrapper.vault w) <> [] /\ blocks_datable c w.

(** The row [Partner.wrap] builds for one fee event of a wrapper. *)
Definition row_of (c : Chain) (w : Wrapper.t) (event : Z * float) : Row.t :=
  let b := fst event in
  Row.make b (timestamp_of (get_block_timestamp c b)) (snd event)
           (balanceOf c (Wrapper.vault w) (Wrapper.wrapper w) b)
           (totalSupply c (Wrapper.vault w) b)
           (get_price c (Wrapper.vault w) b)
           (Wrapper.wrapper w) (Wrapper.vault w).

(** The forward-filled value of a vault at a block, in the words of the
    specification: the pivot cell of the vault at the latest block, at or
    before [b], at which the vault has a value; missing when there is none. *)
Section Carried.
Context {N : Type} `{Scalar N}.

Definition max_opt (xs : list Z) : option Z :=
  fold_right (fun x acc => Some (match acc with None => x | Some y => Z.max x y end))
             None xs.

Definition last_observed (data : Long N) (v : string) (b : Z) : option Z :=
  max_opt (filter (fun b' => (b' <=? b) && negb (isna (cell data b' v)))
                  (pivot_index data)).

Definition carried (data : Long N) (v : string) (b : Z) : N :=
  match last_observed data v b with
  | Some b' => cell data b' v
  | None => s_nan
  end.
End Carried.

(** The monthly bins of an export and the amount of a (month, token) pair:
    the sum, over the timestamps of the month, of the pivot cells of the
    token. *)
Section Monthly.
Context {N : Type} `{Scalar N}.

Definition months (data : Long N) : list Z :=
  month_range (map month_ord (pivot_index data)).

Definition monthly_amount (data : Long N) (o : Z) (c : string) : N :=
  group_sum (map (fun i => cell data i c)
                 (filter (fun i => month_ord i =? o) (pivot_index data))).

Definition payout_key (p : Payout.t N) : date * string :=
  (Payout.timestamp p, Payout.token p).
End Monthly.

(** The value a dict comprehension keeps for a key: that of the last pair
    with this key. *)
Definition last_value {V : Type} (kvs : list (Z * V)) (k : Z) : option V :=
  fold_left (fun acc kv => if fst kv =? k then Some (snd kv) else acc) kvs None.

(** The keys of a list of pairs in the order of their first occurrence. *)
Fixpoint first_keys {V : Type} (seen : list Z) (kvs : list (Z * V)) : list Z :=
  match kvs with
  | [] => []
  | (k, _) :: kvs' =>
      if in_dec Z.eq_dec k seen then first_keys seen kvs'
      else k :: first_keys (k :: seen) kvs'
  end.

(** *** Exact values

    A finite binary64 number is an integer multiple of [2^-1074], the least
    positive one.  [units x] is that integer: the value of [x] counted in
    units of [2^-1074].  It is 0 for NaN, which the sums of pandas skip, and
    for the infinities. *)
Definition sval (x : spec_float) : Z :=
  match x with
  | S754_finite s m e => cond_Zopp s (Z.pos m * 2 ^ (e + 1074))
  | _ => 0
  end.

Definition units (x : float) : Z := sval (Prim2SF x).

Definition sfinite (x : spec_float) : bool :=
  match x with
  | S754_zero _ | S754_finite _ _ _ => true
  | _ => false
  end.

Definition finite (x : float) : bool := sfinite (Prim2SF x).

(** [0 <= x < inf]: a number that is neither negative, nor infinite, nor
    NaN. *)
Definition nonneg_finite (x : float) : bool := ((0 <=? x) && (x <? infinity))%float.

Definition zsum (xs : list Z) : Z := fold_right Z.add 0 xs.

(** The sum of a list of floats without any rounding, in units of
    [2^-1074]; NaN counts as zero. *)
Definition exact_sum (xs : list float) : Z := zsum (map units xs).

(** What the sums of the export add up: missing values, which they skip,
    and non-negative numbers. *)
Definition summand (x : float) : Prop :=
  is_nan x = true \/ (finite x = true /\ 0 <= units x).

(** The state of a compensated sum after [k] values whose exact sum is [S]:
    the sum less the compensation is within [(3 + 16 k / 2^52) * S / 2^52]
    of [S], and the compensation is within [4 * S / 2^52] of zero. *)
Definition kahan_inv (k S : Z) (acc : float * float) : Prop :=
  finite (fst acc) = true /\ finite (snd acc) = true /\
  0 <= S /\ 0 <= k /\
  2 ^ 104 * Z.abs (units (fst acc) - units (snd acc) - S) <= 3 * 2 ^ 52 * S + 16 * (k * S) /\
  2 ^ 52 * Z.abs (units (snd acc)) <= 4 * S.

(** The rows of a month and a vault, summed exactly. *)
Definition class_sum (data : Long float) (o : Z) (c : string) : Z :=
  zsum (map (fun r => units (snd r))
            (filter (fun r => (snd (fst r) =? c)%string)
                    (filter (fun r => month_ord (fst (fst r)) =? o) data))).

(** Whether a loop returns, whatever it raises otherwise. *)
Definition ok_of {A : Type} (r : result A) : option A :=
  match r with Ok a => Some a | Raise _ => None end.

(** ** Sample chains *)

Definition wrapper_of (name vault : string) : Wrapper.t :=
  {| Wrapper.name := name; Wrapper.vault := vault; Wrapper.wrapper := name |}.

(** Vault X is observed at blocks 1 and 5 with balances 100 and 200 USD,
    vault Y at block 5 with 50 USD, vault Z at block 3 with nothing in it,
    and vault E has no fee event. *)
Definition chain_xy : Chain := {|
  fee_logs := fun v =>
    if (v =? "X")%string then [(1, 1%float); (5, 1%float)]
    else if (v =? "Y")%string then [(5, 1%float)]
    else if (v =? "Z")%string then [(3, 1%float)]
    else [];
  get_block_timestamp := fun b => 1609459200 + b * 1728000;
  balanceOf := fun v w b =>
    if (v =? "X")%string then (if b =? 1 then 100%float else 200%float)
    else if (v =? "Y")%string then 50%float
    else 0%float;
  totalSupply := fun v b => if (v =? "Z")%string then 0%float else 1000%float;
  get_price := fun v b => 1%float |}.

Definition partner_xy : Partner.t := {|
  Partner.name := "xy";
  Partner.wrappers := [wrapper_of "x" "X"; wrapper_of "y" "Y"];
  Partner.treasury := None |}.

Definition partner_xyz : Partner.t := {|
  Partner.name := "xyz";
  Partner.wrappers := [wrapper_of "x" "X"; wrapper_of "y" "Y"; wrapper_of "z" "Z"];
  Partner.treasury := None |}.

Definition partner_z : Partner.t := {|
  Partner.name := "z";
  Partner.wrappers := [wrapper_of "z" "Z"];
  Partner.treasury := None |}.

Definition partner_xe : Partner.t := {|
  Partner.name := "xe";
  Partner.wrappers := [wrapper_of "e" "E"; wrapper_of "x" "X"];
  Partner.treasury := None |}.

(** One wrapper holding the whole supply of a vault. *)
Definition chain_whole : Chain := {|
  fee_logs := fun v => [(100, 10%float)];
  get_block_timestamp := fun b => 1609459200;
  balanceOf := fun v w b => 80%float;
  totalSupply := fun v b => 80%float;
  get_price := fun v b => 1%float |}.

(** The end-to-end scenario of the specification: one wrapper, fee events
    at blocks 100 and 200. *)
Definition chain_two_events : Chain := {|
  fee_logs := fun v => [(100, 10%float); (200, 20%float)];
  get_block_timestamp := fun b => 1609459200 + b * 1000;
  balanceOf := fun v w b => if b =? 100 then 50%float else 80%float;
  totalSupply := fun v b => 100%float;
  get_price := fun v b => 1%float |}.

(** A vault whose wrappers hold two and three million USD: tiers above 0. *)
Definition chain_rich : Chain := {|
  fee_logs := fun v => [(10, 100%float); (20, 200%float); (10, 300%float)];
  get_block_timestamp := fun b => 1609459200 + b * 2000000;
  balanceOf := fun v w b => if (w =? "a")%string then 2000000%float else 3000000%float;
  totalSupply := fun v b => 8000000%float;
  get_price := fun v b => 1%float |}.

Definition partner_rich : Partner.t := {|
  Partner.name := "rich";
  Partner.wrappers := [wrapper_of "a" "R"; wrapper_of "b" "R"];
  Partner.treasury := None |}.

(** Vault P has fee events at blocks 10 and 30, vault Q at block 20.  One
    wrapper holds two, then four million USD of P; two wrappers hold three
    and one million USD of Q. *)
Definition chain_carry : Chain := {|
  fee_logs := fun v =>
    if (v =? "P")%string then [(10, 100%float); (30, 300%float)]
    else [(20, 200%float)];
  get_block_timestamp := fun b => 1609459200 + b * 2000000;
  balanceOf := fun v w b =>
    if (v =? "P")%string then (if b =? 10 then 2000000%float else 4000000%float)
    else if (w =? "q1")%string then 3000000%float
    else 1000000%float;
  totalSupply := fun v b => 8000000%float;
  get_price := fun v b => 1%float |}.

Definition partner_carry : Partner.t := {|
  Partner.name := "carry";
  Partner.wrappers := [wrapper_of "p" "P"; wrapper_of "q1" "Q"; wrapper_of "q2" "Q"];
  Partner.treasury := None |}.

Definition partner_one : Partner.t := {|
  Partner.name := "one";
  Partner.wrappers := [wrapper_of "w" "V"];
  Partner.treasury := Some "0xT"%string |}.

(** * Properties *)

Lemma SFltb_rank x y :
  SFltb x y = true <-> not_nan x /\ not_nan y /\ lexlt (rank x) (rank y).
Proof.
  unfold SFltb, not_nan.
  destruct x as [sx|sx| |sx mx ex], y as [sy|sy| |sy my ey];
    try destruct sx; try destruct sy; cbn;
    try (split; [intros; try discriminate; repeat split; try discriminate; lia
                | intros (? & ? & ?); try congruence; try lia]; fail).
  all: rewrite ?Pos.compare_cont_spec; cbn.
  all: destruct (Z.compare_spec ex ey), (Pos.compare_spec mx my); cbn;
    (split; [intros; try discriminate; repeat split; try discriminate; lia
            | intros (? & ? & ?); try congruence; try lia]).
Qed.

Lemma SFleb_rank x y :
  SFleb x y = true <-> not_nan x /\ not_nan y /\ lexle (rank x) (rank y).
Proof.
  unfold SFleb, not_nan, lexle.
  destruct x as [sx|sx| |sx mx ex], y as [sy|sy| |sy my ey];
    try destruct sx; try destruct sy; cbn;
    try (split; [intros; try discriminate; repeat split; try discriminate;
                 first [left; lia | right; reflexivity]
                | intros (? & ? & [?|E]); try congruence; try lia]; fail).
  all: rewrite ?Pos.compare_cont_spec; cbn.
  all: destruct (Z.compare_spec ex ey), (Pos.compare_spec mx my); cbn;
    (split; [intros; try discriminate; repeat split; try discriminate;
             first [left; lia | right; congruence]
            | intros (? & ? & [?|E]); try congruence; try lia;
              try (injection E; intros; lia)]).
Qed.

Lemma lexlt_trans p q r : lexlt p q -> lexlt q r -> lexlt p r.
Proof. destruct p as [[? ?] ?], q as [[? ?] ?], r as [[? ?] ?]; cbn; lia. Qed.

Lemma lexlt_irrefl p : ~ lexlt p p.
Proof. destruct p as [[? ?] ?]; cbn; lia. Qed.

Lemma lexlt_total p q : lexlt p q \/ p = q \/ lexlt q p.
Proof.
  destruct p as [[a b] c], q as [[a' b'] c']; cbn.
  destruct (Z.lt_total a a') as [?|[?|?]]; [lia| |lia].
  destruct (Z.lt_total b b') as [?|[?|?]]; [lia| |lia].
  destruct (Z.lt_total c c') as [?|[?|?]]; [lia| |lia].
  right; left; congruence.
Qed.

Section FloatOrder.
Local Open Scope float_scope.

Lemma ltb_rank x y :
  (x <? y) = true <->
  not_nan (Prim2SF x) /\ not_nan (Prim2SF y) /\ lexlt (rank (Prim2SF x)) (rank (Prim2SF y)).
Proof. rewrite ltb_spec. apply SFltb_rank. Qed.

Lemma leb_rank x y :
  (x <=? y) = true <->
  not_nan (Prim2SF x) /\ not_nan (Prim2SF y) /\ lexle (rank (Prim2SF x)) (rank (Prim2SF y)).
Proof. rewrite leb_spec. apply SFleb_rank. Qed.

Lemma is_nan_false x : is_nan x = false <-> not_nan (Prim2SF x).
Proof.
  unfold is_nan, not_nan. rewrite eqb_spec.
  destruct (Prim2SF x) as [s|s| |s m e]; cbn; try destruct s; cbn;
    rewrite ?Pos.compare_cont_spec, ?Z.compare_refl, ?Pos.compare_refl; cbn;
    split; intros; congruence.
Qed.

Lemma ltb_leb_trans x y z : (x <? y) = true -> (y <=? z) = true -> (x <? z) = true.
Proof.
  rewrite !ltb_rank, leb_rank. intros (? & ? & ?) (? & ? & [?|E]).
  - eauto using lexlt_trans.
  - rewrite <- E. auto.
Qed.

Lemma leb_ltb_trans x y z : (x <=? y) = true -> (y <? z) = true -> (x <? z) = true.
Proof.
  rewrite !ltb_rank, leb_rank. intros (? & ? & [?|E]) (? & ? & ?).
  - eauto using lexlt_trans.
  - rewrite E. auto.
Qed.

Lemma leb_trans x y z : (x <=? y) = true -> (y <=? z) = true -> (x <=? z) = true.
Proof.
  rewrite !leb_rank. unfold lexle. intros (? & ? & [?|E]) (? & ? & [?|E']).
  - eauto 6 using lexlt_trans.
  - rewrite <- E'. auto.
  - rewrite E. auto.
  - rewrite E. auto.
Qed.

Lemma ltb_irrefl x : (x <? x) = false.
Proof.
  destruct (x <? x) eqn:E; [|reflexivity].
  apply ltb_rank in E. destruct E as (_ & _ & E). now apply lexlt_irrefl in E.
Qed.

Lemma ltb_false_leb x y :
  (x <? y) = false -> is_nan x = false -> is_nan y = false -> (y <=? x) = true.
Proof.
  rewrite !is_nan_false. intros E Hx Hy. apply leb_rank. repeat split; auto.
  destruct (lexlt_total (rank (Prim2SF x)) (rank (Prim2SF y))) as [L|[L|L]].
  - assert ((x <? y) = true) by (apply ltb_rank; auto). congruence.
  - right; congruence.
  - left; assumption.
Qed.

Lemma leb_not_nan x y : (x <=? y) = true -> is_nan x = false /\ is_nan y = false.
Proof. rewrite leb_rank, !is_nan_false. tauto. Qed.

Lemma ltb_not_nan x y : (x <? y) = true -> is_nan x = false /\ is_nan y = false.
Proof. rewrite ltb_rank, !is_nan_false. tauto. Qed.

Lemma leb_ltb_false x y : (x <=? y) = true -> (y <? x) = false.
Proof.
  intros L. destruct (y <? x) eqn:E; [|reflexivity].
  pose proof (leb_ltb_trans _ _ _ L E) as F. now rewrite ltb_irrefl in F.
Qed.
End FloatOrder.

(** ** [bisect_right] on a list where [x < a[i]] is monotone in [i] *)

Section BisectSpec.
Context {A K : Type} (lt : A -> K -> bool) (dflt : K) (a : list K) (x : A).

Hypothesis below_mono :
  forall i j, 0 <= i <= j -> j < Z.of_nat (List.length a) ->
              below lt dflt a x i = true -> below lt dflt a x j = true.

Lemma bisect_loop_spec lo hi :
  0 <= lo <= hi -> hi <= Z.of_nat (List.length a) ->
  (forall i, 0 <= i < lo -> below lt dflt a x i = false) ->
  (forall i, hi <= i < Z.of_nat (List.length a) -> below lt dflt a x i = true) ->
  lo <= bisect_loop lt dflt a x lo hi <= hi /\
  (forall i, 0 <= i < bisect_loop lt dflt a x lo hi -> below lt dflt a x i = false) /\
  (forall i, bisect_loop lt dflt a x lo hi <= i < Z.of_nat (List.length a) ->
             below lt dflt a x i = true).
Proof.
  funelim (bisect_loop lt dflt a x lo hi); intros Hlo Hhi Hl Hr.
  - assert (Hm : lo <= (lo + hi) / 2 < hi)
      by (split; [apply Z.div_le_lower_bound | apply Z.div_lt_upper_bound]; lia).
    destruct (lt x (nth (Z.to_nat ((lo + hi) / 2)) a dflt)) eqn:E.
    + match goal with IH : _ -> _ -> _ -> _ -> _ <= bisect_loop _ _ _ _ lo _ <= _ /\ _ |- _ =>
        destruct IH as (B & L & R); try lia; auto end.
      { intros i Hi. apply (below_mono ((lo + hi) / 2)); [lia | lia | exact E]. }
      repeat split; auto; lia.
    + match goal with IH : _ -> _ -> _ -> _ -> _ <= bisect_loop _ _ _ _ _ hi <= _ /\ _ |- _ =>
        destruct IH as (B & L & R); try lia; auto end.
      { intros i Hi. destruct (below lt dflt a x i) eqn:Ei; [|reflexivity].
        rewrite <- E. symmetry. apply (below_mono i); [lia | lia | exact Ei]. }
      repeat split; auto; lia.
  - assert (lo = hi) by lia. subst. repeat split; auto; lia.
Qed.

Lemma bisect_right_spec :
  0 <= bisect_right lt dflt a x <= Z.of_nat (List.length a) /\
  (forall i, 0 <= i < bisect_right lt dflt a x -> below lt dflt a x i = false) /\
  (forall i, bisect_right lt dflt a x <= i < Z.of_nat (List.length a) ->
             below lt dflt a x i = true).
Proof.
  unfold bisect_right. apply bisect_loop_spec; lia.
Qed.
End BisectSpec.

(** ** The tier lookup *)

Example get_tier_examples :
  map get_tier [0%float; 999999%float; 1000000%float; 4999999.5%float;
                1000000000%float; 2e12%float; infinity; (-1)%float; nan]
  = map Ok [0%float; 0%float; 0.10%float; 0.10%float;
            0.5%float; 0.5%float; 0.5%float; 0.5%float; 0.5%float].
Proof. reflexivity. Qed.

Lemma tier_keys_ascending i j :
  0 <= i <= j -> j < 10 ->
  PrimFloat.leb (of_int (nth (Z.to_nat i) tier_keys 0))
                (of_int (nth (Z.to_nat j) tier_keys 0)) = true.
Proof.
  intros Hi Hj.
  assert (Ei : exists n, Z.to_nat i = n /\ (n < 10)%nat) by (eexists; split; [reflexivity|lia]).
  assert (Ej : exists n, Z.to_nat j = n /\ (n < 10)%nat) by (eexists; split; [reflexivity|lia]).
  destruct Ei as (ni & Ei & Li), Ej as (nj & Ej & Lj).
  assert (Hle : (ni <= nj)%nat) by lia.
  rewrite Ei, Ej. clear - Li Lj Hle.
  do 10 (destruct ni as [|ni]; [do 10 (destruct nj as [|nj]; [first [reflexivity | lia]|]); lia|]).
  lia.
Qed.

Lemma bisect_tier_split amount :
  tier_split amount (bisect_right lt_int 0 tier_keys amount).
Proof.
  apply (bisect_right_spec lt_int 0 tier_keys amount).
  intros i j Hi Hj E. unfold lt_int in *.
  eapply ltb_leb_trans; [exact E|]. apply tier_keys_ascending; [lia|exact Hj].
Qed.

Lemma get_tier_unfold amount :
  get_tier amount =
  (k <- getitem tier_keys (bisect_right lt_int 0 tier_keys amount - 1) ;; dict_get TIERS k).
Proof. reflexivity. Qed.

Lemma tier_at_total r :
  0 <= r <= 10 -> exists t, tier_at r = Ok t.
Proof.
  intros Hr.
  assert (E : r = 0 \/ r = 1 \/ r = 2 \/ r = 3 \/ r = 4 \/ r = 5 \/ r = 6 \/ r = 7 \/
              r = 8 \/ r = 9 \/ r = 10) by lia.
  repeat (destruct E as [E|E]; [subst r; eexists; reflexivity|]).
  subst r; eexists; reflexivity.
Qed.

Lemma get_tier_total amount : exists t, get_tier amount = Ok t.
Proof.
  rewrite get_tier_unfold.
  destruct (bisect_tier_split amount) as (Hr & _ & _).
  exact (tier_at_total _ Hr).
Qed.

Lemma tier_split_cases amount r :
  tier_split amount r ->
  r = 0 \/ r = 1 \/ r = 2 \/ r = 3 \/ r = 4 \/ r = 5 \/ r = 6 \/ r = 7 \/
  r = 8 \/ r = 9 \/ r = 10.
Proof. intros (Hr & _). lia. Qed.

(** A non-negative amount is not below the key [0], so the insertion point
    is at least one. *)
Lemma tier_split_nonneg amount r :
  PrimFloat.leb 0 amount = true -> tier_split amount r -> 1 <= r.
Proof.
  intros H0 (Hr & _ & Hge).
  destruct (Z.eq_dec r 0) as [->|]; [|lia].
  pose proof (Hge 0 ltac:(lia)) as F. vm_compute in F.
  rewrite (leb_ltb_false _ _ H0) in F. discriminate F.
Qed.

(** A key at or after the insertion point is above the amount. *)
Ltac key_above Hge H j :=
  let F := fresh "F" in
  pose proof (Hge j ltac:(lia)) as F; vm_compute in F; vm_compute in H;
  rewrite (leb_ltb_false _ _ H) in F; discriminate F.

Ltac key_above_any Hge H :=
  first [ key_above Hge H 0 | key_above Hge H 1 | key_above Hge H 2
        | key_above Hge H 3 | key_above Hge H 4 | key_above Hge H 5
        | key_above Hge H 6 | key_above Hge H 7 | key_above Hge H 8
        | key_above Hge H 9 ].

Ltac tier_case Hlt Hge Hnan :=
  match goal with
  | |- exists k rate, _ /\ _ /\ _ /\ tier_at ?r = _ =>
      let k := eval vm_compute in (nth (Z.to_nat (r - 1)) tier_keys 0) in
      exists k; eexists; split; [|split; [|split; [|reflexivity]]];
      [ cbn; repeat (first [left; reflexivity | right])
      | let F := fresh "F" in
        pose proof (Hlt (r - 1) ltac:(lia)) as F;
        apply ltb_false_leb; [exact F | exact Hnan | reflexivity]
      | let k' := fresh "k'" in
        let rate' := fresh "rate'" in
        let Hin := fresh "Hin" in
        let Hle := fresh "Hle" in
        intros k' rate' Hin Hle;
        repeat (destruct Hin as [Hin|Hin];
                [injection Hin; intros; subst k' rate';
                 first [lia | exfalso; key_above_any Hge Hle]|]);
        destruct Hin ]
  end.

Lemma tier_split_greatest amount r :
  PrimFloat.leb 0 amount = true -> tier_split amount r ->
  exists k rate,
    In (k, rate) TIERS /\
    PrimFloat.leb (of_int k) amount = true /\
    (forall k' rate', In (k', rate') TIERS ->
                      PrimFloat.leb (of_int k') amount = true -> k' <= k) /\
    tier_at r = Ok rate.
Proof.
  intros H0 S. pose proof (tier_split_nonneg _ _ H0 S) as H1.
  pose proof (tier_split_cases _ _ S) as C.
  destruct (leb_not_nan _ _ H0) as (_ & Hnan).
  destruct S as (_ & Hlt & Hge).
  destruct C as [C|C]; [lia|].
  repeat (destruct C as [C|C]; [subst r; tier_case Hlt Hge Hnan|]).
  subst r; tier_case Hlt Hge Hnan.
Qed.

Lemma tier_at_monotone r s :
  1 <= r <= s -> s <= 10 ->
  exists ta tb, tier_at r = Ok ta /\ tier_at s = Ok tb /\ PrimFloat.leb ta tb = true.
Proof.
  intros Hr Hs.
  assert (Er : exists n, r = Z.of_nat (S n) /\ (n < 10)%nat)
    by (exists (Z.to_nat (r - 1)); lia).
  assert (Es : exists n, s = Z.of_nat (S n) /\ (n < 10)%nat)
    by (exists (Z.to_nat (s - 1)); lia).
  destruct Er as (n & -> & Ln), Es as (m & -> & Lm).
  assert (Hle : (n <= m)%nat) by lia. clear - Ln Lm Hle.
  do 10 (destruct n as [|n];
         [do 10 (destruct m as [|m];
                 [first [lia | do 2 eexists; repeat split; reflexivity]|]); lia|]).
  lia.
Qed.

Lemma tier_split_le a b ra rb :
  PrimFloat.leb a b = true -> tier_split a ra -> tier_split b rb -> ra <= rb.
Proof.
  intros Hab (Ha & Hlt & _) (Hb & _ & Hge).
  destruct (Z_le_gt_dec ra rb) as [|G]; [assumption|exfalso].
  pose proof (Hlt rb ltac:(lia)) as F.
  pose proof (Hge rb ltac:(lia)) as T.
  unfold lt_int in *.
  rewrite (leb_ltb_trans _ _ _ Hab T) in F. discriminate F.
Qed.

(** C3. For every non-negative amount, [get_tier] returns the rate of the
    greatest threshold of [TIERS] that is less than or equal to the amount
    (intervals closed on the left); an amount below the smallest positive
    threshold gets the rate stored at threshold 0; in particular
    [get_tier 1_000_000 = 0.10] and [get_tier 999_999 = 0]. *)
Theorem get_tier_greatest_threshold (amount : float) :
  PrimFloat.leb 0 amount = true ->
  (exists k rate,
      In (k, rate) TIERS /\
      PrimFloat.leb (of_int k) amount = true /\
      (forall k' rate', In (k', rate') TIERS ->
                        PrimFloat.leb (of_int k') amount = true -> k' <= k) /\
      get_tier amount = Ok rate) /\
  (PrimFloat.ltb amount 1000000 = true -> get_tier amount = dict_get TIERS 0) /\
  get_tier 1000000 = Ok 0.10%float /\
  get_tier 999999 = Ok 0%float.
Proof.
  intros H0. pose proof (bisect_tier_split amount) as S.
  split; [|split; [|split; reflexivity]].
  - rewrite get_tier_unfold. exact (tier_split_greatest _ _ H0 S).
  - intros Hlt. rewrite get_tier_unfold.
    pose proof (tier_split_nonneg _ _ H0 S) as H1.
    destruct S as (_ & Hbelow & _).
    destruct (Z_le_gt_dec (bisect_right lt_int 0 tier_keys amount) 1) as [L|G].
    + replace (bisect_right lt_int 0 tier_keys amount) with 1 by lia. reflexivity.
    + pose proof (Hbelow 1 ltac:(lia)) as F. vm_compute in F.
      rewrite Hlt in F. discriminate F.
Qed.

Lemma get_tier_greatest_threshold_witness :
  PrimFloat.leb 0 1234567 = true /\
  ((exists k rate,
       In (k, rate) TIERS /\
       PrimFloat.leb (of_int k) 1234567 = true /\
       (forall k' rate', In (k', rate') TIERS ->
                         PrimFloat.leb (of_int k') 1234567 = true -> k' <= k) /\
       get_tier 1234567 = Ok rate) /\
   (PrimFloat.ltb 1234567 1000000 = true -> get_tier 1234567 = dict_get TIERS 0) /\
   get_tier 1000000 = Ok 0.10%float /\
   get_tier 999999 = Ok 0%float).
Proof.
  split; [reflexivity | apply (get_tier_greatest_threshold 1234567); reflexivity].
Defined.

(** C8. [get_tier] is monotonic over the configured table: for all amounts
    [0 <= a <= b], both lookups succeed and [get_tier a <= get_tier b]. *)
Theorem get_tier_monotonic (a b : float) :
  PrimFloat.leb 0 a = true ->
  PrimFloat.leb a b = true ->
  exists ta tb,
    get_tier a = Ok ta /\ get_tier b = Ok tb /\ PrimFloat.leb ta tb = true.
Proof.
  intros H0 Hab. rewrite !get_tier_unfold.
  pose proof (bisect_tier_split a) as Sa.
  pose proof (bisect_tier_split b) as Sb.
  apply tier_at_monotone.
  - split; [exact (tier_split_nonneg _ _ H0 Sa) | exact (tier_split_le _ _ _ _ Hab Sa Sb)].
  - destruct Sb as (Hb & _). lia.
Qed.

Lemma get_tier_monotonic_witness :
  PrimFloat.leb 0 999999 = true /\
  PrimFloat.leb 999999 60000000 = true /\
  exists ta tb,
    get_tier 999999 = Ok ta /\ get_tier 60000000 = Ok tb /\ PrimFloat.leb ta tb = true.
Proof.
  split; [reflexivity | split; [reflexivity |]].
  apply (get_tier_monotonic 999999 60000000); reflexivity.
Defined.

(** C10. For every negative amount the insertion point is 0, the index is
    [-1], which selects the last sorted key, and [get_tier] returns [0.5],
    the rate of the largest threshold, not the rate at threshold 0. *)
Theorem get_tier_negative (amount : float) :
  PrimFloat.ltb amount 0 = true ->
  bisect_right lt_int 0 (sorted (dict_keys TIERS)) amount = 0 /\
  getitem (sorted (dict_keys TIERS)) (-1) = Ok 1000000000 /\
  (forall k rate, In (k, rate) TIERS -> k <= 1000000000) /\
  get_tier amount = Ok 0.5%float /\
  dict_get TIERS 0 = Ok 0%float.
Proof.
  intros Hneg.
  assert (E : bisect_right lt_int 0 tier_keys amount = 0).
  { destruct (bisect_tier_split amount) as (Hr & Hbelow & _).
    destruct (Z.eq_dec (bisect_right lt_int 0 tier_keys amount) 0) as [|N]; [assumption|].
    pose proof (Hbelow 0 ltac:(lia)) as F. vm_compute in F.
    rewrite Hneg in F. discriminate F. }
  split; [exact E|]. split; [reflexivity|]. split.
  - intros k rate Hin. cbn in Hin.
    repeat (destruct Hin as [Hin|Hin]; [injection Hin; intros; lia|]).
    destruct Hin.
  - split; [|reflexivity]. rewrite get_tier_unfold, E. reflexivity.
Qed.

Lemma get_tier_negative_witness :
  PrimFloat.ltb (-1) 0 = true /\ get_tier (-1) = Ok 0.5%float.
Proof.
  split; [reflexivity|].
  exact (proj1 (proj2 (proj2 (proj2 (get_tier_negative (-1)%float eq_refl))))).
Defined.

(** ** Arithmetic of binary64 numbers *)

Lemma Prim2SF_one : Prim2SF 1 = S754_finite false 4503599627370496 (-52).
Proof. reflexivity. Qed.

Lemma SFdiv_self s m e :
  SF64div (S754_finite s m e) (S754_finite s m e) = Prim2SF 1.
Proof.
  unfold SF64div, SFdiv, SFdiv_core_binary.
  replace (Zdigits2 (Z.pos m) + e - (Zdigits2 (Z.pos m) + e)) with 0 by lia.
  replace (e - e) with 0 by lia.
  change (Z.min (fexp prec emax 0) 0) with (-53).
  change (0 - -53) with 53.
  cbv iota beta.
  assert (E : Z.div_eucl (Z.shiftl (Z.pos m) 53) (Z.pos m) = (9007199254740992, 0)).
  { rewrite Z.shiftl_mul_pow2 by lia.
    pose proof (Z.div_mul (2 ^ 53) (Z.pos m) ltac:(lia)) as Q.
    pose proof (Z.mod_mul (2 ^ 53) (Z.pos m) ltac:(lia)) as R.
    rewrite (Z.mul_comm (Z.pos m)).
    unfold Z.div, Z.modulo in Q, R.
    destruct (Z.div_eucl (2 ^ 53 * Z.pos m) (Z.pos m)) as [q r].
    subst q r. reflexivity. }
  rewrite E.
  assert (L : new_location (Z.pos m) 0 = loc_Exact).
  { unfold new_location, new_location_even, new_location_odd. destruct (Z.even _); reflexivity. }
  rewrite L. rewrite xorb_nilpotent. reflexivity.
Qed.

Lemma pos_finite x :
  (0 <? x)%float = true -> (x <? infinity)%float = true ->
  exists m e, Prim2SF x = S754_finite false m e.
Proof.
  rewrite !ltb_spec. intros H0 Hi.
  destruct (Prim2SF x) as [s|s| |s m e]; try destruct s; try discriminate; eauto.
Qed.

Lemma div_self x :
  (0 <? x)%float = true -> (x <? infinity)%float = true -> (x / x)%float = 1%float.
Proof.
  intros H0 Hi. destruct (pos_finite x H0 Hi) as (m & e & E).
  apply Prim2SF_inj. rewrite div_spec, E. apply SFdiv_self.
Qed.

Lemma mul_nan_l x : (nan * x)%float = nan.
Proof. apply Prim2SF_inj. rewrite mul_spec. reflexivity. Qed.

Lemma mul_nan_r x : (x * nan)%float = nan.
Proof.
  apply Prim2SF_inj. rewrite mul_spec.
  change (Prim2SF nan) with S754_nan. destruct (Prim2SF x); reflexivity.
Qed.

Lemma digits2_shift52 m :
  Z.pos (digits2_pos (4503599627370496 * m)) = Z.pos (digits2_pos m) + 52.
Proof. cbn [Pos.mul digits2_pos]. rewrite !Pos2Z.inj_succ. lia. Qed.

Lemma shr52 m :
  iter_pos shr_1 52 {| shr_m := Z.pos (4503599627370496 * m); shr_r := false; shr_s := false |}
  = {| shr_m := Z.pos m; shr_r := false; shr_s := false |}.
Proof. reflexivity. Qed.

Lemma SFmul_one_finite s m e :
  valid_binary (S754_finite s m e) = true ->
  SF64mul (Prim2SF 1) (S754_finite s m e) = S754_finite s m e.
Proof.
  intros V. cbn in V. apply andb_prop in V. destruct V as (C & B).
  unfold canonical_mantissa in C. apply Z.eqb_eq in C.
  rewrite Prim2SF_one. unfold SF64mul, SFmul, binary_round_aux, shr_fexp.
  unfold Zdigits2. rewrite digits2_shift52.
  replace (Z.pos (digits2_pos m) + 52 + (-52 + e)) with (Z.pos (digits2_pos m) + e) by lia.
  rewrite C. replace (e - (-52 + e)) with 52 by lia.
  cbn [shr shr_record_of_loc]. rewrite shr52.
  cbn [shr_m loc_of_shr_record round_nearest_even].
  replace (-52 + e + 52) with e by lia.
  rewrite C. rewrite Z.sub_diag. cbn [shr shr_record_of_loc shr_m xorb].
  rewrite B. reflexivity.
Qed.

Lemma mul_one_l x : (1 * x)%float = x.
Proof.
  apply Prim2SF_inj. rewrite mul_spec.
  pose proof (Prim2SF_valid x) as V.
  destruct (Prim2SF x) as [s|s| |s m e] eqn:E.
  - destruct s; reflexivity.
  - destruct s; reflexivity.
  - reflexivity.
  - apply SFmul_one_finite. exact V.
Qed.

Lemma eqb_pos_finite x y :
  (x =? y)%float = true -> (0 <? y)%float = true -> (y <? infinity)%float = true ->
  x = y.
Proof.
  intros E H0 Hi. destruct (pos_finite y H0 Hi) as (m & e & Ey).
  apply Prim2SF_inj. rewrite eqb_spec, Ey in E. rewrite Ey.
  unfold SFeqb in E.
  destruct (Prim2SF x) as [s|s| |s mx ex]; try destruct s; try discriminate E.
  cbn in E. rewrite Pos.compare_cont_spec in E. cbn in E.
  destruct (Z.compare_spec ex e); try discriminate E.
  destruct (Pos.compare_spec mx m); try discriminate E.
  congruence.
Qed.

Lemma div_zero_zero x y :
  (x =? 0)%float = true -> (y =? 0)%float = true -> (x / y)%float = nan.
Proof.
  rewrite !eqb_spec. intros Ex Ey.
  apply Prim2SF_inj. rewrite div_spec.
  change (Prim2SF 0) with (S754_zero false) in *.
  unfold SFeqb in *.
  destruct (Prim2SF x) as [sx|sx| |sx mx ex]; try destruct sx; try discriminate Ex;
    destruct (Prim2SF y) as [sy|sy| |sy my ey]; try destruct sy; try discriminate Ey;
    reflexivity.
Qed.

(** ** The frame of one wrapper *)

Lemma dict_set_nonempty {V : Type} (d : dict V) k v : dict_set d k v <> [].
Proof. destruct d as [|[k' v'] d]; cbn; [|destruct (k =? k')]; discriminate. Qed.

Lemma dict_of_nil_iff {V : Type} (kvs : list (Z * V)) : dict_of kvs = [] <-> kvs = [].
Proof.
  split; [|intros ->; reflexivity].
  destruct kvs as [|kv kvs] using rev_ind; [reflexivity|].
  unfold dict_of. rewrite fold_left_app. cbn. intros E.
  now apply dict_set_nonempty in E.
Qed.

(** *** Loops that may raise *)

Lemma mapM_raises {A B : Type} (f : A -> result B) (xs : list A) (x : A) e0 :
  (forall y e, In y xs -> f y = Raise e -> e = e0) ->
  In x xs -> f x = Raise e0 -> mapM f xs = Raise e0.
Proof.
  induction xs as [|y xs IH]; intros Hf; [intros []|].
  intros [->|Hin] Hx; cbn.
  - rewrite Hx. reflexivity.
  - destruct (f y) as [b|e] eqn:E; cbn.
    + rewrite (IH (fun y' e' H => Hf y' e' (or_intror H)) Hin Hx). reflexivity.
    + now rewrite (Hf _ _ (or_introl eq_refl) E).
Qed.

Lemma mapM_In_Raise {A B : Type} (f : A -> result B) (xs : list A) (x : A) e0 :
  In x xs -> f x = Raise e0 -> exists e, mapM f xs = Raise e.
Proof.
  induction xs as [|y xs IH]; [intros []|].
  intros [->|Hin] Hx; cbn.
  - rewrite Hx. cbn. eauto.
  - destruct (f y) as [b|e]; cbn; [|eauto].
    destruct (IH Hin Hx) as (e & ->). cbn. eauto.
Qed.

Lemma mapM_Ok {A B : Type} (f : A -> result B) (xs : list A) (ys : list B) :
  mapM f xs = Ok ys -> Forall2 (fun x y => f x = Ok y) xs ys.
Proof.
  revert ys. induction xs as [|x xs IH]; cbn; intros ys E.
  - injection E as <-. constructor.
  - destruct (f x) as [y|] eqn:Ex; cbn in E; [|discriminate].
    destruct (mapM f xs) as [ys'|] eqn:Exs; cbn in E; [|discriminate].
    injection E as <-. constructor; auto.
Qed.

Lemma mapM_map_Ok {A B : Type} (f : A -> result B) (g : A -> B) (xs : list A) :
  (forall x, In x xs -> f x = Ok (g x)) -> mapM f xs = Ok (map g xs).
Proof.
  induction xs as [|x xs IH]; intros Hf; cbn; [reflexivity|].
  rewrite (Hf x (or_introl eq_refl)). cbn.
  rewrite IH by (intros; apply Hf; now right). reflexivity.
Qed.

Lemma mapM_total {A B : Type} (f : A -> result B) (xs : list A) :
  (forall x, In x xs -> exists y, f x = Ok y) -> exists ys, mapM f xs = Ok ys.
Proof.
  induction xs as [|x xs IH]; intros Hf; cbn; [eauto|].
  destruct (Hf x (or_introl eq_refl)) as (y & ->).
  destruct IH as (ys & ->); [intros; apply Hf; now right|]. cbn. eauto.
Qed.

Lemma mapM_Raise_In {A B : Type} (f : A -> result B) (xs : list A) e :
  mapM f xs = Raise e -> exists x, In x xs /\ f x = Raise e.
Proof.
  induction xs as [|x xs IH]; cbn; [discriminate|].
  destruct (f x) as [y|e'] eqn:Ex; cbn.
  - destruct (mapM f xs) as [ys|e'']; cbn; [discriminate|].
    intros [= ->]. destruct (IH eq_refl) as (x' & Hin & Hx'). eauto.
  - intros [= ->]. eauto.
Qed.

Lemma Forall2_In_l {A B : Type} (R : A -> B -> Prop) xs ys x :
  Forall2 R xs ys -> In x xs -> exists y, In y ys /\ R x y.
Proof.
  induction 1 as [|x0 y0 xs ys HR _ IH]; intros Hin; [destruct Hin|].
  destruct Hin as [<-|Hin].
  - exists y0. split; [now left | exact HR].
  - destruct (IH Hin) as (y & Hy & Hxy). exists y. split; [now right | exact Hxy].
Qed.

Lemma Forall2_In_r {A B : Type} (R : A -> B -> Prop) xs ys y :
  Forall2 R xs ys -> In y ys -> exists x, In x xs /\ R x y.
Proof.
  induction 1 as [|x0 y0 xs ys HR _ IH]; intros Hin; [destruct Hin|].
  destruct Hin as [<-|Hin].
  - exists x0. split; [now left | exact HR].
  - destruct (IH Hin) as (x & Hx & Hxy). exists x. split; [now right | exact Hxy].
Qed.

(** *** Timestamps *)

Example to_timestamp_examples :
  to_timestamp 1609459200 = Ok 1609459200000000000 /\
  to_timestamp 9223372036 = Ok 9223372036000000000 /\
  to_timestamp 9223372037 = Raise OutOfBoundsDatetime /\
  to_timestamp (2 ^ 1024) = Raise OverflowError.
Proof. repeat split; vm_compute; reflexivity. Qed.

Lemma to_ns_raises x e : to_ns x = Raise e -> e = OverflowError.
Proof.
  unfold to_ns, float_of_int.
  destruct (2 ^ 1024 - 2 ^ 970 <=? Z.abs x); cbn [bind]; congruence.
Qed.

Lemma to_datetime_raises v e : to_datetime v = Raise e -> e = OutOfBoundsDatetime.
Proof.
  unfold to_datetime. destruct (Prim2SF v) as [s|s| |s m e']; try congruence.
  destruct ((- 2 ^ 63 <? _) && _); congruence.
Qed.

Lemma to_timestamp_raises x e :
  to_timestamp x = Raise e -> e = OverflowError \/ e = OutOfBoundsDatetime.
Proof.
  unfold to_timestamp. destruct (to_ns x) as [v|e'] eqn:E; cbn [bind].
  - intros H. right. exact (to_datetime_raises _ _ H).
  - intros [= ->]. left. exact (to_ns_raises _ _ E).
Qed.

Lemma datable_true x : datable x = true <-> to_timestamp x = Ok (timestamp_of x).
Proof.
  unfold datable, timestamp_of. destruct (to_timestamp x); split; congruence.
Qed.

Lemma datable_false x : datable x = false <-> exists e, to_timestamp x = Raise e.
Proof.
  unfold datable. destruct (to_timestamp x) as [t|e]; split;
    first [discriminate | intros (e' & E); discriminate E | eauto].
Qed.

(** Whether a loop returns does not depend on running two bodies one after
    the other over the whole list or element by element. *)
Lemma mapM_two_phases {A B C : Type} (f : A -> result B) (g : B -> result C) xs :
  ok_of (ys <- mapM f xs ;; mapM g ys) = ok_of (mapM (fun x => y <- f x ;; g y) xs).
Proof.
  induction xs as [|x xs IH]; [reflexivity|].
  cbn [mapM]. destruct (f x) as [y|e]; cbn [bind]; [|reflexivity].
  destruct (mapM f xs) as [ys|e]; cbn [bind mapM] in *.
  - destruct (g y) as [z|e]; cbn [bind]; [|reflexivity].
    destruct (mapM g ys), (mapM _ xs); cbn in *; congruence.
  - destruct (g y) as [z|e']; cbn [bind]; [|reflexivity].
    destruct (mapM _ xs); cbn in *; congruence.
Qed.

Lemma mapM_to_timestamp xs ts :
  mapM to_timestamp xs = Ok ts <->
  (forall x, In x xs -> datable x = true) /\ ts = map timestamp_of xs.
Proof.
  split.
  - intros E. apply mapM_Ok in E.
    induction E as [|x t xs ts Hx _ (IH1 & IH2)]; [split; [intros _ [] | reflexivity]|].
    assert (D : datable x = true) by (unfold datable; now rewrite Hx).
    split.
    + intros x' [<-|Hin]; [exact D | now apply IH1].
    + cbn [map]. rewrite <- IH2. f_equal.
      apply datable_true in D. congruence.
  - intros (Hd & ->). apply mapM_map_Ok. intros x Hx. now apply datable_true, Hd.
Qed.

Lemma get_timestamps_Ok c blocks ts :
  get_timestamps c blocks = Ok ts <->
  (forall b, In b blocks -> datable (get_block_timestamp c b) = true) /\
  ts = map (fun b => timestamp_of (get_block_timestamp c b)) blocks.
Proof.
  assert (E : get_timestamps c blocks = Ok ts <->
              mapM to_timestamp (map (get_block_timestamp c) blocks) = Ok ts).
  { unfold get_timestamps. cbv zeta.
    pose proof (mapM_two_phases to_ns to_datetime (map (get_block_timestamp c) blocks)) as P.
    fold to_timestamp in P. unfold to_timestamp at 1.
    destruct (ys <- mapM to_ns _ ;; mapM to_datetime ys), (mapM _ _); cbn in P;
      split; congruence. }
  rewrite E, mapM_to_timestamp, map_map. split; intros (Hd & ->); (split; [|reflexivity]).
  - intros b Hb. apply Hd, in_map, Hb.
  - intros x Hx. apply in_map_iff in Hx. destruct Hx as (b & <- & Hb). now apply Hd.
Qed.

Lemma datable_all_or_not (c : Chain) (blocks : list Z) :
  (forall b, In b blocks -> datable (get_block_timestamp c b) = true) \/
  (exists b, In b blocks /\ datable (get_block_timestamp c b) = false).
Proof.
  induction blocks as [|b blocks [IH|(b' & Hin & Hb')]].
  - left. intros _ [].
  - destruct (datable (get_block_timestamp c b)) eqn:D.
    + left. intros b' [<-|Hin]; [exact D | now apply IH].
    + right. exists b. split; [now left | exact D].
  - right. exists b'. split; [now right | exact Hb'].
Qed.

Lemma get_timestamps_Raise c blocks e :
  get_timestamps c blocks = Raise e ->
  (e = OverflowError \/ e = OutOfBoundsDatetime) /\
  exists b, In b blocks /\ datable (get_block_timestamp c b) = false.
Proof.
  intros E. split.
  - unfold get_timestamps in E. cbv zeta in E.
    destruct (mapM to_ns _) as [vs|e'] eqn:En; cbn [bind] in E.
    + right. apply mapM_Raise_In in E. destruct E as (v & _ & Hv).
      exact (to_datetime_raises _ _ Hv).
    + injection E as ->. left. apply mapM_Raise_In in En. destruct En as (x & _ & Hx).
      exact (to_ns_raises _ _ Hx).
  - destruct (datable_all_or_not c blocks) as [Hd|Hn]; [|exact Hn].
    assert (F : get_timestamps c blocks
                = Ok (map (fun b => timestamp_of (get_block_timestamp c b)) blocks))
      by (apply get_timestamps_Ok; auto).
    congruence.
Qed.

(** *** The frame *)

Lemma frame_of_events c w (events : dict float) :
  frame (Wrapper.wrapper w) (Wrapper.vault w)
        (map fst events)
        (map (fun b => timestamp_of (get_block_timestamp c b)) (map fst events))
        (map snd events)
        (Wrapper.balances c w (map fst events))
        (Wrapper.total_supplies c w (map fst events))
        (Wrapper.vault_prices c w (map fst events))
  = map (row_of c w) events.
Proof.
  unfold Wrapper.balances, Wrapper.total_supplies, Wrapper.vault_prices.
  induction events as [|[b f] events IH]; [reflexivity|].
  cbn [map frame fst snd]. rewrite IH. reflexivity.
Qed.

Lemma wrap_spec c w :
  Partner.wrap c w =
  match get_protocol_fees c (Wrapper.vault w) with
  | [] => Raise ValueError
  | e :: d =>
      timestamps <- get_timestamps c (dict_keys (e :: d)) ;;
      Ok (frame (Wrapper.wrapper w) (Wrapper.vault w) (dict_keys (e :: d)) timestamps
                (map snd (e :: d))
                (Wrapper.balances c w (dict_keys (e :: d)))
                (Wrapper.total_supplies c w (dict_keys (e :: d)))
                (Wrapper.vault_prices c w (dict_keys (e :: d))))
  end.
Proof.
  unfold Partner.wrap, Wrapper.protocol_fees, unzip_items.
  destruct (get_protocol_fees c (Wrapper.vault w)) as [|e events]; reflexivity.
Qed.

(** A wrapper yields a frame exactly when its vault has a fee event and
    every fee block has a time [pd.to_datetime] accepts; the frame has one
    row per fee event. *)
Lemma wrap_Ok c w rows :
  Partner.wrap c w = Ok rows <->
  get_protocol_fees c (Wrapper.vault w) <> [] /\
  blocks_datable c w /\
  rows = map (row_of c w) (get_protocol_fees c (Wrapper.vault w)).
Proof.
  rewrite wrap_spec. unfold blocks_datable.
  destruct (get_protocol_fees c (Wrapper.vault w)) as [|e events] eqn:E.
  - split; [discriminate | intros (H & _); now destruct H].
  - destruct (get_timestamps c (dict_keys (e :: events))) as [ts|x] eqn:Et; cbn [bind].
    + apply get_timestamps_Ok in Et. destruct Et as (Hd & ->).
      unfold dict_keys. rewrite frame_of_events. split.
      * intros [= <-]. split; [discriminate|]. split; [exact Hd | reflexivity].
      * intros (_ & _ & ->). reflexivity.
    + split; [discriminate|]. intros (_ & Hd & _).
      apply get_timestamps_Raise in Et. destruct Et as (_ & b & Hb & Hn).
      rewrite (Hd b Hb) in Hn. discriminate Hn.
Qed.

Lemma wrap_rows c w rows r :
  Partner.wrap c w = Ok rows -> In r rows ->
  exists event, In event (get_protocol_fees c (Wrapper.vault w)) /\ r = row_of c w event.
Proof.
  intros Hw Hin. apply wrap_Ok in Hw. destruct Hw as (_ & _ & ->).
  apply in_map_iff in Hin. destruct Hin as (ev & <- & Hin). eauto.
Qed.

Lemma wrap_raises c w e :
  Partner.wrap c w = Raise e ->
  (e = ValueError /\ get_protocol_fees c (Wrapper.vault w) = []) \/
  ((e = OverflowError \/ e = OutOfBoundsDatetime) /\
   get_protocol_fees c (Wrapper.vault w) <> [] /\
   exists b, In b (dict_keys (get_protocol_fees c (Wrapper.vault w))) /\
             datable (get_block_timestamp c b) = false).
Proof.
  rewrite wrap_spec.
  destruct (get_protocol_fees c (Wrapper.vault w)) as [|ev events] eqn:E.
  - intros [= <-]. left. split; reflexivity.
  - intros H. right.
    destruct (get_timestamps c (dict_keys (ev :: events))) as [ts|x] eqn:Et;
      cbn [bind] in H; [discriminate H|].
    injection H as ->. apply get_timestamps_Raise in Et. destruct Et as (He & Hb).
    split; [exact He|]. split; [discriminate | exact Hb].
Qed.

Lemma wrap_total c w :
  get_protocol_fees c (Wrapper.vault w) <> [] -> blocks_datable c w ->
  Partner.wrap c w = Ok (map (row_of c w) (get_protocol_fees c (Wrapper.vault w))).
Proof. intros Hne Hd. apply wrap_Ok. auto. Qed.

(** ** C4: a wrapper without fee events *)

(** C4. The claim is that a wrapper with no fee events contributes nothing
    and the partner is still aggregated.  The code does otherwise: for a
    partner one of whose wrappers has no fee events, [process] never
    returns, whatever the other wrappers hold.  It raises [ValueError] (the
    unpacking of [zip( *{}.items())]) whenever the fee blocks of the
    partner's wrappers have times [pd.to_datetime] accepts; otherwise a
    wrapper that comes first may have raised on its timestamps. *)
Theorem process_empty_wrapper_raises (c : Chain) (self : Partner.t) (w : Wrapper.t) :
  In w (Partner.wrappers self) ->
  fee_logs c (Wrapper.vault w) = [] ->
  (exists e, Partner.process c self = Raise e) /\
  ((forall w', In w' (Partner.wrappers self) -> blocks_datable c w') ->
   Partner.process c self = Raise ValueError).
Proof.
  intros Hin Hempty.
  assert (Hw : Partner.wrap c w = Raise ValueError)
    by (rewrite wrap_spec; unfold get_protocol_fees; rewrite Hempty; reflexivity).
  unfold Partner.process, Partner.snapshot. split.
  - destruct (mapM_In_Raise (Partner.wrap c) _ w ValueError Hin Hw) as (e & ->).
    cbn [bind]. eauto.
  - intros Hd.
    rewrite (mapM_raises (Partner.wrap c) _ w ValueError); [reflexivity| |exact Hin|exact Hw].
    intros y e Hy Hr. apply wrap_raises in Hr.
    destruct Hr as [(-> & _)|(_ & _ & b & Hb & Hn)]; [reflexivity|].
    rewrite (Hd y Hy b Hb) in Hn. discriminate Hn.
Qed.

Lemma process_empty_wrapper_raises_witness :
  In (wrapper_of "e" "E") (Partner.wrappers partner_xe) /\
  fee_logs chain_xy (Wrapper.vault (wrapper_of "e" "E")) = [] /\
  (forall w', In w' (Partner.wrappers partner_xe) -> blocks_datable chain_xy w') /\
  Partner.process chain_xy partner_xe = Raise ValueError.
Proof.
  assert (Hd : forall w', In w' (Partner.wrappers partner_xe) -> blocks_datable chain_xy w').
  { intros w' [<-|[<-|[]]] b Hb; vm_compute in Hb.
    - destruct Hb.
    - destruct Hb as [<-|[<-|[]]]; reflexivity. }
  split; [left; reflexivity | split; [reflexivity | split; [exact Hd|]]].
  apply (process_empty_wrapper_raises chain_xy partner_xe (wrapper_of "e" "E"));
    [left; reflexivity | reflexivity | exact Hd].
Defined.

(** ** C9: share and payout base *)

(** The end-to-end scenario of the specification: shares 0.5 and 0.8, payout
    bases 3.25 and 10.4, tier 0 and payout 0 on both rows. *)
Example two_events_ledger :
  (res <- Partner.process chain_two_events partner_one ;;
   Ok (map (fun l => (Row.block (Ledger.row l), Row.share (Ledger.row l),
                      Row.payout_base (Ledger.row l), Ledger.tier l, Ledger.payout l))
           (fst res)))
  = Ok [ (100, 0.5%float, 3.25%float, 0%float, 0%float);
         (200, 0.8%float, 10.4%float, 0%float, 0%float) ].
Proof. vm_compute. reflexivity. Qed.

Lemma row_of_fields c w event :
  let r := row_of c w event in
  Row.share r = (Row.balance r / Row.total_supply r)%float /\
  Row.payout_base r = (Row.share r * Row.protocol_fee r * 0.65)%float /\
  Row.balance_usd r = (Row.balance r * Row.vault_price r)%float /\
  Row.wrapper r = Wrapper.wrapper w /\
  Row.vault r = Wrapper.vault w /\
  Row.block r = fst event.
Proof. cbn. repeat split. Qed.

(** C9. Every row of a wrapper's frame has [share = balance / total_supply]
    and [payout_base = share * protocol_fee * 0.65]; when the wrapper holds
    the whole supply of the vault ([balance == total_supply], positive and
    finite) the share is [1.0] and the payout base is [protocol_fee * 0.65]. *)
Theorem share_and_payout_base (c : Chain) (w : Wrapper.t) (rows : list Row.t) (r : Row.t) :
  Partner.wrap c w = Ok rows ->
  In r rows ->
  Row.share r = (Row.balance r / Row.total_supply r)%float /\
  Row.payout_base r = (Row.share r * Row.protocol_fee r * 0.65)%float /\
  ((Row.balance r =? Row.total_supply r)%float = true ->
   (0 <? Row.total_supply r)%float = true ->
   (Row.total_supply r <? infinity)%float = true ->
   Row.share r = 1%float /\
   Row.payout_base r = (Row.protocol_fee r * 0.65)%float).
Proof.
  intros Hw Hin. destruct (wrap_rows _ _ _ _ Hw Hin) as (event & _ & ->).
  destruct (row_of_fields c w event) as (Hs & Hp & _).
  split; [exact Hs | split; [exact Hp|]].
  intros Heq H0 Hfin.
  assert (E1 : Row.share (row_of c w event) = 1%float).
  { rewrite Hs, (eqb_pos_finite _ _ Heq H0 Hfin). apply div_self; assumption. }
  split; [exact E1|]. rewrite Hp, E1, mul_one_l. reflexivity.
Qed.

Lemma share_and_payout_base_witness :
  let r := row_of chain_whole (wrapper_of "w" "V") (100, 10%float) in
  Partner.wrap chain_whole (wrapper_of "w" "V") = Ok [r] /\
  In r [r] /\
  (Row.balance r =? Row.total_supply r)%float = true /\
  (0 <? Row.total_supply r)%float = true /\
  (Row.total_supply r <? infinity)%float = true /\
  Row.share r = 1%float /\
  Row.payout_base r = (10 * 0.65)%float.
Proof.
  cbv zeta.
  split; [reflexivity|]. split; [left; reflexivity|].
  split; [reflexivity|]. split; [reflexivity|]. split; [reflexivity|].
  refine (proj2 (proj2 (share_and_payout_base chain_whole (wrapper_of "w" "V") _ _
                          eq_refl (or_introl eq_refl))) eq_refl eq_refl eq_refl).
Defined.

(** ** Sorting *)

Section SortFacts.
Context {K : Type} (ltb : K -> K -> bool).

Lemma insert_sorted_perm x xs : Permutation (insert_sorted ltb x xs) (x :: xs).
Proof.
  induction xs as [|y ys IH]; cbn; [reflexivity|].
  destruct (ltb x y); [reflexivity|].
  rewrite IH. apply perm_swap.
Qed.

Lemma sort_by_perm xs : Permutation (sort_by ltb xs) xs.
Proof.
  induction xs as [|x xs IH]; cbn; [reflexivity|].
  rewrite insert_sorted_perm. now constructor.
Qed.

Lemma sort_by_In x xs : In x (sort_by ltb xs) <-> In x xs.
Proof.
  split; apply Permutation_in; [|symmetry]; apply sort_by_perm.
Qed.

Lemma sort_by_NoDup xs : NoDup xs -> NoDup (sort_by ltb xs).
Proof. apply Permutation_NoDup. symmetry. apply sort_by_perm. Qed.
End SortFacts.

(** Sorting distinct elements by a strict total order gives the one
    ascending list of them. *)
Section StrictSort.
Context {K : Type} (ltb : K -> K -> bool).
Hypothesis ltb_trans : forall x y z, ltb x y = true -> ltb y z = true -> ltb x z = true.
Hypothesis ltb_irrefl : forall x, ltb x x = false.
Hypothesis ltb_total : forall x y, ltb x y = false -> x = y \/ ltb y x = true.

Lemma insert_sorted_strict x xs :
  StronglySorted (fun a b => ltb a b = true) xs -> ~ In x xs ->
  StronglySorted (fun a b => ltb a b = true) (insert_sorted ltb x xs).
Proof.
  induction 1 as [|y ys Hs IH Hall]; intros Hx; cbn.
  - repeat constructor.
  - rewrite Forall_forall in Hall. destruct (ltb x y) eqn:E.
    + constructor; [constructor; [assumption | now apply Forall_forall]|].
      constructor; [exact E|]. apply Forall_forall. intros z Hz.
      exact (ltb_trans _ _ _ E (Hall z Hz)).
    + constructor; [apply IH; intros Hin; apply Hx; now right|].
      apply Forall_forall. intros z Hz.
      apply (Permutation_in _ (insert_sorted_perm ltb x ys)) in Hz.
      destruct Hz as [<-|Hz]; [|now apply Hall].
      destruct (ltb_total _ _ E) as [->|Hlt]; [|exact Hlt].
      exfalso. apply Hx. now left.
Qed.

Lemma sort_by_strict xs :
  NoDup xs -> StronglySorted (fun a b => ltb a b = true) (sort_by ltb xs).
Proof.
  induction 1 as [|x xs Hx _ IH]; [constructor|].
  change (sort_by ltb (x :: xs)) with (insert_sorted ltb x (sort_by ltb xs)).
  apply insert_sorted_strict; [exact IH|]. now rewrite sort_by_In.
Qed.

Lemma strict_sorted_unique xs ys :
  StronglySorted (fun a b => ltb a b = true) xs ->
  StronglySorted (fun a b => ltb a b = true) ys ->
  (forall z, In z xs <-> In z ys) -> xs = ys.
Proof.
  intros Hxs. revert ys. induction Hxs as [|x xs Hs IH Hall]; intros ys Hys Heq.
  - destruct ys as [|y ys]; [reflexivity|]. destruct (proj2 (Heq y) (or_introl eq_refl)).
  - destruct Hys as [|y ys Hs' Hall'].
    + destruct (proj1 (Heq x) (or_introl eq_refl)).
    + rewrite Forall_forall in Hall, Hall'.
      assert (Exy : x = y).
      { destruct (proj1 (Heq x) (or_introl eq_refl)) as [E|Hx]; [now symmetry|].
        destruct (proj2 (Heq y) (or_introl eq_refl)) as [E|Hy]; [assumption|].
        pose proof (ltb_trans _ _ _ (Hall _ Hy) (Hall' _ Hx)) as F.
        rewrite ltb_irrefl in F. discriminate F. }
      subst y. f_equal. apply IH; [assumption|].
      intros z. split; intros Hz.
      * destruct (proj1 (Heq z) (or_intror Hz)) as [<-|Hz']; [|assumption].
        pose proof (Hall _ Hz) as F. rewrite ltb_irrefl in F. discriminate F.
      * destruct (proj2 (Heq z) (or_intror Hz)) as [<-|Hz']; [|assumption].
        pose proof (Hall' _ Hz) as F. rewrite ltb_irrefl in F. discriminate F.
Qed.

Lemma sort_by_canonical xs ys :
  NoDup xs -> NoDup ys -> (forall z, In z xs <-> In z ys) ->
  sort_by ltb xs = sort_by ltb ys.
Proof.
  intros Hx Hy Heq. apply strict_sorted_unique; try now apply sort_by_strict.
  intros z. now rewrite !sort_by_In.
Qed.
End StrictSort.

(** A sort by a key that keeps elements of one key in their order leaves
    unchanged every sublist of elements that share a key. *)
Section StableSort.
Context {K : Type} (key : K -> Z) (p : K -> bool).
Hypothesis one_key : forall y z, p y = true -> p z = true -> key y = key z.

Lemma insert_sorted_filter x xs :
  filter p (insert_sorted (fun a b => key a <=? key b) x xs) = filter p (x :: xs).
Proof.
  induction xs as [|y ys IH]; [reflexivity|]. cbn [insert_sorted].
  destruct (key x <=? key y) eqn:E; [reflexivity|].
  cbn [filter] in *. rewrite IH.
  destruct (p x) eqn:Px, (p y) eqn:Py; try reflexivity.
  apply Z.leb_gt in E. rewrite (one_key _ _ Px Py) in E. lia.
Qed.

Lemma sort_by_filter xs :
  filter p (sort_by (fun a b => key a <=? key b) xs) = filter p xs.
Proof.
  induction xs as [|x xs IH]; [reflexivity|].
  change (sort_by (fun a b => key a <=? key b) (x :: xs))
    with (insert_sorted (fun a b => key a <=? key b) x
                        (sort_by (fun a b => key a <=? key b) xs)).
  rewrite insert_sorted_filter. cbn [filter]. now rewrite IH.
Qed.
End StableSort.

(** The order of strings. *)
Lemma string_compare_trans s1 s2 s3 :
  String.compare s1 s2 = Lt -> String.compare s2 s3 = Lt -> String.compare s1 s3 = Lt.
Proof.
  revert s2 s3. induction s1 as [|a s1 IH]; intros [|b s2] [|c s3]; cbn; try congruence.
  unfold Ascii.compare.
  destruct (N.compare_spec (Ascii.N_of_ascii a) (Ascii.N_of_ascii b)) as [Eab|Lab|Gab];
    destruct (N.compare_spec (Ascii.N_of_ascii b) (Ascii.N_of_ascii c)) as [Ebc|Lbc|Gbc];
    try discriminate; intros H1 H2.
  - rewrite Eab, Ebc, N.compare_refl. eauto.
  - rewrite Eab. now apply N.compare_lt_iff in Lbc as ->.
  - rewrite <- Ebc. now apply N.compare_lt_iff in Lab as ->.
  - assert (L : (Ascii.N_of_ascii a < Ascii.N_of_ascii c)%N) by lia.
    now apply N.compare_lt_iff in L as ->.
Qed.

Lemma string_ltb_trans s1 s2 s3 :
  String.ltb s1 s2 = true -> String.ltb s2 s3 = true -> String.ltb s1 s3 = true.
Proof.
  unfold String.ltb.
  destruct (String.compare s1 s2) eqn:E1; try discriminate.
  destruct (String.compare s2 s3) eqn:E2; try discriminate.
  now rewrite (string_compare_trans _ _ _ E1 E2).
Qed.

Lemma string_ltb_irrefl s : String.ltb s s = false.
Proof.
  unfold String.ltb. pose proof (String.compare_antisym s s) as A.
  destruct (String.compare s s); try reflexivity. discriminate A.
Qed.

Lemma string_ltb_total s1 s2 :
  String.ltb s1 s2 = false -> s1 = s2 \/ String.ltb s2 s1 = true.
Proof.
  unfold String.ltb. rewrite (String.compare_antisym s2 s1).
  destruct (String.compare s1 s2) eqn:E; cbn; try discriminate; intros _.
  - left. now apply String.compare_eq_iff.
  - right. reflexivity.
Qed.

Lemma Z_ltb_trans x y z : (x <? y) = true -> (y <? z) = true -> (x <? z) = true.
Proof. rewrite !Z.ltb_lt. lia. Qed.

Lemma Z_ltb_total x y : (x <? y) = false -> x = y \/ (y <? x) = true.
Proof. rewrite Z.ltb_ge, Z.ltb_lt. lia. Qed.

Lemma insert_sorted_le x xs :
  StronglySorted Z.le xs -> StronglySorted Z.le (insert_sorted Z.ltb x xs).
Proof.
  induction 1 as [|y ys Hs IH Hall]; cbn.
  - repeat constructor.
  - destruct (Z.ltb_spec x y).
    + constructor; [constructor; assumption|].
      constructor; [lia|]. eapply Forall_impl; [|exact Hall]. cbn. intros; lia.
    + constructor; [exact IH|].
      rewrite Forall_forall in *. intros z Hz.
      apply (Permutation_in _ (insert_sorted_perm Z.ltb x ys)) in Hz.
      destruct Hz as [<-|Hz]; [lia | auto].
Qed.

Lemma sorted_le xs : StronglySorted Z.le (sorted xs).
Proof.
  unfold sorted. induction xs as [|x xs IH]; cbn; [constructor|].
  now apply insert_sorted_le.
Qed.

Lemma sorted_le_NoDup_lt xs :
  StronglySorted Z.le xs -> NoDup xs -> StronglySorted Z.lt xs.
Proof.
  induction 1 as [|x xs Hs IH Hall]; intros Hnd; [constructor|].
  inversion Hnd as [|? ? Hnotin Hnd']; subst.
  constructor; [auto|].
  rewrite Forall_forall in *. intros y Hy.
  specialize (Hall y Hy). assert (x <> y) by (intros ->; contradiction). lia.
Qed.

Lemma sorted_nodup_lt xs : StronglySorted Z.lt (sorted (nodup Z.eq_dec xs)).
Proof.
  apply sorted_le_NoDup_lt; [apply sorted_le|].
  apply sort_by_NoDup, NoDup_nodup.
Qed.

(** ** The pivot table *)

Section PivotFacts.
Context {N : Type} `{Scalar N}.

Lemma pivot_index_sorted (data : Long N) : StronglySorted Z.lt (pivot_index data).
Proof. apply sorted_nodup_lt. Qed.

Lemma pivot_index_NoDup (data : Long N) : NoDup (pivot_index data).
Proof. apply sort_by_NoDup, NoDup_nodup. Qed.

Lemma pivot_columns_NoDup (data : Long N) : NoDup (pivot_columns data).
Proof. apply sort_by_NoDup, NoDup_nodup. Qed.

Lemma pivot_index_In (data : Long N) i :
  In i (pivot_index data) <->
  exists r, In r data /\ kept data r = true /\ fst (fst r) = i.
Proof.
  unfold pivot_index. rewrite sort_by_In, nodup_In, in_map_iff.
  split; intros (r & A & B).
  - apply filter_In in B. exists r. tauto.
  - exists r. rewrite filter_In. tauto.
Qed.

Lemma pivot_columns_In (data : Long N) c :
  In c (pivot_columns data) <->
  exists r, In r data /\ kept data r = true /\ snd (fst r) = c.
Proof.
  unfold pivot_columns. rewrite sort_by_In, nodup_In, in_map_iff.
  split; intros (r & A & B).
  - apply filter_In in B. exists r. tauto.
  - exists r. rewrite filter_In. tauto.
Qed.

Lemma in_group_self (r : Z * string * N) : in_group (fst (fst r)) (snd (fst r)) r = true.
Proof. unfold in_group. now rewrite Z.eqb_refl, String.eqb_refl. Qed.

Lemma in_group_iff i c (r : Z * string * N) :
  in_group i c r = true <-> fst (fst r) = i /\ snd (fst r) = c.
Proof.
  unfold in_group. now rewrite andb_true_iff, Z.eqb_eq, String.eqb_eq.
Qed.

Lemma group_nonempty (data : Long N) r :
  In r data -> group data (fst (fst r)) (snd (fst r)) <> [].
Proof.
  intros Hin E. unfold group in E. apply map_eq_nil in E.
  assert (Hf : In r (filter (in_group (fst (fst r)) (snd (fst r))) data))
    by (apply filter_In; split; [assumption | apply in_group_self]).
  rewrite E in Hf. destruct Hf.
Qed.

Lemma cell_of_row (data : Long N) r :
  In r data ->
  cell data (fst (fst r)) (snd (fst r))
  = group_sum (group data (fst (fst r)) (snd (fst r))).
Proof.
  intros Hin. unfold cell.
  destruct (group data (fst (fst r)) (snd (fst r))) eqn:E; [|reflexivity].
  now apply group_nonempty in E.
Qed.

(** The pivot table depends on the rows only through the groups: their
    members, in their order. *)
Lemma pivot_table_same_groups (data data' : Long N) :
  (forall i c, group data' i c = group data i c) ->
  (forall r, In r data' <-> In r data) ->
  pivot_table data' = pivot_table data.
Proof.
  intros Hg Hin.
  assert (Hc : forall i c, cell data' i c = cell data i c)
    by (intros; unfold cell; now rewrite Hg).
  assert (Hk : forall r, kept data' r = kept data r)
    by (intros; unfold kept; now rewrite Hc).
  assert (Hf : forall r, In r (filter (kept data') data') <-> In r (filter (kept data) data))
    by (intros r; rewrite !filter_In, Hin, Hk; reflexivity).
  assert (Ei : pivot_index data' = pivot_index data).
  { unfold pivot_index.
    apply (sort_by_canonical Z.ltb Z_ltb_trans Z.ltb_irrefl Z_ltb_total);
      try apply NoDup_nodup.
    intros z. rewrite !nodup_In, !in_map_iff.
    split; intros (r & <- & Hr); exists r; (split; [reflexivity | now apply Hf]). }
  assert (Ec : pivot_columns data' = pivot_columns data).
  { unfold pivot_columns.
    apply (sort_by_canonical String.ltb string_ltb_trans string_ltb_irrefl string_ltb_total);
      try apply NoDup_nodup.
    intros z. rewrite !nodup_In, !in_map_iff.
    split; intros (r & <- & Hr); exists r; (split; [reflexivity | now apply Hf]). }
  unfold pivot_table. rewrite Ei, Ec. f_equal.
  apply map_ext. intros i. f_equal. apply map_ext. intros c. apply Hc.
Qed.
End PivotFacts.

(** ** Forward fill *)

Section FfillFacts.
Context {N : Type} `{Scalar N}.

Lemma zip_with_map {X A B C : Type} (f : A -> B -> C) (g : X -> A) (h : X -> B) xs :
  zip_with f (map g xs) (map h xs) = map (fun x => f (g x) (h x)) xs.
Proof. induction xs as [|x xs IH]; cbn; [reflexivity | now rewrite IH]. Qed.

(** The scan over a table whose rows are given cell by cell. *)
Lemma ffill_rows_scan (f : Z -> string -> N) (cols : list string) idx (p : string -> N) :
  StronglySorted Z.lt idx ->
  ffill_rows (map p cols) (map (fun i => (i, map (f i) cols)) idx)
  = map (fun i => (i, map (fun c => fold_left fill
                                      (map (fun j => f j c) (filter (fun j => j <=? i) idx))
                                      (p c)) cols)) idx.
Proof.
  intros Hs. revert p. induction Hs as [|i idx Hs IH Hall]; intros p; [reflexivity|].
  cbn [map ffill_rows]. rewrite zip_with_map, IH. cbn [filter].
  rewrite Z.leb_refl. rewrite Forall_forall in Hall.
  assert (E : filter (fun j => j <=? i) idx = []).
  { clear - Hall. induction idx as [|j idx IH]; [reflexivity|]. cbn.
    destruct (Z.leb_spec j i) as [L|L].
    - specialize (Hall j (or_introl eq_refl)). lia.
    - apply IH. intros; apply Hall; now right. }
  rewrite E. cbn [map fold_left]. f_equal.
  apply map_ext_in. intros j Hj. f_equal.
  destruct (Z.leb_spec i j) as [L|L]; [|specialize (Hall j Hj); lia].
  reflexivity.
Qed.

(** On an ascending list, keeping the last value that is not missing is
    taking the value at the greatest position that has one. *)
Lemma fold_fill_last (g : Z -> N) xs (p : N) :
  StronglySorted Z.lt xs ->
  fold_left fill (map g xs) p =
  match max_opt (filter (fun x => negb (isna (g x))) xs) with
  | Some x => g x
  | None => p
  end.
Proof.
  intros Hs. revert p. induction Hs as [|x xs Hs IH Hall]; intros p; [reflexivity|].
  cbn [map fold_left filter]. rewrite IH. unfold fill at 1.
  destruct (isna (g x)) eqn:E; cbn [negb]; [reflexivity|].
  cbn [max_opt fold_right].
  change (fold_right _ None ?l) with (max_opt l).
  destruct (max_opt (filter (fun x0 => negb (isna (g x0))) xs)) as [y|] eqn:Ey; [|reflexivity].
  assert (Hy : In y xs).
  { clear - Ey. revert y Ey.
    induction xs as [|z xs IH]; intros y Ey; [discriminate|].
    cbn in Ey. destruct (negb (isna (g z))); [|right; eauto].
    cbn in Ey. change (fold_right _ None ?l) with (max_opt l) in Ey.
    destruct (max_opt (filter _ xs)) as [w|] eqn:Ew; injection Ey as <-.
    - destruct (Z.max_spec z w) as [[_ ->]|[_ ->]]; [right; eauto | now left].
    - now left. }
  rewrite Forall_forall in Hall. specialize (Hall y Hy).
  now rewrite Z.max_r by lia.
Qed.

Lemma filter_filter {A : Type} (f g : A -> bool) xs :
  filter f (filter g xs) = filter (fun x => g x && f x) xs.
Proof.
  induction xs as [|x xs IH]; [reflexivity|]. cbn.
  destruct (g x); cbn; [destruct (f x)|]; now rewrite IH.
Qed.

Lemma StronglySorted_filter {A : Type} (R : A -> A -> Prop) (f : A -> bool) xs :
  StronglySorted R xs -> StronglySorted R (filter f xs).
Proof.
  induction 1 as [|x xs Hs IH Hall]; cbn; [constructor|].
  destruct (f x); [|assumption]. constructor; [assumption|].
  rewrite Forall_forall in *. intros y Hy. apply filter_In in Hy. now apply Hall.
Qed.

Lemma ffill_pivot_rows (data : Long N) :
  rows (ffill (pivot_table data))
  = map (fun b => (b, map (fun v => carried data v b) (pivot_columns data)))
        (pivot_index data).
Proof.
  unfold ffill, pivot_table. cbn [rows columns].
  rewrite (ffill_rows_scan (cell data) _ _ (fun _ => s_nan) (pivot_index_sorted data)).
  apply map_ext. intros b. f_equal. apply map_ext. intros v.
  rewrite (fold_fill_last (fun j => cell data j v)).
  - unfold carried, last_observed. now rewrite filter_filter.
  - apply StronglySorted_filter, pivot_index_sorted.
Qed.
End FfillFacts.

(** ** C1: the cumulative balance series *)

Section CarriedFacts.
Context {N : Type} `{Scalar N}.

Lemma max_opt_spec (xs : list Z) m :
  max_opt xs = Some m -> In m xs /\ forall x, In x xs -> x <= m.
Proof.
  revert m. induction xs as [|x xs IH]; [discriminate|].
  intros m.
  change (max_opt (x :: xs))
    with (Some (match max_opt xs with None => x | Some y => Z.max x y end)).
  destruct (max_opt xs) as [y|] eqn:E.
  - intros [= <-]. destruct (IH y eq_refl) as (Hy & Hmax).
    split.
    + destruct (Z.max_spec x y) as [(_ & ->)|(_ & ->)]; [now right | now left].
    + intros z [<-|Hz]; [lia | specialize (Hmax z Hz); lia].
  - intros [= <-]. destruct xs as [|x' xs']; [|discriminate E].
    split; [now left | intros z [<-|[]]; lia].
Qed.

(** The block a vault's balance is carried from: the latest block of the
    series, at or before [b], at which the vault has a value. *)
Lemma last_observed_spec (data : Long N) v b b' :
  last_observed data v b = Some b' ->
  b' <= b /\ In b' (pivot_index data) /\
  isna (cell data b' v) = false /\
  carried data v b = cell data b' v /\
  (forall b'', In b'' (pivot_index data) -> b' < b'' <= b ->
               isna (cell data b'' v) = true).
Proof.
  intros Hl. unfold carried. rewrite Hl. unfold last_observed in Hl.
  apply max_opt_spec in Hl. destruct Hl as (Hin & Hmax).
  apply filter_In in Hin. destruct Hin as (Hin & Hc).
  apply andb_true_iff in Hc. destruct Hc as (Hle & Hn).
  apply Z.leb_le in Hle. apply negb_true_iff in Hn.
  repeat split; try assumption; try lia.
  intros b'' Hin'' Hb''. destruct (isna (cell data b'' v)) eqn:E; [reflexivity|].
  assert (F : In b'' (filter (fun b0 => (b0 <=? b) && negb (isna (cell data b0 v)))
                             (pivot_index data))).
  { apply filter_In. split; [assumption|]. rewrite E.
    apply andb_true_iff. split; [apply Z.leb_le; lia | reflexivity]. }
  specialize (Hmax _ F). lia.
Qed.
End CarriedFacts.

Lemma total_balances_spec (partner : list Row.t) :
  Partner.total_balances partner
  = map (fun b => (b, nansum (map (fun v => carried (Partner.balance_columns partner) v b)
                                  (pivot_columns (Partner.balance_columns partner)))))
        (pivot_index (Partner.balance_columns partner)).
Proof.
  unfold Partner.total_balances, sum_axis1. rewrite ffill_pivot_rows, map_map.
  reflexivity.
Qed.

Lemma group_balance_columns (partner : list Row.t) b v :
  group (Partner.balance_columns partner) b v
  = map Row.balance_usd
        (filter (fun r => (Row.block r =? b) && (Row.vault r =? v)%string) partner).
Proof.
  unfold group, Partner.balance_columns.
  induction partner as [|r partner IH]; [reflexivity|]. cbn.
  unfold in_group at 1. cbn [fst snd].
  destruct ((Row.block r =? b) && (Row.vault r =? v)%string); cbn; now rewrite IH.
Qed.

(** C1, as the code has it.  The cumulative balance series is the pivot of
    [balance_usd] by (block, vault), forward-filled and summed over the
    vaults: the entry of block [b] is the sum over the partner's vaults of
    the vault's balance carried to [b], that is of the summed [balance_usd]
    of the vault at the latest block at or before [b] where it has one
    (nothing for a vault not yet observed; no later block is used).  The
    series is in increasing block order and has an entry exactly at the
    blocks at which some vault of the partner has a fee event with a balance
    that is a number, and at no block in between.  With vault X observed at
    blocks 1 (100) and 5 (200) and vault Y first observed at block 5 (50),
    the series is 100 at block 1 and 250 at block 5 and has no entry at
    block 3; when a third, empty vault is observed at block 3, block 3
    carries X's 100 forward. *)
Theorem total_balances_forward_fill (partner : list Row.t) :
  Partner.total_balances partner
  = map (fun b => (b, nansum (map (fun v => carried (Partner.balance_columns partner) v b)
                                  (pivot_columns (Partner.balance_columns partner)))))
        (pivot_index (Partner.balance_columns partner)) /\
  StronglySorted Z.lt (map fst (Partner.total_balances partner)) /\
  (forall b, In b (map fst (Partner.total_balances partner)) <->
             exists r, In r partner /\ Row.block r = b /\
                       is_nan (cell (Partner.balance_columns partner)
                                    (Row.block r) (Row.vault r)) = false) /\
  (forall r, In r partner ->
             cell (Partner.balance_columns partner) (Row.block r) (Row.vault r)
             = group_sum (map Row.balance_usd
                              (filter (fun r' => (Row.block r' =? Row.block r) &&
                                                 (Row.vault r' =? Row.vault r)%string)
                                      partner))) /\
  (forall v b b',
      last_observed (Partner.balance_columns partner) v b = Some b' ->
      b' <= b /\ In b' (map fst (Partner.total_balances partner)) /\
      is_nan (cell (Partner.balance_columns partner) b' v) = false /\
      carried (Partner.balance_columns partner) v b
      = cell (Partner.balance_columns partner) b' v /\
      (forall b'', In b'' (map fst (Partner.total_balances partner)) ->
                   b' < b'' <= b ->
                   is_nan (cell (Partner.balance_columns partner) b'' v) = true)) /\
  (rows <- Partner.snapshot chain_xy partner_xy ;; Ok (Partner.total_balances rows))
  = Ok [(1, 100%float); (5, 250%float)] /\
  (rows <- Partner.snapshot chain_xy partner_xyz ;; Ok (Partner.total_balances rows))
  = Ok [(1, 100%float); (3, 100%float); (5, 250%float)].
Proof.
  split; [apply total_balances_spec|].
  split; [rewrite total_balances_spec, map_map, map_id; apply pivot_index_sorted|].
  split; [|split; [|split; [|split; vm_compute; reflexivity]]].
  - rewrite total_balances_spec, map_map, map_id. intros b.
    rewrite pivot_index_In. unfold kept. split.
    + intros (x & Hx & Hk & <-).
      unfold Partner.balance_columns in Hx. apply in_map_iff in Hx.
      destruct Hx as (r & <- & Hr). cbn [fst snd] in *. exists r.
      split; [assumption|]. split; [reflexivity|].
      apply negb_true_iff in Hk. exact Hk.
    + intros (r & Hr & <- & Hn).
      exists (Row.block r, Row.vault r, Row.balance_usd r). cbn [fst snd].
      split; [unfold Partner.balance_columns; apply in_map_iff; eauto|].
      split; [|reflexivity]. apply negb_true_iff. exact Hn.
  - intros r Hr.
    assert (Hin : In (Row.block r, Row.vault r, Row.balance_usd r)
                     (Partner.balance_columns partner))
      by (unfold Partner.balance_columns; apply in_map_iff; eauto).
    rewrite (cell_of_row _ _ Hin). cbn [fst snd]. now rewrite group_balance_columns.
  - intros v b b' Hl. rewrite total_balances_spec, map_map, map_id.
    exact (last_observed_spec _ v b b' Hl).
Qed.

(** With exactly the observations of the claim, the series has no entry at
    block 3: its value there is not 100. *)
Lemma total_balances_no_entry_at_block_3 :
  (rows <- Partner.snapshot chain_xy partner_xy ;; Ok (loc (Partner.total_balances rows) 3))
  = Ok None /\
  (rows <- Partner.snapshot chain_xy partner_xy ;; Ok (loc (Partner.total_balances rows) 3))
  <> Ok (Some 100%float).
Proof. split; [reflexivity | discriminate]. Qed.

(** ** The ledger *)

Lemma tiers_of_loc totals tiers b :
  Partner.tiers_of totals = Ok tiers ->
  match loc totals b with
  | Some total => exists t, get_tier total = Ok t /\ loc tiers b = Some t
  | None => loc tiers b = None
  end.
Proof.
  unfold Partner.tiers_of. revert tiers.
  induction totals as [|[j v] totals IH]; cbn; intros tiers E.
  - injection E as <-. reflexivity.
  - destruct (get_tier v) as [t|] eqn:Et; cbn in E; [|discriminate].
    destruct (mapM _ totals) as [ts|] eqn:Ets; cbn in E; [|discriminate].
    injection E as <-. cbn. destruct (b =? j); [eauto | apply IH; reflexivity].
Qed.

Lemma tiers_of_total totals : exists tiers, Partner.tiers_of totals = Ok tiers.
Proof.
  apply mapM_total. intros [b v] _. cbn.
  destruct (get_tier_total v) as (t & ->). cbn. eauto.
Qed.

Lemma snapshot_inv c self rows :
  Partner.snapshot c self = Ok rows ->
  exists frames,
    mapM (Partner.wrap c) (Partner.wrappers self) = Ok frames /\
    frames <> [] /\ rows = List.concat frames.
Proof.
  unfold Partner.snapshot.
  destruct (mapM _ _) as [frames|]; cbn; [|discriminate].
  destruct frames as [|f frames]; cbn; [discriminate|].
  intros [= <-]. exists (f :: frames). repeat split. discriminate.
Qed.

(** The join reorders the rows at most, and never within a block. *)
Lemma join_index_perm rows tiers : Permutation (Partner.join_index rows tiers) rows.
Proof.
  unfold Partner.join_index. destruct tiers; [reflexivity|].
  destruct (negb _ && negb _); [apply sort_by_perm | reflexivity].
Qed.

Lemma join_index_In rows tiers r : In r (Partner.join_index rows tiers) <-> In r rows.
Proof.
  split; apply Permutation_in; [|symmetry]; apply join_index_perm.
Qed.

Lemma join_index_filter (p : Row.t -> bool) rows tiers :
  (forall y z, p y = true -> p z = true -> Row.block y = Row.block z) ->
  filter p (Partner.join_index rows tiers) = filter p rows.
Proof.
  intros Hp. unfold Partner.join_index. destruct tiers; [reflexivity|].
  destruct (negb _ && negb _); [|reflexivity].
  exact (sort_by_filter Row.block p Hp rows).
Qed.

Lemma total_balances_join_index rows tiers :
  Partner.total_balances (Partner.join_index rows tiers) = Partner.total_balances rows.
Proof.
  unfold Partner.total_balances. do 2 f_equal.
  apply pivot_table_same_groups.
  - intros b v. rewrite !group_balance_columns. f_equal.
    apply join_index_filter. intros y z Hy Hz.
    apply andb_true_iff in Hy, Hz. destruct Hy as (Hy & _), Hz as (Hz & _).
    apply Z.eqb_eq in Hy, Hz. congruence.
  - intros r. unfold Partner.balance_columns. rewrite !in_map_iff.
    split; intros (x & <- & Hx); exists x; (split; [reflexivity|]);
      now apply (join_index_In rows tiers).
Qed.

Lemma process_inv c self partner payouts :
  Partner.process c self = Ok (partner, payouts) ->
  exists rows tiers,
    Partner.snapshot c self = Ok rows /\
    Partner.tiers_of (Partner.total_balances rows) = Ok tiers /\
    partner = map (Partner.join_tier tiers) (Partner.join_index rows tiers) /\
    payouts = Partner.export_payouts self (Partner.payout_columns partner).
Proof.
  unfold Partner.process.
  destruct (Partner.snapshot c self) as [rows|]; cbn [bind]; [|discriminate].
  destruct (Partner.tiers_of (Partner.total_balances rows)) as [tiers|] eqn:Et;
    cbn [bind]; [|discriminate].
  intros [= <- <-]. exists rows, tiers. repeat split; first [exact Et | reflexivity].
Qed.

Lemma ledger_rows tiers rows : map Ledger.row (map (Partner.join_tier tiers) rows) = rows.
Proof. rewrite map_map. cbn. apply map_id. Qed.

(** The balance series computed from the rows of the ledger is the one
    [process] computed before the join. *)
Lemma ledger_total_balances tiers rows :
  Partner.total_balances
    (map Ledger.row (map (Partner.join_tier tiers) (Partner.join_index rows tiers)))
  = Partner.total_balances rows.
Proof. rewrite ledger_rows. apply total_balances_join_index. Qed.

Lemma ledger_In tiers rows l :
  In l (map (Partner.join_tier tiers) (Partner.join_index rows tiers)) <->
  exists r, In r rows /\ l = Partner.join_tier tiers r.
Proof.
  rewrite in_map_iff. split; intros (r & E & Hr); exists r.
  - split; [now apply (join_index_In rows tiers) | now symmetry].
  - split; [now symmetry | now apply join_index_In].
Qed.

(** [process] returns whenever there is a wrapper, every wrapper has a fee
    event and every fee block has a time [pd.to_datetime] accepts: no
    arithmetic step raises. *)
Lemma process_total c self :
  Partner.wrappers self <> [] ->
  (forall w, In w (Partner.wrappers self) -> fee_logs c (Wrapper.vault w) <> []) ->
  (forall w, In w (Partner.wrappers self) -> blocks_datable c w) ->
  exists partner payouts, Partner.process c self = Ok (partner, payouts).
Proof.
  intros Hne Hev Hd. unfold Partner.process, Partner.snapshot.
  destruct (mapM_total (Partner.wrap c) (Partner.wrappers self)) as (frames & E).
  { intros w Hw. eexists. apply wrap_total; [|now apply Hd].
    intros Ed. unfold get_protocol_fees in Ed. apply (proj1 (dict_of_nil_iff _)) in Ed.
    exact (Hev w Hw Ed). }
  rewrite E. cbn [bind].
  destruct frames as [|f frames].
  { apply mapM_Ok in E. inversion E as [Hnil|]; subst. congruence. }
  cbn [Partner.concat bind].
  destruct (tiers_of_total (Partner.total_balances (List.concat (f :: frames)))) as (tiers & ->).
  cbn [bind]. eauto.
Qed.

Lemma loc_map_In {N : Type} (f : Z -> N) idx b :
  loc (map (fun i => (i, f i)) idx) b = if in_dec Z.eq_dec b idx then Some (f b) else None.
Proof.
  induction idx as [|i idx IH]; [reflexivity|]. cbn [map loc].
  destruct (Z.eqb_spec b i) as [->|Hne].
  - destruct (in_dec Z.eq_dec i (i :: idx)) as [|n]; [reflexivity|].
    exfalso. apply n. now left.
  - rewrite IH. destruct (in_dec Z.eq_dec b idx) as [i1|n1],
      (in_dec Z.eq_dec b (i :: idx)) as [i2|n2]; try reflexivity.
    + exfalso. apply n2. now right.
    + destruct i2 as [->|]; [congruence | contradiction].
Qed.

(** C2. The ledger of a partner holds every row of every wrapper's frame
    once, unmerged, so two wrappers with a fee event at the same block keep
    a row each; every row has [payout = payout_base * tier]; the tier of a
    row at block [b] is [get_tier] of the combined balance at [b]: the sum,
    over all vaults of the partner, of the vault's balance carried forward
    to [b] (the summed [balance_usd] of the vault at the latest block at or
    before [b] at which it has one).  The tier is missing when the series
    has no entry at [b], which needs the balances of the row's vault at [b]
    to sum to NaN.  Hence all rows of a block carry one tier. *)
Theorem ledger_tier_per_block (c : Chain) (self : Partner.t)
        (partner : list Ledger.t) (payouts : list (Payout.t float)) :
  Partner.process c self = Ok (partner, payouts) ->
  (exists frames,
      Forall2 (fun w f => Partner.wrap c w = Ok f) (Partner.wrappers self) frames /\
      Permutation (map Ledger.row partner) (List.concat frames) /\
      Partner.balance_columns (List.concat frames)
      = map (fun r => (Row.block r, Row.vault r, Row.balance_usd r)) (List.concat frames) /\
      forall l, In l partner ->
        let data := Partner.balance_columns (List.concat frames) in
        let b := Row.block (Ledger.row l) in
        (In b (pivot_index data) ->
         get_tier (nansum (map (fun v => carried data v b) (pivot_columns data)))
         = Ok (Ledger.tier l)) /\
        (~ In b (pivot_index data) -> Ledger.tier l = nan)) /\
  (forall l, In l partner ->
     Ledger.payout l = (Row.payout_base (Ledger.row l) * Ledger.tier l)%float /\
     match loc (Partner.total_balances (map Ledger.row partner))
               (Row.block (Ledger.row l)) with
     | Some total => get_tier total = Ok (Ledger.tier l)
     | None => Ledger.tier l = nan
     end) /\
  (forall l1 l2, In l1 partner -> In l2 partner ->
     Row.block (Ledger.row l1) = Row.block (Ledger.row l2) ->
     Ledger.tier l1 = Ledger.tier l2) /\
  (forall l, In l partner ->
     is_nan (cell (Partner.balance_columns (map Ledger.row partner))
                  (Row.block (Ledger.row l)) (Row.vault (Ledger.row l))) = false ->
     loc (Partner.total_balances (map Ledger.row partner)) (Row.block (Ledger.row l))
     <> None).
Proof.
  intros Hp. destruct (process_inv _ _ _ _ Hp) as (rows & tiers & Hs & Ht & -> & _).
  assert (Htier : forall r,
             match loc (Partner.total_balances rows) (Row.block r) with
             | Some total => get_tier total = Ok (Ledger.tier (Partner.join_tier tiers r))
             | None => Ledger.tier (Partner.join_tier tiers r) = nan
             end).
  { intros r. cbn [Ledger.tier Partner.join_tier].
    pose proof (tiers_of_loc _ _ (Row.block r) Ht) as L.
    destruct (loc (Partner.total_balances rows) (Row.block r)) as [total|].
    - destruct L as (t & Hg & ->). exact Hg.
    - now rewrite L. }
  split; [|split; [|split]].
  - destruct (snapshot_inv _ _ _ Hs) as (frames & Hm & _ & ->).
    exists frames. split; [now apply mapM_Ok|].
    split; [rewrite ledger_rows; apply join_index_perm|].
    split; [reflexivity|].
    intros l Hl. apply ledger_In in Hl. destruct Hl as (r & _ & ->).
    cbv zeta. cbn [Ledger.row Partner.join_tier].
    specialize (Htier r). rewrite total_balances_spec, loc_map_In in Htier.
    destruct (in_dec Z.eq_dec (Row.block r) _) as [Hi|Hni].
    + split; [intros _; exact Htier | intros F; contradiction].
    + split; [intros F; contradiction | intros _; exact Htier].
  - intros l Hl. rewrite ledger_total_balances.
    apply ledger_In in Hl. destruct Hl as (r & _ & ->).
    split; [reflexivity | exact (Htier r)].
  - intros l1 l2 H1 H2 Hb.
    apply ledger_In in H1, H2. destruct H1 as (r1 & _ & ->), H2 as (r2 & _ & ->).
    cbn in *. now rewrite Hb.
  - intros l Hl. rewrite ledger_total_balances, ledger_rows.
    apply ledger_In in Hl. destruct Hl as (r & Hr & ->).
    cbn [Ledger.row Partner.join_tier].
    assert (Ec : forall b v,
               cell (Partner.balance_columns (Partner.join_index rows tiers)) b v
               = cell (Partner.balance_columns rows) b v).
    { intros b v. unfold cell. rewrite !group_balance_columns.
      rewrite join_index_filter; [reflexivity|].
      intros y z Hy Hz. apply andb_true_iff in Hy, Hz.
      destruct Hy as (Hy & _), Hz as (Hz & _). apply Z.eqb_eq in Hy, Hz. congruence. }
    rewrite Ec. intros Hnan.
    rewrite total_balances_spec, loc_map_In.
    destruct (in_dec Z.eq_dec _ _) as [|n]; [discriminate|].
    exfalso. apply n. apply pivot_index_In.
    exists (Row.block r, Row.vault r, Row.balance_usd r). repeat split.
    + unfold Partner.balance_columns. apply in_map_iff. eauto.
    + unfold kept. cbn [fst snd]. change (@isna float Scalar_float) with is_nan.
      now rewrite Hnan.
Qed.

Lemma ledger_tier_per_block_witness :
  exists partner payouts,
    Partner.process chain_carry partner_carry = Ok (partner, payouts) /\
    map (fun l => (Row.block (Ledger.row l), Row.wrapper (Ledger.row l), Ledger.tier l)) partner
    = [(10, "p"%string, 0.1%float); (20, "q1"%string, 0.15%float);
       (20, "q2"%string, 0.15%float); (30, "p"%string, 0.15%float)] /\
    loc (Partner.total_balances (map Ledger.row partner)) 20 = Some 6000000%float /\
    (forall l1 l2, In l1 partner -> In l2 partner ->
       Row.block (Ledger.row l1) = Row.block (Ledger.row l2) ->
       Ledger.tier l1 = Ledger.tier l2).
Proof.
  destruct (Partner.process chain_carry partner_carry) as [[partner payouts]|] eqn:E;
    [|vm_compute in E; discriminate E].
  exists partner, payouts. split; [reflexivity|].
  pose proof (ledger_tier_per_block chain_carry partner_carry partner payouts E)
    as (_ & _ & H & _).
  vm_compute in E. injection E as <- <-.
  split; [reflexivity | split; [vm_compute; reflexivity | exact H]].
Defined.

(** ** C5: a zero total supply *)

Section StackFacts.
Context {N : Type} `{Scalar N}.

Lemma stack_not_missing (w : Wide N) r : In r (stack w) -> isna (snd r) = false.
Proof.
  unfold stack. rewrite in_flat_map. intros (row & _ & Hr).
  apply in_map_iff in Hr. destruct Hr as (cv & <- & Hcv).
  apply filter_In in Hcv. destruct Hcv as (_ & Hn). cbn.
  now apply negb_true_iff in Hn.
Qed.

Lemma export_not_missing (self : Partner.t) (data : Long N) p :
  In p (Partner.export_payouts self data) -> isna (Payout.amount p) = false.
Proof.
  unfold Partner.export_payouts. rewrite in_map_iff. intros (r & <- & Hr).
  cbn. exact (stack_not_missing _ _ Hr).
Qed.

Lemma group_sum_all_missing (xs : list N) :
  Forall (fun x => isna x = true) xs -> group_sum xs = s_zero.
Proof.
  intros Hall. unfold group_sum.
  assert (G : forall acc, fold_left kahan_step xs acc = acc).
  { induction Hall as [|x xs Hx _ IH]; intros acc; [reflexivity|].
    cbn [fold_left]. unfold kahan_step at 2. rewrite Hx. apply IH. }
  now rewrite G.
Qed.

Lemma cell_all_missing (data : Long N) i c :
  group data i c <> [] ->
  Forall (fun x => isna x = true) (group data i c) ->
  cell data i c = s_zero.
Proof.
  intros Hne Hall. unfold cell.
  destruct (group data i c) eqn:E; [contradiction|].
  now apply group_sum_all_missing.
Qed.
End StackFacts.

(** C5, as the code has it.  When the partner has a wrapper, every wrapper
    has a fee event and the fee blocks have times [pd.to_datetime] accepts,
    [process] returns a ledger whatever the total supplies are: the division
    does not raise.  A row with a zero total supply and a zero balance has
    the share, the payout base and the payout NaN in the ledger.  The
    monthly export does not carry the NaN on: a (timestamp, vault) group of
    NaN payouts sums to zero, and no exported amount is NaN. *)
Theorem zero_supply_share (c : Chain) (self : Partner.t) :
  Partner.wrappers self <> [] ->
  (forall w, In w (Partner.wrappers self) -> fee_logs c (Wrapper.vault w) <> []) ->
  (forall w, In w (Partner.wrappers self) -> blocks_datable c w) ->
  exists partner payouts,
    Partner.process c self = Ok (partner, payouts) /\
    (forall l, In l partner ->
       (Row.total_supply (Ledger.row l) =? 0)%float = true ->
       (Row.balance (Ledger.row l) =? 0)%float = true ->
       Row.share (Ledger.row l) = nan /\
       Row.payout_base (Ledger.row l) = nan /\
       Ledger.payout l = nan) /\
    (forall ts v,
       group (Partner.payout_columns partner) ts v <> [] ->
       Forall (fun x => is_nan x = true) (group (Partner.payout_columns partner) ts v) ->
       cell (Partner.payout_columns partner) ts v = 0%float) /\
    (forall p, In p payouts -> is_nan (Payout.amount p) = false).
Proof.
  intros Hne Hev Hd.
  destruct (process_total c self Hne Hev Hd) as (partner & payouts & Hp).
  exists partner, payouts. split; [exact Hp|].
  destruct (process_inv _ _ _ _ Hp) as (rows & tiers & Hs & _ & Epartner & Epay).
  split; [|split].
  - intros l Hl Hsup Hbal. rewrite Epartner in Hl. apply ledger_In in Hl.
    destruct Hl as (r & Hr & ->). cbn [Ledger.row Ledger.payout Partner.join_tier] in *.
    destruct (snapshot_inv _ _ _ Hs) as (frames & Hm & _ & ->).
    apply in_concat in Hr. destruct Hr as (f & Hf & Hr).
    apply mapM_Ok in Hm.
    destruct (Forall2_In_r _ _ _ _ Hm Hf) as (w & _ & Hw).
    destruct (wrap_rows _ _ _ _ Hw Hr) as (event & _ & ->).
    destruct (row_of_fields c w event) as (Hsh & Hpb & _).
    assert (E : Row.share (row_of c w event) = nan)
      by (rewrite Hsh; now apply div_zero_zero).
    assert (E' : Row.payout_base (row_of c w event) = nan)
      by (rewrite Hpb, E, !mul_nan_l; reflexivity).
    rewrite E'. now rewrite mul_nan_l.
  - intros ts v Hg Hall. exact (cell_all_missing _ ts v Hg Hall).
  - intros p Hin. rewrite Epay in Hin. exact (export_not_missing _ _ _ Hin).
Qed.

Lemma zero_supply_share_witness :
  Partner.wrappers partner_z <> [] /\
  (forall w, In w (Partner.wrappers partner_z) -> fee_logs chain_xy (Wrapper.vault w) <> []) /\
  (forall w, In w (Partner.wrappers partner_z) -> blocks_datable chain_xy w) /\
  exists partner payouts,
    Partner.process chain_xy partner_z = Ok (partner, payouts) /\
    (forall p, In p payouts -> is_nan (Payout.amount p) = false).
Proof.
  assert (H1 : Partner.wrappers partner_z <> []) by discriminate.
  assert (H2 : forall w, In w (Partner.wrappers partner_z) ->
                         fee_logs chain_xy (Wrapper.vault w) <> []).
  { intros w [<-|[]]. discriminate. }
  assert (H3 : forall w, In w (Partner.wrappers partner_z) -> blocks_datable chain_xy w).
  { intros w [<-|[]] b Hb. vm_compute in Hb. destruct Hb as [<-|[]]. reflexivity. }
  split; [exact H1 | split; [exact H2 | split; [exact H3|]]].
  destruct (zero_supply_share chain_xy partner_z H1 H2 H3)
    as (partner & payouts & E & _ & _ & H4).
  exists partner, payouts. split; [exact E | exact H4].
Defined.

(** The NaN payout of a row with nothing in the vault does not reach the
    export: it is exported as the amount zero. *)
Lemma zero_supply_not_nan_downstream :
  exists partner payouts,
    Partner.process chain_xy partner_z = Ok (partner, payouts) /\
    map (fun l => (Row.total_supply (Ledger.row l), Row.balance (Ledger.row l),
                   Row.share (Ledger.row l), Ledger.payout l))
        partner = [(0%float, 0%float, nan, nan)] /\
    map Payout.amount payouts = [0%float].
Proof.
  destruct (Partner.process chain_xy partner_z) as [[partner payouts]|] eqn:E;
    vm_compute in E; [|discriminate E].
  injection E as <- <-.
  do 2 eexists. repeat split; reflexivity.
Qed.

(** ** The monthly export *)

Lemma filter_map_comm {A B : Type} (p : B -> bool) (f : A -> B) xs :
  filter p (map f xs) = map f (filter (fun x => p (f x)) xs).
Proof.
  induction xs as [|x xs IH]; [reflexivity|]. cbn.
  destruct (p (f x)); cbn; now rewrite IH.
Qed.

Lemma combine_map_r {A B : Type} (f : A -> B) xs :
  combine xs (map f xs) = map (fun x => (x, f x)) xs.
Proof. induction xs as [|x xs IH]; cbn; [reflexivity | now rewrite IH]. Qed.

Lemma fold_min_le os o : fold_left Z.min os o <= o /\ Forall (fun x => fold_left Z.min os o <= x) os.
Proof.
  revert o. induction os as [|x os IH]; intros o; cbn; [split; [lia | constructor]|].
  destruct (IH (Z.min o x)) as (A & B). split; [lia|].
  constructor; [lia | exact B].
Qed.

Lemma fold_max_ge os o : o <= fold_left Z.max os o /\ Forall (fun x => x <= fold_left Z.max os o) os.
Proof.
  revert o. induction os as [|x os IH]; intros o; cbn; [split; [lia | constructor]|].
  destruct (IH (Z.max o x)) as (A & B). split; [lia|].
  constructor; [lia | exact B].
Qed.

Lemma month_range_NoDup ords : NoDup (month_range ords).
Proof.
  destruct ords as [|o os]; [constructor|]. cbn.
  apply Stdlib.Lists.Finite.Injective_map_NoDup; [|apply seq_NoDup].
  intros a b. lia.
Qed.

Lemma month_range_covers ords o : In o ords -> In o (month_range ords).
Proof.
  destruct ords as [|o0 os]; [intros []|]. intros Hin. cbn.
  destruct (fold_min_le os o0) as (Hlo0 & Hlo), (fold_max_ge os o0) as (Hhi0 & Hhi).
  rewrite Forall_forall in Hlo, Hhi.
  assert (B : fold_left Z.min os o0 <= o <= fold_left Z.max os o0).
  { destruct Hin as [<-|Hin]; [lia|]. split; [apply Hlo | apply Hhi]; assumption. }
  apply in_map_iff. exists (Z.to_nat (o - fold_left Z.min os o0)).
  split; [lia|]. apply in_seq. lia.
Qed.

Lemma fold_min_In os o : In (fold_left Z.min os o) (o :: os).
Proof.
  revert o. induction os as [|x os IH]; intros o; cbn [fold_left]; [now left|].
  destruct (IH (Z.min o x)) as [E|Hin]; [|right; now right].
  rewrite <- E. destruct (Z.min_spec o x) as [[_ ->]|[_ ->]]; [now left | right; now left].
Qed.

Lemma fold_max_In os o : In (fold_left Z.max os o) (o :: os).
Proof.
  revert o. induction os as [|x os IH]; intros o; cbn [fold_left]; [now left|].
  destruct (IH (Z.max o x)) as [E|Hin]; [|right; now right].
  rewrite <- E. destruct (Z.max_spec o x) as [[_ ->]|[_ ->]]; [right; now left | now left].
Qed.

(** The bins run from the least to the greatest of the given months. *)
Lemma month_range_In ords o :
  In o (month_range ords) <-> exists a b, In a ords /\ In b ords /\ a <= o <= b.
Proof.
  destruct ords as [|o0 os]; [split; [intros [] | intros (a & _ & [] & _)]|].
  cbn [month_range].
  destruct (fold_min_le os o0) as (Hlo0 & Hlo), (fold_max_ge os o0) as (Hhi0 & Hhi).
  rewrite Forall_forall in Hlo, Hhi. split.
  - intros Hin. apply in_map_iff in Hin. destruct Hin as (k & <- & Hk).
    apply in_seq in Hk.
    exists (fold_left Z.min os o0), (fold_left Z.max os o0).
    split; [apply fold_min_In | split; [apply fold_max_In | lia]].
  - intros (a & b & Ha & Hb & Hab).
    assert (fold_left Z.min os o0 <= a) by (destruct Ha as [<-|Ha]; [lia | now apply Hlo]).
    assert (b <= fold_left Z.max os o0) by (destruct Hb as [<-|Hb]; [lia | now apply Hhi]).
    apply in_map_iff. exists (Z.to_nat (o - fold_left Z.min os o0)).
    split; [lia|]. apply in_seq. lia.
Qed.

Lemma month_end_inj o o' : month_end o = month_end o' -> o = o'.
Proof.
  unfold month_end. intros E. injection E as Ey Em _.
  rewrite (Z.div_mod o 12), (Z.div_mod o' 12) by lia. lia.
Qed.

Section ExportFacts.
Context {N : Type} `{Scalar N}.

Lemma pivot_table_index (data : Long N) : index (pivot_table data) = pivot_index data.
Proof. unfold index, pivot_table. cbn. rewrite map_map. cbn. apply map_id. Qed.

Lemma col_sums_cells (f : Z -> string -> N) (cols : list string) (idx : list Z) :
  col_sums (List.length cols) (map (fun i => map (f i) cols) idx)
  = map (fun c => group_sum (map (fun i => f i c) idx)) cols.
Proof.
  unfold col_sums, group_sum.
  replace (repeat (s_zero, s_zero) (List.length cols))
    with (map (fun _ : string => (s_zero (N := N), s_zero (N := N))) cols)
    by (induction cols as [|c cols IH]; cbn; [reflexivity | now rewrite IH]).
  assert (G : forall a : string -> N * N,
             fold_left (zip_with kahan_step) (map (fun i => map (f i) cols) idx) (map a cols)
             = map (fun c => fold_left kahan_step (map (fun i => f i c) idx) (a c)) cols).
  { induction idx as [|i idx IH]; intros a; cbn [map fold_left]; [reflexivity|].
    rewrite zip_with_map. apply IH. }
  rewrite G, map_map. reflexivity.
Qed.

Lemma resample_pivot_rows (data : Long N) :
  rows (resample_month_sum (pivot_table data))
  = map (fun o => (o, map (monthly_amount data o) (pivot_columns data))) (months data).
Proof.
  unfold resample_month_sum. cbn [rows columns]. rewrite pivot_table_index.
  apply map_ext. intros o. f_equal.
  unfold pivot_table at 2. cbn [rows].
  unfold pivot_table. cbn [columns].
  rewrite filter_map_comm, map_map. cbn [snd].
  unfold in_month. cbn [fst].
  apply col_sums_cells.
Qed.

(** The export, row by row. *)
Lemma export_payouts_spec (self : Partner.t) (data : Long N) :
  Partner.export_payouts self data
  = flat_map
      (fun o =>
         map (fun c => {| Payout.timestamp := month_end o;
                          Payout.partner := Partner.name self;
                          Payout.token := c;
                          Payout.treasury := Partner.treasury self;
                          Payout.amount := monthly_amount data o c |})
             (filter (fun c => negb (isna (monthly_amount data o c)))
                     (pivot_columns data)))
      (months data).
Proof.
  unfold Partner.export_payouts, stack.
  rewrite resample_pivot_rows.
  change (columns (resample_month_sum (pivot_table data))) with (pivot_columns data).
  rewrite flat_map_concat_map, concat_map, map_map, map_map, <- flat_map_concat_map.
  apply flat_map_ext. intros o. cbn [fst snd].
  rewrite combine_map_r, filter_map_comm, !map_map. reflexivity.
Qed.
End ExportFacts.

Section ExportKeys.
Context {N : Type} `{Scalar N}.

Lemma export_payouts_In (self : Partner.t) (data : Long N) p :
  In p (Partner.export_payouts self data) <->
  exists o c,
    In o (months data) /\ In c (pivot_columns data) /\
    isna (monthly_amount data o c) = false /\
    p = {| Payout.timestamp := month_end o;
           Payout.partner := Partner.name self;
           Payout.token := c;
           Payout.treasury := Partner.treasury self;
           Payout.amount := monthly_amount data o c |}.
Proof.
  rewrite export_payouts_spec, in_flat_map. split.
  - intros (o & Ho & Hp). apply in_map_iff in Hp. destruct Hp as (c & <- & Hc).
    apply filter_In in Hc. destruct Hc as (Hc & Hn). apply negb_true_iff in Hn.
    exists o, c. auto.
  - intros (o & c & Ho & Hc & Hn & ->). exists o. split; [exact Ho|].
    apply in_map_iff. exists c. split; [reflexivity|].
    apply filter_In. split; [exact Hc | now apply negb_true_iff].
Qed.

Lemma export_keys_NoDup (self : Partner.t) (data : Long N) :
  NoDup (map payout_key (Partner.export_payouts self data)).
Proof.
  rewrite export_payouts_spec.
  pose proof (month_range_NoDup (map month_ord (pivot_index data))) as Hm.
  fold (months data) in Hm.
  induction Hm as [|o ms Hnotin Hnd IH]; [constructor|].
  cbn [flat_map]. rewrite map_app. apply NoDup_app.
  - rewrite map_map. unfold payout_key. cbn.
    apply Stdlib.Lists.Finite.Injective_map_NoDup.
    + intros a b E. now injection E.
    + apply NoDup_filter, pivot_columns_NoDup.
  - exact IH.
  - intros k Hk Hk'. apply in_map_iff in Hk, Hk'.
    destruct Hk as (p & <- & Hp), Hk' as (p' & E & Hp').
    apply in_map_iff in Hp. destruct Hp as (c & <- & _).
    apply in_flat_map in Hp'. destruct Hp' as (o' & Ho' & Hp').
    apply in_map_iff in Hp'. destruct Hp' as (c' & <- & _).
    apply (f_equal fst) in E. unfold payout_key in E.
    cbn [fst Payout.timestamp] in E.
    apply month_end_inj in E. subst o'. contradiction.
Qed.
End ExportKeys.

(** C6, as the code has it.  The exported rows of a partner are uniquely
    keyed by (month-end timestamp, token).  There is one row for every month
    from the first to the last month of the ledger, months without any event
    included, and every vault of the ledger, carrying the sum of the payouts
    of that month and vault whether or not it is zero (a pair is left out
    only when its sum is NaN).  In the end-to-end scenario of the
    specification, whose payouts are all zero, one row with amount zero is
    exported. *)
Theorem export_rows_keyed (self : Partner.t) (partner : Long float) :
  NoDup (map payout_key (Partner.export_payouts self partner)) /\
  (forall p, In p (Partner.export_payouts self partner) <->
     exists o c,
       In o (months partner) /\ In c (pivot_columns partner) /\
       is_nan (monthly_amount partner o c) = false /\
       p = {| Payout.timestamp := month_end o;
              Payout.partner := Partner.name self;
              Payout.token := c;
              Payout.treasury := Partner.treasury self;
              Payout.amount := monthly_amount partner o c |}) /\
  (forall o, In o (months partner) <->
     exists r1 r2,
       In r1 partner /\ kept partner r1 = true /\
       In r2 partner /\ kept partner r2 = true /\
       month_ord (fst (fst r1)) <= o <= month_ord (fst (fst r2))) /\
  (forall c, In c (pivot_columns partner) <->
     exists r, In r partner /\ kept partner r = true /\ snd (fst r) = c) /\
  (res <- Partner.process chain_two_events partner_one ;; Ok (snd res))
  = Ok [ {| Payout.timestamp := {| year := 2021; month := 1; day := 31 |};
            Payout.partner := "one"%string;
            Payout.token := "V"%string;
            Payout.treasury := Some "0xT"%string;
            Payout.amount := 0%float |} ] /\
  (res <- Partner.process chain_xy partner_xy ;;
   Ok (map (fun p => (Payout.timestamp p, Payout.token p, Payout.amount p)) (snd res)))
  = Ok [ ({| year := 2021; month := 1; day := 31 |}, "X"%string, 0%float);
         ({| year := 2021; month := 1; day := 31 |}, "Y"%string, 0%float);
         ({| year := 2021; month := 2; day := 28 |}, "X"%string, 0%float);
         ({| year := 2021; month := 2; day := 28 |}, "Y"%string, 0%float);
         ({| year := 2021; month := 3; day := 31 |}, "X"%string, 0%float);
         ({| year := 2021; month := 3; day := 31 |}, "Y"%string, 0%float);
         ({| year := 2021; month := 4; day := 30 |}, "X"%string, 0%float);
         ({| year := 2021; month := 4; day := 30 |}, "Y"%string, 0%float) ].
Proof.
  split; [apply export_keys_NoDup|].
  split; [intros p; exact (export_payouts_In self partner p)|].
  split; [|split; [intros c; apply pivot_columns_In|]].
  - intros o. unfold months. rewrite month_range_In. split.
    + intros (a & b & Ha & Hb & Hab).
      apply in_map_iff in Ha, Hb. destruct Ha as (i & <- & Hi), Hb as (j & <- & Hj).
      apply pivot_index_In in Hi, Hj.
      destruct Hi as (r1 & H1 & K1 & <-), Hj as (r2 & H2 & K2 & <-).
      exists r1, r2. auto.
    + intros (r1 & r2 & H1 & K1 & H2 & K2 & Hab).
      exists (month_ord (fst (fst r1))), (month_ord (fst (fst r2))).
      split; [|split; [|exact Hab]]; apply in_map, pivot_index_In; eauto.
  - split; vm_compute; reflexivity.
Qed.

(** A row is exported for a (month, token) pair whose aggregated amount is
    zero. *)
Lemma export_has_zero_amount_row :
  exists partner payouts p,
    Partner.process chain_two_events partner_one = Ok (partner, payouts) /\
    map Ledger.payout partner = [0%float; 0%float] /\
    In p payouts /\ Payout.amount p = 0%float.
Proof.
  destruct (Partner.process chain_two_events partner_one) as [[partner payouts]|] eqn:E;
    vm_compute in E; [|discriminate E].
  injection E as <- <-.
  do 3 eexists. split; [reflexivity|]. split; [reflexivity|].
  split; [left; reflexivity | reflexivity].
Qed.

(** ** C7: conservation under the monthly regrouping

    The export adds the payouts of the ledger in groups, with rounding.
    The difference to their exact sum is bounded from the specification of
    binary64 addition: each addition or subtraction of finite numbers is
    off by at most [2^-52] of its exact result, so a compensated sum of
    non-negative numbers is off by at most [2^-49] of their sum. *)

(** *** Rounding of binary64 additions *)

Lemma digits2_pos_bounds (p : positive) :
  2 ^ (Z.pos (digits2_pos p) - 1) <= Z.pos p < 2 ^ Z.pos (digits2_pos p).
Proof.
  induction p as [p IH|p IH|]; cbn [digits2_pos].
  - rewrite Pos2Z.inj_succ.
    replace (Z.succ (Z.pos (digits2_pos p)) - 1) with (Z.succ (Z.pos (digits2_pos p) - 1)) by lia.
    rewrite !Z.pow_succ_r by lia. lia.
  - rewrite Pos2Z.inj_succ.
    replace (Z.succ (Z.pos (digits2_pos p)) - 1) with (Z.succ (Z.pos (digits2_pos p) - 1)) by lia.
    rewrite !Z.pow_succ_r by lia. lia.
  - cbn. lia.
Qed.

Lemma iter_xO (m d : positive) : Z.pos (Pos.iter xO m d) = Z.pos m * 2 ^ Z.pos d.
Proof.
  revert m. induction d as [|d IH] using Pos.peano_ind; intros m.
  - cbn. lia.
  - rewrite Pos.iter_succ, Pos2Z.inj_succ, Z.pow_succ_r by lia.
    rewrite Pos2Z.inj_xO, IH. lia.
Qed.

Lemma shl_align_value (mx : positive) (ex ez : Z) :
  ez <= ex ->
  Z.pos (fst (shl_align mx ex ez)) = Z.pos mx * 2 ^ (ex - ez) /\
  snd (shl_align mx ex ez) = ez.
Proof.
  intros Hle. unfold shl_align.
  destruct (ez - ex) as [|d|d] eqn:E; cbn [fst snd].
  - replace (ex - ez) with 0 by lia. cbn. lia.
  - lia.
  - rewrite iter_xO. replace (ex - ez) with (Z.pos d) by lia. lia.
Qed.

Lemma shr_1_m (mrs : shr_record) :
  0 <= shr_m mrs -> shr_m (shr_1 mrs) = shr_m mrs / 2.
Proof.
  destruct mrs as [m r s]. cbn [shr_m]. intros Hm.
  destruct m as [|[p|p|]|p]; cbn [shr_1 shr_m]; try lia.
  - reflexivity.
  - apply Z.div_unique with 1; lia.
  - apply Z.div_unique with 0; lia.
  - reflexivity.
Qed.

Lemma iter_shr_1_m (n : positive) (mrs : shr_record) :
  0 <= shr_m mrs -> shr_m (iter_pos shr_1 n mrs) = shr_m mrs / 2 ^ Z.pos n.
Proof.
  revert mrs. induction n as [n IH|n IH|]; intros mrs Hm; cbn [iter_pos].
  - assert (H1 : 0 <= shr_m (shr_1 mrs)) by (rewrite shr_1_m by lia; apply Z.div_pos; lia).
    assert (H2 : 0 <= shr_m (iter_pos shr_1 n (shr_1 mrs)))
      by (rewrite IH by lia; apply Z.div_pos; [lia | apply Z.pow_pos_nonneg; lia]).
    rewrite IH, IH, shr_1_m by assumption.
    rewrite !Z.div_div by (try apply Z.pow_pos_nonneg; lia).
    f_equal. replace (Z.pos n~1) with (1 + Z.pos n + Z.pos n) by lia.
    rewrite !Z.pow_add_r by lia. change (2 ^ 1) with 2. lia.
  - assert (H2 : 0 <= shr_m (iter_pos shr_1 n mrs))
      by (rewrite IH by lia; apply Z.div_pos; [lia | apply Z.pow_pos_nonneg; lia]).
    rewrite IH, IH by assumption.
    rewrite !Z.div_div by (try apply Z.pow_pos_nonneg; lia).
    f_equal. replace (Z.pos n~0) with (Z.pos n + Z.pos n) by lia.
    rewrite !Z.pow_add_r by lia. lia.
  - rewrite shr_1_m by lia. reflexivity.
Qed.

Lemma shr_fexp_short (m : positive) (e : Z) :
  -1074 <= e -> Z.pos (digits2_pos m) <= 53 ->
  shr_fexp prec emax (Z.pos m) e loc_Exact
  = ({| shr_m := Z.pos m; shr_r := false; shr_s := false |}, e).
Proof.
  intros He Hd. unfold shr_fexp, fexp, emin, prec, emax, Zdigits2, shr.
  cbn [shr_record_of_loc].
  destruct (Z.max (Z.pos (digits2_pos m) + e - 53) (3 - 1024 - 53) - e) eqn:E;
    try reflexivity.
  lia.
Qed.

Lemma shr_fexp_long (m : positive) (e : Z) :
  -1074 <= e -> 53 < Z.pos (digits2_pos m) ->
  exists mrs,
    shr_fexp prec emax (Z.pos m) e loc_Exact = (mrs, e + (Z.pos (digits2_pos m) - 53)) /\
    shr_m mrs = Z.pos m / 2 ^ (Z.pos (digits2_pos m) - 53).
Proof.
  intros He Hd. unfold shr_fexp, fexp, emin, prec, emax, Zdigits2, shr.
  cbn [shr_record_of_loc].
  destruct (Z.max (Z.pos (digits2_pos m) + e - 53) (3 - 1024 - 53) - e) eqn:E; try lia.
  replace (Z.pos (digits2_pos m) - 53) with (Z.pos p) by lia.
  eexists. split; [reflexivity|].
  rewrite iter_shr_1_m; cbn [shr_m]; [reflexivity | lia].
Qed.

Lemma round_nearest_even_near (mrs : shr_record) :
  round_nearest_even (shr_m mrs) (loc_of_shr_record mrs) = shr_m mrs \/
  round_nearest_even (shr_m mrs) (loc_of_shr_record mrs) = shr_m mrs + 1.
Proof.
  destruct mrs as [m [|] [|]]; cbn; auto. destruct (Z.even m); auto.
Qed.

Lemma pow2_exp_lt (a b : Z) : 0 <= b -> 2 ^ a < 2 ^ b -> a < b.
Proof. intros Hb H. apply (Z.pow_lt_mono_r_iff 2); lia. Qed.

Lemma pow2_exp_le (a b : Z) : 0 <= b -> 2 ^ a <= 2 ^ b -> a <= b.
Proof. intros Hb H. apply (Z.pow_le_mono_r_iff 2); lia. Qed.

Lemma binary_round_aux_spec (s : bool) (m : positive) (e : Z) :
  -1074 <= e <= 971 ->
  Z.pos m * 2 ^ (e + 1074) < 2 ^ 2097 ->
  exists m' e',
    binary_round_aux prec emax s (Z.pos m) e loc_Exact = S754_finite s m' e' /\
    -1074 <= e' /\
    2 ^ 52 * Z.abs (Z.pos m' * 2 ^ (e' + 1074) - Z.pos m * 2 ^ (e + 1074))
    <= Z.pos m * 2 ^ (e + 1074).
Proof.
  intros He HX. unfold binary_round_aux.
  pose proof (digits2_pos_bounds m) as Hd.
  set (d := Z.pos (digits2_pos m)) in *.
  assert (HP : 0 < 2 ^ (e + 1074)) by (apply Z.pow_pos_nonneg; lia).
  destruct (Z_le_gt_dec d 53) as [Hs|Hl].
  - rewrite (shr_fexp_short m e) by (fold d; lia).
    cbn [shr_m loc_of_shr_record round_nearest_even].
    rewrite (shr_fexp_short m e) by (fold d; lia). cbn [shr_m].
    replace (e <=? emax - prec) with true by (symmetry; apply Z.leb_le; unfold emax, prec; lia).
    exists m, e. split; [reflexivity|]. split; [lia|].
    rewrite Z.sub_diag. cbn [Z.abs]. lia.
  - destruct (shr_fexp_long m e) as (mrs & -> & Hq); [lia | fold d; lia|]. fold d in Hq |- *.
    set (n := d - 53) in *.
    assert (HN : 0 < 2 ^ n) by (apply Z.pow_pos_nonneg; lia).
    assert (Hd1 : 2 ^ (d - 1) = 2 ^ 52 * 2 ^ n)
      by (replace (d - 1) with (52 + n) by lia; apply Z.pow_add_r; lia).
    assert (Hd2 : 2 ^ d = 2 ^ 53 * 2 ^ n)
      by (replace d with (53 + n) at 1 by lia; apply Z.pow_add_r; lia).
    assert (Hq1 : 2 ^ 52 <= shr_m mrs)
      by (rewrite Hq; apply Z.div_le_lower_bound; lia).
    assert (Hq2 : shr_m mrs < 2 ^ 53)
      by (rewrite Hq; apply Z.div_lt_upper_bound; lia).
    assert (Hq3 : 2 ^ n * shr_m mrs <= Z.pos m < 2 ^ n * shr_m mrs + 2 ^ n).
    { rewrite Hq. pose proof (Z.mul_div_le (Z.pos m) (2 ^ n) HN).
      pose proof (Z.mul_succ_div_gt (Z.pos m) (2 ^ n) HN). lia. }
    (* the exponent stays in range *)
    assert (Hexp : e + n <= 970).
    { assert (2 ^ (d - 1 + (e + 1074)) < 2 ^ 2097).
      { rewrite Z.pow_add_r by lia. nia. }
      apply pow2_exp_lt in H; lia. }
    pose proof (round_nearest_even_near mrs) as Hm1.
    remember (round_nearest_even (shr_m mrs) (loc_of_shr_record mrs)) as m1 eqn:Em1.
    clear Em1. destruct m1 as [|p1|p1]; try lia.
    pose proof (digits2_pos_bounds p1) as Hd'.
    set (d1 := Z.pos (digits2_pos p1)) in *.
    assert (HPn : 2 ^ (e + n + 1074) = 2 ^ n * 2 ^ (e + 1074))
      by (replace (e + n + 1074) with (n + (e + 1074)) by lia; apply Z.pow_add_r; lia).
    assert (Herr : 2 ^ 52 * Z.abs (Z.pos p1 * 2 ^ n - Z.pos m) <= Z.pos m).
    { clear - Hm1 Hq3 Hd Hd1 HN.
      remember (2 ^ n) as N eqn:EN. remember (shr_m mrs) as q eqn:Eq. clear EN Eq.
      remember (2 ^ (d - 1)) as D eqn:ED. clear ED.
      destruct Hm1 as [E|E]; rewrite E; lia. }
    assert (Hgoal : 2 ^ 52 * Z.abs (Z.pos p1 * 2 ^ n * 2 ^ (e + 1074)
                                    - Z.pos m * 2 ^ (e + 1074))
                    <= Z.pos m * 2 ^ (e + 1074)).
    { rewrite <- Z.mul_sub_distr_r, Z.abs_mul, (Z.abs_eq (2 ^ (e + 1074))) by lia.
      rewrite Z.mul_assoc. apply Z.mul_le_mono_nonneg_r; lia. }
    destruct (Z_lt_ge_dec (Z.pos p1) (2 ^ 53)) as [Hlt|Hge].
    + assert (Hd1' : d1 <= 53).
      { assert (2 ^ (d1 - 1) < 2 ^ 53) by lia. apply pow2_exp_lt in H; lia. }
      rewrite (shr_fexp_short p1 (e + n)) by (fold d1; lia). cbn [shr_m].
      replace (e + n <=? emax - prec) with true
        by (symmetry; apply Z.leb_le; unfold emax, prec; lia).
      exists p1, (e + n). split; [reflexivity|]. split; [lia|].
      rewrite HPn, Z.mul_assoc. exact Hgoal.
    + assert (E53 : Z.pos p1 = 2 ^ 53) by lia.
      assert (Hd1' : d1 = 54).
      { rewrite E53 in Hd'. destruct Hd' as (Ha & Hb).
        apply pow2_exp_le in Ha; [|lia]. apply pow2_exp_lt in Hb; [|lia]. lia. }
      destruct (shr_fexp_long p1 (e + n)) as (mrs2 & -> & Hq'); [lia | fold d1; lia|].
      fold d1 in Hq' |- *. rewrite Hd1' in Hq' |- *. rewrite E53 in Hq'.
      change (2 ^ 53 / 2 ^ (54 - 53)) with (2 ^ 52) in Hq'. rewrite Hq'.
      change (2 ^ 52) with (Z.pos 4503599627370496) at 1.
      replace (e + n + (54 - 53) <=? emax - prec) with true
        by (symmetry; apply Z.leb_le; unfold emax, prec; lia).
      eexists _, _. split; [reflexivity|]. split; [lia|].
      replace (e + n + (54 - 53) + 1074) with (1 + (e + n + 1074)) by lia.
      rewrite Z.pow_add_r, HPn by lia.
      replace (Z.pos 4503599627370496 * (2 ^ 1 * (2 ^ n * 2 ^ (e + 1074))))
        with (Z.pos p1 * 2 ^ n * 2 ^ (e + 1074)) by (rewrite E53; lia).
      exact Hgoal.
Qed.

Lemma binary_round_spec (s : bool) (m : positive) (e : Z) :
  -1074 <= e <= 971 ->
  Z.pos m * 2 ^ (e + 1074) < 2 ^ 2097 ->
  exists m' e',
    binary_round prec emax s m e = S754_finite s m' e' /\
    2 ^ 52 * Z.abs (Z.pos m' * 2 ^ (e' + 1074) - Z.pos m * 2 ^ (e + 1074))
    <= Z.pos m * 2 ^ (e + 1074).
Proof.
  intros He HX. unfold binary_round, shl_align.
  set (e0 := fexp prec emax (Z.pos (digits2_pos m) + e)).
  assert (He0 : -1074 <= e0) by (unfold e0, fexp, emin, prec, emax; lia).
  destruct (e0 - e) as [|k|k] eqn:E.
  - destruct (binary_round_aux_spec s m e He HX) as (m' & e' & -> & _ & Hb). eauto.
  - destruct (binary_round_aux_spec s m e He HX) as (m' & e' & -> & _ & Hb). eauto.
  - assert (EX : Z.pos (Pos.iter xO m k) * 2 ^ (e0 + 1074) = Z.pos m * 2 ^ (e + 1074)).
    { rewrite iter_xO, <- Z.mul_assoc, <- Z.pow_add_r by lia. f_equal. f_equal. lia. }
    destruct (binary_round_aux_spec s (Pos.iter xO m k) e0) as (m' & e' & -> & _ & Hb);
      [lia | rewrite EX; exact HX|].
    rewrite EX in Hb. eauto.
Qed.

Lemma binary_normalize_spec (M e : Z) :
  -1074 <= e <= 971 ->
  Z.abs (M * 2 ^ (e + 1074)) < 2 ^ 2097 ->
  sfinite (binary_normalize prec emax M e false) = true /\
  2 ^ 52 * Z.abs (sval (binary_normalize prec emax M e false) - M * 2 ^ (e + 1074))
  <= Z.abs (M * 2 ^ (e + 1074)).
Proof.
  intros He HX. assert (HP : 0 < 2 ^ (e + 1074)) by (apply Z.pow_pos_nonneg; lia).
  destruct M as [|m|m]; cbn [binary_normalize].
  - cbn. lia.
  - destruct (binary_round_spec false m e He) as (m' & e' & -> & Hb); [lia|].
    cbn [sfinite sval cond_Zopp]. split; [reflexivity | lia].
  - assert (EM : Z.neg m * 2 ^ (e + 1074) = - (Z.pos m * 2 ^ (e + 1074))) by lia.
    destruct (binary_round_spec true m e He) as (m' & e' & -> & Hb); [lia|].
    cbn [sfinite sval cond_Zopp]. split; [reflexivity | lia].
Qed.

Lemma valid_exponent (s : bool) (m : positive) (e : Z) :
  valid_binary (S754_finite s m e) = true -> -1074 <= e <= 971.
Proof.
  unfold valid_binary, SpecFloat.valid_binary, bounded, canonical_mantissa, fexp,
    SpecFloat.emin, prec, emax.
  intros H. apply andb_true_iff in H. destruct H as (H1 & H2).
  apply Z.eqb_eq in H1. apply Z.leb_le in H2. lia.
Qed.

Lemma aligned_value (s : bool) (m : positive) (e ez : Z) :
  ez <= e -> -1074 <= ez ->
  cond_Zopp s (Z.pos (fst (shl_align m e ez))) * 2 ^ (ez + 1074)
  = sval (S754_finite s m e).
Proof.
  intros Hle Hz. destruct (shl_align_value m e ez Hle) as (-> & _).
  cbn [sval]. replace (e + 1074) with ((e - ez) + (ez + 1074)) by lia.
  rewrite (Z.pow_add_r 2 (e - ez) (ez + 1074)) by lia. destruct s; cbn [cond_Zopp]; lia.
Qed.

Lemma SFadd_spec (x y : spec_float) :
  valid_binary x = true -> valid_binary y = true ->
  sfinite x = true -> sfinite y = true ->
  Z.abs (sval x + sval y) < 2 ^ 2097 ->
  sfinite (SFadd prec emax x y) = true /\
  2 ^ 52 * Z.abs (sval (SFadd prec emax x y) - (sval x + sval y))
  <= Z.abs (sval x + sval y).
Proof.
  intros Vx Vy Fx Fy HX.
  destruct x as [sx| |  |sx mx ex], y as [sy| | |sy my ey]; try discriminate.
  - destruct sx, sy; cbn; lia.
  - cbn [SFadd sfinite]. split; [reflexivity|]. cbn [sval]. 
    rewrite Z.add_0_l, Z.sub_diag. cbn [Z.abs]. lia.
  - cbn [SFadd sfinite]. split; [reflexivity|]. cbn [sval].
    rewrite Z.add_0_r, Z.sub_diag. cbn [Z.abs]. lia.
  - apply valid_exponent in Vx, Vy. cbn [SFadd].
    set (ez := Z.min ex ey).
    assert (EM : (cond_Zopp sx (Z.pos (fst (shl_align mx ex ez)))
                  + cond_Zopp sy (Z.pos (fst (shl_align my ey ez)))) * 2 ^ (ez + 1074)
                 = sval (S754_finite sx mx ex) + sval (S754_finite sy my ey)).
    { rewrite Z.mul_add_distr_r, !aligned_value by (unfold ez; lia). reflexivity. }
    rewrite <- EM in HX |- *. apply binary_normalize_spec; [unfold ez; lia | exact HX].
Qed.

Lemma SFsub_spec (x y : spec_float) :
  valid_binary x = true -> valid_binary y = true ->
  sfinite x = true -> sfinite y = true ->
  Z.abs (sval x - sval y) < 2 ^ 2097 ->
  sfinite (SFsub prec emax x y) = true /\
  2 ^ 52 * Z.abs (sval (SFsub prec emax x y) - (sval x - sval y))
  <= Z.abs (sval x - sval y).
Proof.
  intros Vx Vy Fx Fy HX.
  destruct x as [sx| |  |sx mx ex], y as [sy| | |sy my ey]; try discriminate.
  - destruct sx, sy; cbn; lia.
  - cbn [SFsub sfinite]. split; [reflexivity|]. cbn [sval].
    replace (cond_Zopp (negb sy) (Z.pos my * 2 ^ (ey + 1074))
             - (0 - cond_Zopp sy (Z.pos my * 2 ^ (ey + 1074)))) with 0
      by (destruct sy; cbn [negb cond_Zopp]; lia).
    cbn [Z.abs]. lia.
  - cbn [SFsub sfinite]. split; [reflexivity|]. cbn [sval].
    rewrite Z.sub_0_r, Z.sub_diag. cbn [Z.abs]. lia.
  - apply valid_exponent in Vx, Vy. cbn [SFsub].
    set (ez := Z.min ex ey).
    assert (EM : (cond_Zopp sx (Z.pos (fst (shl_align mx ex ez)))
                  - cond_Zopp sy (Z.pos (fst (shl_align my ey ez)))) * 2 ^ (ez + 1074)
                 = sval (S754_finite sx mx ex) - sval (S754_finite sy my ey)).
    { rewrite Z.mul_sub_distr_r, !aligned_value by (unfold ez; lia). reflexivity. }
    rewrite <- EM in HX |- *. apply binary_normalize_spec; [unfold ez; lia | exact HX].
Qed.

Lemma add_units (a b : float) :
  finite a = true -> finite b = true ->
  Z.abs (units a + units b) < 2 ^ 2097 ->
  finite (a + b) = true /\
  2 ^ 52 * Z.abs (units (a + b) - (units a + units b)) <= Z.abs (units a + units b).
Proof.
  unfold finite, units. rewrite add_spec. apply SFadd_spec; apply Prim2SF_valid.
Qed.

Lemma sub_units (a b : float) :
  finite a = true -> finite b = true ->
  Z.abs (units a - units b) < 2 ^ 2097 ->
  finite (a - b) = true /\
  2 ^ 52 * Z.abs (units (a - b) - (units a - units b)) <= Z.abs (units a - units b).
Proof.
  unfold finite, units. rewrite sub_spec. apply SFsub_spec; apply Prim2SF_valid.
Qed.

Lemma finite_not_nan x : finite x = true -> is_nan x = false.
Proof.
  unfold finite, is_nan. rewrite eqb_spec. destruct (Prim2SF x) as [s|s| |s m e]; try discriminate.
  - intros _. reflexivity.
  - intros _. unfold SFeqb, SFcompare.
    rewrite Z.compare_refl.
    replace (Pos.compare_cont Eq m m) with Eq by (symmetry; apply Pos.compare_cont_refl).
    now destruct s.
Qed.

Lemma nan_units x : is_nan x = true -> units x = 0.
Proof.
  unfold is_nan, units. rewrite eqb_spec. destruct (Prim2SF x) as [s|s| |s m e]; try reflexivity.
  unfold SFeqb, SFcompare.
  rewrite Z.compare_refl.
  replace (Pos.compare_cont Eq m m) with Eq by (symmetry; apply Pos.compare_cont_refl).
  now destruct s.
Qed.

Lemma kahan_step_inv (k S : Z) (acc : float * float) (x : float) :
  kahan_inv k S acc -> summand x ->
  k < 2 ^ 48 -> S + units x <= 2 ^ 2094 ->
  kahan_inv (k + 1) (S + units x) (kahan_step acc x).
Proof.
  intros (Fs & Fc & HS & Hk & Ha & Hb) Hx Hkmax Hmax.
  destruct acc as [s c]. cbn [fst snd] in *.
  assert (HkS : 0 <= k * S <= 2 ^ 48 * S) by nia.
  unfold kahan_step. cbn [isna s_add s_sub Scalar_float].
  destruct Hx as [Hn|(Fx & Hx)].
  - rewrite Hn. rewrite (nan_units x Hn), Z.add_0_r. unfold kahan_inv. cbn [fst snd].
    replace ((k + 1) * S) with (k * S + S) by ring.
    repeat split; try assumption; lia.
  - rewrite (finite_not_nan x Fx). unfold kahan_inv. cbn [fst snd].
    assert (Hkx : 0 <= k * units x) by nia.
    replace ((k + 1) * (S + units x)) with (k * S + k * units x + S + units x) by ring.
    generalize dependent (k * S). generalize dependent (k * units x).
    intros kx Hkx kS Ha HkS.
    destruct (sub_units x c Fx Fc) as (Fy & Hy); [lia|].
    set (y := (x - c)%float) in *.
    destruct (add_units s y Fs Fy) as (Ft & Ht); [lia|].
    set (t := (s + y)%float) in *.
    destruct (sub_units t s Ft Fs) as (Fa & Ha'); [lia|].
    set (a := (t - s)%float) in *.
    destruct (sub_units a y Fa Fy) as (Fc' & Hc'); [lia|].
    set (c' := (a - y)%float) in *.
    split; [exact Ft|]. split; [exact Fc'|].
    clear Hmax Hkmax Fs Fc Fx Fy Ft Fa Fc'.
    repeat split; lia.
Qed.

Lemma zsum_summands_nonneg (xs : list float) :
  Forall summand xs -> 0 <= zsum (map units xs).
Proof.
  unfold zsum. induction 1 as [|x xs Hx _ IH]; cbn [map fold_right]; [lia|].
  destruct Hx as [Hn|(_ & Hx)]; [rewrite (nan_units x Hn)|]; lia.
Qed.

Lemma fold_kahan_inv (xs : list float) (k S : Z) (acc : float * float) :
  Forall summand xs ->
  kahan_inv k S acc ->
  k + Z.of_nat (List.length xs) <= 2 ^ 48 ->
  S + zsum (map units xs) <= 2 ^ 2094 ->
  kahan_inv (k + Z.of_nat (List.length xs)) (S + zsum (map units xs))
            (fold_left kahan_step xs acc).
Proof.
  intros Hall. revert k S acc.
  induction Hall as [|x xs Hx Hxs IH]; intros k S acc Hinv Hk Hmax.
  - cbn. now rewrite !Z.add_0_r.
  - pose proof (zsum_summands_nonneg xs Hxs) as Hpos. unfold zsum in *.
    cbn [fold_left map fold_right List.length] in *.
    replace (k + Z.of_nat (Datatypes.S (List.length xs)))
      with (k + 1 + Z.of_nat (List.length xs)) by lia.
    rewrite Z.add_assoc. apply IH; [|lia|lia].
    apply kahan_step_inv; [assumption | assumption | lia | lia].
Qed.

(** The compensated sum of at most [2^48] non-negative numbers with a sum
    below [2^1020] is within [2^-49] of their sum, relatively. *)
Lemma group_sum_spec (xs : list float) :
  Forall summand xs ->
  Z.of_nat (List.length xs) <= 2 ^ 48 ->
  zsum (map units xs) <= 2 ^ 2094 ->
  finite (group_sum xs) = true /\
  2 ^ 52 * Z.abs (units (group_sum xs) - zsum (map units xs)) <= 8 * zsum (map units xs).
Proof.
  intros Hall Hlen Hmax.
  pose proof (zsum_summands_nonneg xs Hall) as Hpos.
  assert (I0 : kahan_inv 0 0 (s_zero, s_zero)).
  { unfold kahan_inv. cbn [fst snd]. repeat split; try reflexivity; lia. }
  pose proof (fold_kahan_inv xs 0 0 _ Hall I0) as H. cbn [Z.add] in H.
  specialize (H Hlen Hmax). unfold group_sum.
  destruct (fold_left kahan_step xs (s_zero, s_zero)) as [s c].
  destruct H as (Fs & Fc & HS & Hk & Ha & Hb). cbn [fst snd] in *.
  split; [exact Fs|].
  assert (0 <= Z.of_nat (List.length xs) * zsum (map units xs)
          <= 2 ^ 48 * zsum (map units xs)) by nia.
  lia.
Qed.

Lemma nonneg_finite_spec (x : float) :
  nonneg_finite x = true <-> finite x = true /\ 0 <= units x.
Proof.
  unfold nonneg_finite, finite, units. rewrite leb_spec, ltb_spec.
  pose proof (Prim2SF_valid x) as V.
  change (Prim2SF 0) with (S754_zero false).
  change (Prim2SF infinity) with (S754_infinity false).
  destruct (Prim2SF x) as [s|s| |s m e]; cbn [sfinite sval].
  - destruct s; cbn; intuition lia.
  - destruct s; cbn; intuition discriminate.
  - cbn; intuition discriminate.
  - apply valid_exponent in V.
    assert (0 < 2 ^ (e + 1074)) by (apply Z.pow_pos_nonneg; lia).
    destruct s; cbn -[Z.mul Z.pow]; intuition (try discriminate; try lia).
Qed.

(** *** Exact sums *)

Lemma zsum_app (xs ys : list Z) : zsum (xs ++ ys) = zsum xs + zsum ys.
Proof. unfold zsum. induction xs as [|x xs IH]; cbn; lia. Qed.

Lemma zsum_flat_map {A : Type} (f : A -> list Z) (xs : list A) :
  zsum (flat_map f xs) = zsum (map (fun x => zsum (f x)) xs).
Proof.
  induction xs as [|x xs IH]; [reflexivity|].
  cbn [flat_map map]. rewrite zsum_app, IH. reflexivity.
Qed.

Lemma zsum_ext_in {A : Type} (f g : A -> Z) (xs : list A) :
  (forall x, In x xs -> f x = g x) -> zsum (map f xs) = zsum (map g xs).
Proof. intros E. f_equal. now apply map_ext_in. Qed.

Lemma zsum_nonneg {A : Type} (g : A -> Z) (xs : list A) :
  (forall x, In x xs -> 0 <= g x) -> 0 <= zsum (map g xs).
Proof.
  unfold zsum. induction xs as [|x xs IH]; intros Hg; cbn [map fold_right]; [lia|].
  pose proof (Hg x (or_introl eq_refl)). specialize (IH (fun y Hy => Hg y (or_intror Hy))).
  lia.
Qed.

Lemma zsum_filter_le {A : Type} (g : A -> Z) (p : A -> bool) (xs : list A) :
  (forall x, In x xs -> 0 <= g x) ->
  zsum (map g (filter p xs)) <= zsum (map g xs).
Proof.
  unfold zsum. induction xs as [|x xs IH]; intros Hg; cbn [filter map fold_right]; [lia|].
  pose proof (Hg x (or_introl eq_refl)). specialize (IH (fun y Hy => Hg y (or_intror Hy))).
  destruct (p x); cbn [map fold_right]; lia.
Qed.

(** Summing a list class by class: [key] sorts the elements into the
    classes [ks]. *)
Section Partition.
Context {A K : Type} (eqb : K -> K -> bool).
Hypothesis eqb_eq : forall a b, eqb a b = true <-> a = b.

Lemma zsum_partition (key : A -> K) (g : A -> Z) (ks : list K) (xs : list A) :
  NoDup ks ->
  (forall x, In x xs -> In (key x) ks) ->
  zsum (map (fun k => zsum (map g (filter (fun x => eqb (key x) k) xs))) ks)
  = zsum (map g xs).
Proof.
  intros Hnd. revert xs. induction Hnd as [|k ks Hnotin Hnd IH]; intros xs Hcov.
  - destruct xs as [|x xs]; [reflexivity|]. destruct (Hcov x (or_introl eq_refl)).
  - cbn [map]. change (zsum (?a :: ?l)) with (a + zsum l).
    rewrite (zsum_ext_in _ (fun k' => zsum (map g (filter (fun x => eqb (key x) k')
                                      (filter (fun x => negb (eqb (key x) k)) xs))))).
    + rewrite IH.
      * clear. unfold zsum. induction xs as [|x xs IHxs]; [reflexivity|].
        cbn [filter map fold_right]. destruct (eqb (key x) k); cbn [negb map fold_right]; lia.
      * intros x Hx. apply filter_In in Hx. destruct Hx as (Hx & Hne).
        destruct (Hcov x Hx) as [E|Hin]; [|exact Hin].
        assert (eqb (key x) k = true) by (apply eqb_eq; congruence).
        rewrite H in Hne. discriminate.
    + intros k' Hk'. f_equal. f_equal. rewrite filter_filter.
      apply filter_ext. intros x.
      destruct (eqb (key x) k') eqn:E1, (eqb (key x) k) eqn:E2; try reflexivity.
      apply eqb_eq in E1, E2. subst. contradiction.
Qed.
End Partition.

(** Sums of numbers that are close term by term are close. *)
Lemma zsum_close {A : Type} (C D : Z) (f g : A -> Z) (xs : list A) :
  0 <= C ->
  (forall x, In x xs -> C * Z.abs (f x - g x) <= D * g x) ->
  C * Z.abs (zsum (map f xs) - zsum (map g xs)) <= D * zsum (map g xs).
Proof.
  intros HC. unfold zsum. induction xs as [|x xs IH]; intros Hfg; cbn [map fold_right].
  - cbn. lia.
  - pose proof (Hfg x (or_introl eq_refl)) as Hx.
    specialize (IH (fun y Hy => Hfg y (or_intror Hy))).
    replace (f x + fold_right Z.add 0 (map f xs) - (g x + fold_right Z.add 0 (map g xs)))
      with ((f x - g x) + (fold_right Z.add 0 (map f xs) - fold_right Z.add 0 (map g xs)))
      by lia.
    pose proof (Z.abs_triangle (f x - g x)
                  (fold_right Z.add 0 (map f xs) - fold_right Z.add 0 (map g xs))) as T.
    apply (Z.mul_le_mono_nonneg_l _ _ C HC) in T.
    rewrite Z.mul_add_distr_l in T. rewrite Z.mul_add_distr_l. lia.
Qed.

Lemma zsum_close_1 {A : Type} (C : Z) (f g : A -> Z) (xs : list A) :
  0 <= C ->
  (forall x, In x xs -> C * Z.abs (f x - g x) <= g x) ->
  C * Z.abs (zsum (map f xs) - zsum (map g xs)) <= zsum (map g xs).
Proof.
  intros HC Hfg. pose proof (zsum_close C 1 f g xs HC) as H.
  rewrite Z.mul_1_l in H. apply H. intros x Hx. rewrite Z.mul_1_l. now apply Hfg.
Qed.

Lemma zsum_map_flat_map {A B : Type} (h : B -> Z) (f : A -> list B) (xs : list A) :
  zsum (map h (flat_map f xs)) = zsum (map (fun x => zsum (map h (f x))) xs).
Proof.
  induction xs as [|x xs IH]; [reflexivity|].
  cbn [flat_map map]. rewrite map_app, zsum_app, IH. reflexivity.
Qed.

Lemma finite_summand x : finite x = true -> 0 <= units x -> summand x.
Proof. intros; right; auto. Qed.

Section Conservation.
Variable data : Long float.
Hypothesis Hall : forall r, In r data -> summand (snd r).
Hypothesis Hlen : Z.of_nat (List.length data) <= 2 ^ 48.
Hypothesis Hsum : zsum (map (fun r => units (snd r)) data) <= 2 ^ 2074.

Lemma row_nonneg r : In r data -> 0 <= units (snd r).
Proof.
  intros Hr. destruct (Hall r Hr) as [Hn|(_ & Hp)]; [rewrite (nan_units _ Hn)|]; lia.
Qed.

Lemma total_nonneg : 0 <= zsum (map (fun r => units (snd r)) data).
Proof. apply zsum_nonneg. exact row_nonneg. Qed.

Lemma filter_sum_le (p : Z * string * float -> bool) :
  0 <= zsum (map (fun r => units (snd r)) (filter p data))
  <= zsum (map (fun r => units (snd r)) data).
Proof.
  split; [|apply zsum_filter_le; exact row_nonneg].
  apply zsum_nonneg. intros r Hr. apply filter_In in Hr. apply row_nonneg, Hr.
Qed.

Lemma group_sum_of_group i c :
  finite (group_sum (group data i c)) = true /\
  2 ^ 52 * Z.abs (units (group_sum (group data i c))
                  - zsum (map (fun r => units (snd r)) (filter (in_group i c) data)))
  <= 8 * zsum (map (fun r => units (snd r)) (filter (in_group i c) data)).
Proof.
  pose proof (filter_sum_le (in_group i c)) as Hle.
  replace (zsum (map (fun r => units (snd r)) (filter (in_group i c) data)))
    with (zsum (map units (group data i c))) in *
    by (unfold group; now rewrite map_map).
  apply group_sum_spec.
  - unfold group. apply Forall_forall. intros x Hx. apply in_map_iff in Hx.
    destruct Hx as (r & <- & Hr). apply filter_In in Hr. apply Hall, Hr.
  - unfold group. rewrite length_map.
    pose proof (filter_length_le (in_group i c) data). lia.
  - lia.
Qed.

Lemma cell_spec i c :
  summand (cell data i c) /\
  2 ^ 52 * Z.abs (units (cell data i c)
                  - zsum (map (fun r => units (snd r)) (filter (in_group i c) data)))
  <= 8 * zsum (map (fun r => units (snd r)) (filter (in_group i c) data)).
Proof.
  pose proof (group_sum_of_group i c) as (Hf & Hb).
  unfold cell. destruct (group data i c) as [|x xs] eqn:E.
  - unfold group in E. apply map_eq_nil in E. rewrite E. cbn. split; [now left | lia].
  - split; [|exact Hb]. apply finite_summand; [exact Hf | lia].
Qed.

Lemma all_kept r : In r data -> kept data r = true.
Proof.
  intros Hr. unfold kept. rewrite (cell_of_row data r Hr).
  destruct (group_sum_of_group (fst (fst r)) (snd (fst r))) as (Hf & _).
  apply negb_true_iff. exact (finite_not_nan _ Hf).
Qed.

Lemma pivot_index_length : (List.length (pivot_index data) <= List.length data)%nat.
Proof.
  rewrite <- (length_map (fun r : Z * string * float => fst (fst r)) data).
  apply NoDup_incl_length; [apply pivot_index_NoDup|].
  intros i Hi. apply pivot_index_In in Hi. destruct Hi as (r & Hr & _ & <-).
  apply in_map_iff. now exists r.
Qed.

Lemma class_sum_by_timestamp o c :
  zsum (map (fun i => zsum (map (fun r => units (snd r)) (filter (in_group i c) data)))
            (filter (fun i => month_ord i =? o) (pivot_index data)))
  = class_sum data o c.
Proof.
  unfold class_sum.
  rewrite <- (zsum_partition Z.eqb Z.eqb_eq (fun r : Z * string * float => fst (fst r))
                             (fun r => units (snd r))
                             (filter (fun i => month_ord i =? o) (pivot_index data))).
  - apply zsum_ext_in. intros i Hi. apply filter_In in Hi. destruct Hi as (_ & Hi).
    f_equal. f_equal. rewrite !filter_filter.
    apply filter_ext. intros r. unfold in_group.
    destruct (Z.eqb_spec (fst (fst r)) i) as [->|Hne].
    + rewrite Hi. now destruct (snd (fst r) =? c)%string.
    + now destruct (month_ord (fst (fst r)) =? o), (snd (fst r) =? c)%string.
  - apply NoDup_filter, pivot_index_NoDup.
  - intros r Hr. apply filter_In in Hr. destruct Hr as (Hr & _).
    apply filter_In in Hr. destruct Hr as (Hr & Hm).
    apply filter_In. split; [|exact Hm].
    apply pivot_index_In. exists r. auto using all_kept.
Qed.

Lemma class_sum_le o c :
  0 <= class_sum data o c <= zsum (map (fun r => units (snd r)) data).
Proof.
  unfold class_sum. rewrite filter_filter. apply filter_sum_le.
Qed.

Lemma monthly_amount_spec o c :
  finite (monthly_amount data o c) = true /\
  2 ^ 47 * Z.abs (units (monthly_amount data o c) - class_sum data o c) <= class_sum data o c.
Proof.
  unfold monthly_amount.
  set (idx := filter (fun i => month_ord i =? o) (pivot_index data)).
  pose proof (class_sum_le o c) as Hle.
  pose proof (zsum_close (2 ^ 52) 8
                (fun i => units (cell data i c))
                (fun i => zsum (map (fun r => units (snd r)) (filter (in_group i c) data)))
                idx ltac:(lia) (fun i _ => proj2 (cell_spec i c))) as Hc.
  pose proof (class_sum_by_timestamp o c) as Hcs. fold idx in Hcs. rewrite Hcs in Hc.
  destruct (group_sum_spec (map (fun i => cell data i c) idx)) as (Hf & Hb).
  - apply Forall_forall. intros x Hx. apply in_map_iff in Hx.
    destruct Hx as (i & <- & _). apply cell_spec.
  - rewrite length_map. pose proof (filter_length_le (fun i => month_ord i =? o) (pivot_index data)).
    fold idx in H. pose proof pivot_index_length. lia.
  - rewrite map_map. lia.
  - rewrite map_map in Hb. split; [exact Hf | lia].
Qed.

Lemma month_total o :
  zsum (map (class_sum data o) (pivot_columns data))
  = zsum (map (fun r => units (snd r))
              (filter (fun r => month_ord (fst (fst r)) =? o) data)).
Proof.
  rewrite <- (zsum_partition String.eqb String.eqb_eq
                             (fun r : Z * string * float => snd (fst r))
                             (fun r => units (snd r)) (pivot_columns data)).
  - reflexivity.
  - apply pivot_columns_NoDup.
  - intros r Hr. apply filter_In in Hr. destruct Hr as (Hr & _).
    apply pivot_columns_In. exists r. auto using all_kept.
Qed.

Lemma export_amounts (self : Partner.t) :
  map Payout.amount (Partner.export_payouts self data)
  = flat_map (fun o => map (monthly_amount data o) (pivot_columns data)) (months data).
Proof.
  rewrite export_payouts_spec.
  rewrite flat_map_concat_map, concat_map, map_map, <- flat_map_concat_map.
  apply flat_map_ext. intros o. rewrite map_map. cbn [Payout.amount].
  f_equal. apply forallb_filter_id.
  apply forallb_forall. intros c _. apply negb_true_iff.
  exact (finite_not_nan _ (proj1 (monthly_amount_spec o c))).
Qed.

Lemma export_close (self : Partner.t) :
  Forall (fun a => nonneg_finite a = true)
         (map Payout.amount (Partner.export_payouts self data)) /\
  2 ^ 47 * Z.abs (zsum (map units (map Payout.amount (Partner.export_payouts self data)))
                  - zsum (map (fun r => units (snd r)) data))
  <= zsum (map (fun r => units (snd r)) data).
Proof.
  rewrite export_amounts. split.
  - apply Forall_forall. intros a Ha. apply in_flat_map in Ha.
    destruct Ha as (o & _ & Ha). apply in_map_iff in Ha. destruct Ha as (c & <- & _).
    destruct (monthly_amount_spec o c) as (Hf & Hb). pose proof (class_sum_le o c).
    apply nonneg_finite_spec. split; [exact Hf | lia].
  - rewrite zsum_map_flat_map.
    rewrite <- (zsum_partition Z.eqb Z.eqb_eq
                               (fun r : Z * string * float => month_ord (fst (fst r)))
                               (fun r => units (snd r)) (months data)) at 1 2.
    + apply zsum_close_1; [lia|]. intros o _. rewrite <- month_total, map_map.
      apply zsum_close_1; [lia|]. intros c _. apply monthly_amount_spec.
    + apply month_range_NoDup.
    + intros r Hr. apply month_range_covers, in_map, pivot_index_In.
      exists r. auto using all_kept.
Qed.
End Conservation.

(** Regrouping is not exact in binary64: three payouts of one month and
    vault whose ledger sum (numpy, left to right) is [1e16] are exported as
    [1e16 + 2] (the compensated sum of the month). *)
Example regrouping_rounds :
  let ledger := [ (1609459200000000000, "V"%string, 1e16%float);
                  (1609545600000000000, "V"%string, 1%float);
                  (1609632000000000000, "V"%string, 1%float) ] in
  map Payout.amount (Partner.export_payouts partner_one ledger) = [10000000000000002%float] /\
  nansum (map snd ledger) = 1e16%float.
Proof. split; vm_compute; reflexivity. Qed.

(** C7. The exported monthly amounts of a partner add up to the per-event
    payouts of its ledger, up to the rounding of the export's sums.  For a
    ledger whose payouts are non-negative numbers or NaN (a payout is a
    share of a fee times a rate; the sums skip NaN), with at most [2^48]
    rows and payouts adding up to no more than [2^1000], every exported
    amount is a non-negative number, and the exact sum of the exported
    amounts differs from the exact sum of the ledger's payouts by at most
    [2^-47] of that sum (about [7e-15], relatively).  Both sums are taken
    without rounding, in units of [2^-1074]. *)
Theorem export_conserves_payouts (c : Chain) (self : Partner.t)
        (partner : list Ledger.t) (payouts : list (Payout.t float)) :
  Partner.process c self = Ok (partner, payouts) ->
  Forall (fun l => is_nan (Ledger.payout l) = true \/
                   nonneg_finite (Ledger.payout l) = true) partner ->
  Z.of_nat (List.length partner) <= 2 ^ 48 ->
  exact_sum (map Ledger.payout partner) <= 2 ^ 2074 ->
  Forall (fun p => nonneg_finite (Payout.amount p) = true) payouts /\
  2 ^ 47 * Z.abs (exact_sum (map Payout.amount payouts)
                  - exact_sum (map Ledger.payout partner))
  <= exact_sum (map Ledger.payout partner).
Proof.
  intros Hp Hall Hlen Hsum.
  destruct (process_inv _ _ _ _ Hp) as (rows & tiers & _ & _ & _ & Epay).
  assert (Es : zsum (map (fun r => units (snd r)) (Partner.payout_columns partner))
               = exact_sum (map Ledger.payout partner))
    by (unfold exact_sum, Partner.payout_columns; now rewrite !map_map).
  destruct (export_close (Partner.payout_columns partner)) with (self := self) as (Hf & Hb).
  - intros r Hr. unfold Partner.payout_columns in Hr. apply in_map_iff in Hr.
    destruct Hr as (l & <- & Hl). cbn [snd].
    rewrite Forall_forall in Hall. destruct (Hall l Hl) as [Hn|Hn]; [now left|].
    right. now apply nonneg_finite_spec.
  - unfold Partner.payout_columns. now rewrite length_map.
  - now rewrite Es.
  - rewrite Es in Hb. rewrite Epay. split.
    + rewrite Forall_map in Hf. exact Hf.
    + exact Hb.
Qed.

Lemma export_conserves_payouts_witness :
  exists partner payouts,
    Partner.process chain_rich partner_rich = Ok (partner, payouts) /\
    Forall (fun l => is_nan (Ledger.payout l) = true \/
                     nonneg_finite (Ledger.payout l) = true) partner /\
    Z.of_nat (List.length partner) <= 2 ^ 48 /\
    exact_sum (map Ledger.payout partner) <= 2 ^ 2074 /\
    0 < exact_sum (map Ledger.payout partner) /\
    2 ^ 47 * Z.abs (exact_sum (map Payout.amount payouts)
                    - exact_sum (map Ledger.payout partner))
    <= exact_sum (map Ledger.payout partner).
Proof.
  destruct (Partner.process chain_rich partner_rich) as [[partner payouts]|] eqn:E;
    [|vm_compute in E; discriminate E].
  exists partner, payouts. split; [reflexivity|].
  assert (H1 : Forall (fun l => is_nan (Ledger.payout l) = true \/
                                nonneg_finite (Ledger.payout l) = true) partner).
  { pose proof E as E'. vm_compute in E'. injection E' as <- _.
    repeat constructor; right; vm_compute; reflexivity. }
  assert (H2 : Z.of_nat (List.length partner) <= 2 ^ 48).
  { pose proof E as E'. vm_compute in E'. injection E' as <- _.
    apply Z.leb_le. vm_compute. reflexivity. }
  assert (H3 : exact_sum (map Ledger.payout partner) <= 2 ^ 2074).
  { pose proof E as E'. vm_compute in E'. injection E' as <- _.
    apply Z.leb_le. vm_compute. reflexivity. }
  assert (H4 : 0 < exact_sum (map Ledger.payout partner)).
  { pose proof E as E'. vm_compute in E'. injection E' as <- _.
    apply Z.ltb_lt. vm_compute. reflexivity. }
  split; [exact H1|]. split; [exact H2|]. split; [exact H3|]. split; [exact H4|].
  exact (proj2 (export_conserves_payouts chain_rich partner_rich partner payouts E H1 H2 H3)).
Defined.

(** * Further properties of the module *)

(** ** List indexing, [sorted] and [bisect_right] *)

Lemma nth_error_Some_ex {A : Type} (xs : list A) n :
  (n < List.length xs)%nat -> exists x, nth_error xs n = Some x.
Proof.
  intros Hn. destruct (nth_error xs n) eqn:E; [eauto|].
  apply nth_error_None in E. lia.
Qed.

Lemma getitem_spec {A : Type} (xs : list A) (i : Z) :
  (- Z.of_nat (List.length xs) <= i < Z.of_nat (List.length xs) ->
   exists x, getitem xs i = Ok x) /\
  (i < - Z.of_nat (List.length xs) \/ Z.of_nat (List.length xs) <= i ->
   getitem xs i = Raise IndexError) /\
  (0 <= i < Z.of_nat (List.length xs) ->
   getitem xs i = match nth_error xs (Z.to_nat i) with
                  | Some x => Ok x
                  | None => Raise IndexError
                  end) /\
  (- Z.of_nat (List.length xs) <= i < 0 ->
   getitem xs i = getitem xs (i + Z.of_nat (List.length xs))).
Proof.
  unfold getitem. cbv zeta. repeat split.
  - intros Hi. destruct (Z.ltb_spec i 0).
    + replace ((0 <=? i + _) && (i + _ <? _)) with true
        by (symmetry; apply andb_true_iff; split; [apply Z.leb_le | apply Z.ltb_lt]; lia).
      destruct (nth_error_Some_ex xs (Z.to_nat (i + Z.of_nat (List.length xs)))) as (x & ->);
        [lia | eauto].
    + replace ((0 <=? i) && (i <? _)) with true
        by (symmetry; apply andb_true_iff; split; [apply Z.leb_le | apply Z.ltb_lt]; lia).
      destruct (nth_error_Some_ex xs (Z.to_nat i)) as (x & ->); [lia | eauto].
  - intros Hi. destruct (Z.ltb_spec i 0).
    + replace (0 <=? i + Z.of_nat (List.length xs)) with false
        by (symmetry; apply Z.leb_gt; lia). reflexivity.
    + replace (i <? Z.of_nat (List.length xs)) with false
        by (symmetry; apply Z.ltb_ge; lia). now rewrite andb_false_r.
  - intros Hi. destruct (Z.ltb_spec i 0); [lia|].
    replace ((0 <=? i) && (i <? _)) with true
      by (symmetry; apply andb_true_iff; split; [apply Z.leb_le | apply Z.ltb_lt]; lia).
    reflexivity.
  - intros Hi. destruct (Z.ltb_spec i 0); [|lia].
    destruct (Z.ltb_spec (i + Z.of_nat (List.length xs)) 0); [lia|]. reflexivity.
Qed.

Section BisectBounds.
Context {A K : Type} (lt : A -> K -> bool) (dflt : K) (a : list K) (x : A).

Lemma bisect_loop_bounds lo hi :
  lo <= hi -> lo <= bisect_loop lt dflt a x lo hi <= hi.
Proof.
  funelim (bisect_loop lt dflt a x lo hi); intros Hle.
  - assert (Hm : lo <= (lo + hi) / 2 < hi)
      by (split; [apply Z.div_le_lower_bound | apply Z.div_lt_upper_bound]; lia).
    destruct (lt x (nth (Z.to_nat ((lo + hi) / 2)) a dflt)).
    + match goal with IH : _ -> _ <= bisect_loop _ _ _ _ lo _ <= _ |- _ =>
        specialize (IH ltac:(lia)) end. lia.
    + match goal with IH : _ -> _ <= bisect_loop _ _ _ _ _ hi <= _ |- _ =>
        specialize (IH ltac:(lia)) end. lia.
  - lia.
Qed.
End BisectBounds.

(** Whatever the list and the comparison, sorted or not, [bisect_right]
    returns an insertion point between 0 and the length; so on a list that
    is not empty, [a[bisect_right(a, x) - 1]] never raises: at insertion
    point 0 the index -1 reads the last element. *)
Theorem bisect_right_index_in_range {A K : Type} (lt : A -> K -> bool) (dflt : K)
        (a : list K) (x : A) :
  0 <= bisect_right lt dflt a x <= Z.of_nat (List.length a) /\
  (a <> [] -> exists k, getitem a (bisect_right lt dflt a x - 1) = Ok k) /\
  (a <> [] -> bisect_right lt dflt a x = 0 ->
   getitem a (bisect_right lt dflt a x - 1) = Ok (last a dflt)).
Proof.
  assert (B : 0 <= bisect_right lt dflt a x <= Z.of_nat (List.length a))
    by (unfold bisect_right; apply bisect_loop_bounds; lia).
  split; [exact B|]. split.
  - intros Hne. apply getitem_spec.
    destruct a; [contradiction | cbn [List.length] in *; lia].
  - intros Hne E. rewrite E. unfold getitem. cbv zeta.
    destruct a as [|k a']; [contradiction|].
    replace (0 - 1 <? 0) with true by reflexivity.
    replace ((0 <=? 0 - 1 + Z.of_nat (List.length (k :: a'))) &&
             (0 - 1 + Z.of_nat (List.length (k :: a')) <? Z.of_nat (List.length (k :: a'))))
      with true
      by (symmetry; apply andb_true_iff; split; [apply Z.leb_le | apply Z.ltb_lt];
          cbn [List.length]; lia).
    replace (Z.to_nat (0 - 1 + Z.of_nat (List.length (k :: a')))) with (List.length a')
      by (cbn [List.length]; lia).
    clear. revert k. induction a' as [|y a' IH]; intros k; [reflexivity|].
    cbn [List.length nth_error]. rewrite IH. reflexivity.
Qed.

Lemma bisect_right_index_in_range_witness :
  [3; 1; 2] <> [] /\
  exists k, getitem [3; 1; 2] (bisect_right Z.ltb 0 [3; 1; 2] 0 - 1) = Ok k.
Proof.
  split; [discriminate|].
  exact (proj1 (proj2 (bisect_right_index_in_range Z.ltb 0 [3; 1; 2] 0))
               ltac:(discriminate)).
Defined.

(** On a list on which [x < a[i]] only turns from false to true as [i]
    grows (a sorted list), [bisect_right] returns the point where it turns:
    the test fails at every position before the result and holds at every
    position from it on. *)
Theorem bisect_right_partition_point {A K : Type} (lt : A -> K -> bool) (dflt : K)
        (a : list K) (x : A) :
  (forall i j, 0 <= i <= j -> j < Z.of_nat (List.length a) ->
               below lt dflt a x i = true -> below lt dflt a x j = true) ->
  0 <= bisect_right lt dflt a x <= Z.of_nat (List.length a) /\
  (forall i, 0 <= i < bisect_right lt dflt a x -> below lt dflt a x i = false) /\
  (forall i, bisect_right lt dflt a x <= i < Z.of_nat (List.length a) ->
             below lt dflt a x i = true).
Proof. intros Hmono. exact (bisect_right_spec lt dflt a x Hmono). Qed.

Lemma bisect_right_partition_point_witness :
  (forall i j, 0 <= i <= j -> j < Z.of_nat (List.length [1; 3; 3; 8]) ->
               below Z.ltb 0 [1; 3; 3; 8] 3 i = true ->
               below Z.ltb 0 [1; 3; 3; 8] 3 j = true) /\
  bisect_right Z.ltb 0 [1; 3; 3; 8] 3 = 3 /\
  (forall i, 0 <= i < bisect_right Z.ltb 0 [1; 3; 3; 8] 3 ->
             below Z.ltb 0 [1; 3; 3; 8] 3 i = false).
Proof.
  assert (M : forall i j, 0 <= i <= j -> j < Z.of_nat (List.length [1; 3; 3; 8]) ->
                          below Z.ltb 0 [1; 3; 3; 8] 3 i = true ->
                          below Z.ltb 0 [1; 3; 3; 8] 3 j = true).
  { intros i j Hi Hj. cbn [List.length] in Hj.
    assert (Ei : i = 0 \/ i = 1 \/ i = 2 \/ i = 3) by lia.
    assert (Ej : j = 0 \/ j = 1 \/ j = 2 \/ j = 3) by lia.
    destruct Ei as [ -> | [ -> | [ -> | -> ] ] ], Ej as [ -> | [ -> | [ -> | -> ] ] ];
      cbn; first [lia | discriminate | reflexivity]. }
  split; [exact M | split; [reflexivity|]].
  exact (proj1 (proj2 (bisect_right_partition_point Z.ltb 0 [1; 3; 3; 8] 3 M))).
Defined.

(** ** [get_tier] on any amount *)

Lemma tier_at_in_table r :
  0 <= r <= 10 ->
  exists k t, tier_at r = Ok t /\ In (k, t) TIERS /\
              PrimFloat.leb 0 t = true /\ PrimFloat.leb t 0.5 = true.
Proof.
  intros Hr.
  assert (E : exists n, r = Z.of_nat n /\ (n <= 10)%nat) by (exists (Z.to_nat r); lia).
  destruct E as (n & -> & Hn).
  do 11 (destruct n as [|n];
         [do 2 eexists; split; [reflexivity|]; split;
          [cbn; repeat (first [left; reflexivity | right]) | split; reflexivity]|]).
  lia.
Qed.

(** [get_tier] never raises, whatever the amount (negative, infinite or NaN
    included): the index it computes is always valid and the key it reads is
    a key of [TIERS].  The rate it returns is one of the rates of the table,
    between 0 and 0.5. *)
Theorem get_tier_never_raises (amount : float) :
  exists k rate,
    get_tier amount = Ok rate /\ In (k, rate) TIERS /\
    PrimFloat.leb 0 rate = true /\ PrimFloat.leb rate 0.5 = true.
Proof.
  rewrite get_tier_unfold.
  destruct (bisect_tier_split amount) as (Hr & _ & _).
  exact (tier_at_in_table _ Hr).
Qed.

(** Every amount that is not below the last threshold gets the top rate:
    amounts from 1e9 on, plus infinity, and NaN, which compares false with
    every key. *)
Theorem get_tier_top_rate (amount : float) :
  PrimFloat.ltb amount 1000000000 = false ->
  get_tier amount = Ok 0.5%float.
Proof.
  intros Hge. rewrite get_tier_unfold.
  destruct (bisect_tier_split amount) as (Hr & _ & Habove).
  destruct (Z.eq_dec (bisect_right lt_int 0 tier_keys amount) 10) as [->|Hne];
    [reflexivity|].
  pose proof (Habove 9 ltac:(lia)) as F. vm_compute in F.
  rewrite Hge in F. discriminate F.
Qed.

Lemma get_tier_top_rate_witness :
  PrimFloat.ltb nan 1000000000 = false /\ get_tier nan = Ok 0.5%float.
Proof. split; [reflexivity | apply (get_tier_top_rate nan); reflexivity]. Defined.

(** ** Dicts and [get_protocol_fees] *)

Lemma dict_get_set {V : Type} (d : dict V) k v k' :
  dict_get (dict_set d k v) k' = if k' =? k then Ok v else dict_get d k'.
Proof.
  induction d as [|[k0 v0] d IH]; cbn.
  - destruct (k' =? k); reflexivity.
  - destruct (Z.eqb_spec k k0) as [->|Hne]; cbn.
    + destruct (k' =? k0); reflexivity.
    + destruct (Z.eqb_spec k' k0) as [->|Hne'].
      * destruct (Z.eqb_spec k0 k); [congruence | reflexivity].
      * exact IH.
Qed.

Lemma dict_keys_set_old {V : Type} (d : dict V) k v :
  In k (dict_keys d) -> dict_keys (dict_set d k v) = dict_keys d.
Proof.
  unfold dict_keys. induction d as [|[k0 v0] d IH]; intros Hin; [destruct Hin|].
  cbn [dict_set]. destruct (Z.eqb_spec k k0) as [->|Hne]; [reflexivity|].
  cbn [map fst]. f_equal. apply IH. destruct Hin as [E|Hin]; [cbn in E; congruence | exact Hin].
Qed.

Lemma dict_keys_set_new {V : Type} (d : dict V) k v :
  ~ In k (dict_keys d) -> dict_keys (dict_set d k v) = dict_keys d ++ [k].
Proof.
  unfold dict_keys. induction d as [|[k0 v0] d IH]; intros Hnotin; [reflexivity|].
  cbn [dict_set]. destruct (Z.eqb_spec k k0) as [->|Hne].
  - exfalso. apply Hnotin. now left.
  - cbn [map fst app]. f_equal. apply IH. intros Hin. apply Hnotin. now right.
Qed.

Lemma dict_keys_set {V : Type} (d : dict V) k v :
  dict_keys (dict_set d k v)
  = if in_dec Z.eq_dec k (dict_keys d) then dict_keys d else dict_keys d ++ [k].
Proof.
  destruct (in_dec Z.eq_dec k (dict_keys d));
    [now apply dict_keys_set_old | now apply dict_keys_set_new].
Qed.

Lemma dict_of_snoc {V : Type} (kvs : list (Z * V)) k v :
  dict_of (kvs ++ [(k, v)]) = dict_set (dict_of kvs) k v.
Proof. unfold dict_of. now rewrite fold_left_app. Qed.

Lemma last_value_snoc {V : Type} (kvs : list (Z * V)) k v k' :
  last_value (kvs ++ [(k, v)]) k' = if k =? k' then Some v else last_value kvs k'.
Proof. unfold last_value. now rewrite fold_left_app. Qed.

Lemma dict_of_get {V : Type} (kvs : list (Z * V)) k :
  dict_get (dict_of kvs) k = match last_value kvs k with
                             | Some v => Ok v
                             | None => Raise KeyError
                             end.
Proof.
  induction kvs as [|[k0 v0] kvs IH] using rev_ind; [reflexivity|].
  rewrite dict_of_snoc, dict_get_set, last_value_snoc, IH, (Z.eqb_sym k0 k).
  destruct (k =? k0); reflexivity.
Qed.

Lemma dict_of_keys_NoDup {V : Type} (kvs : list (Z * V)) : NoDup (dict_keys (dict_of kvs)).
Proof.
  induction kvs as [|[k0 v0] kvs IH] using rev_ind; [constructor|].
  rewrite dict_of_snoc, dict_keys_set.
  destruct (in_dec Z.eq_dec k0 (dict_keys (dict_of kvs))) as [|Hnotin]; [exact IH|].
  apply NoDup_app; [exact IH | repeat constructor; intros [] |].
  intros a Ha [<-|[]]. contradiction.
Qed.

Lemma dict_of_keys_In {V : Type} (kvs : list (Z * V)) k :
  In k (dict_keys (dict_of kvs)) <-> In k (map fst kvs).
Proof.
  induction kvs as [|[k0 v0] kvs IH] using rev_ind; [reflexivity|].
  rewrite dict_of_snoc, dict_keys_set, map_app, in_app_iff. cbn [map fst In].
  destruct (in_dec Z.eq_dec k0 (dict_keys (dict_of kvs))) as [Hin|Hnotin].
  - rewrite IH. split; [tauto|]. intros [H|[<-|[]]]; [exact H | now apply IH].
  - rewrite in_app_iff, IH. cbn [In]. tauto.
Qed.

Lemma last_value_None {V : Type} (kvs : list (Z * V)) k :
  last_value kvs k = None <-> ~ In k (map fst kvs).
Proof.
  induction kvs as [|[k0 v0] kvs IH] using rev_ind; [cbn; tauto|].
  rewrite last_value_snoc, map_app, in_app_iff. cbn [map fst In].
  destruct (Z.eqb_spec k0 k) as [->|Hne].
  - split; [discriminate | intros Hn; exfalso; apply Hn; right; now left].
  - rewrite IH. split; [intros Hn [H|[E|[]]]; [contradiction | congruence] | tauto].
Qed.

(** The fees of a vault hold one amount per block: looking a block up gives
    the amount of the last fee transfer logged in that block, and raises
    [KeyError] exactly when no transfer was logged in it.  So when two fee
    transfers fall into one block, the earlier one is dropped, not added. *)
Theorem get_protocol_fees_last_transfer (c : Chain) (address : string) (b : Z) :
  dict_get (get_protocol_fees c address) b
  = match last_value (fee_logs c address) b with
    | Some fee => Ok fee
    | None => Raise KeyError
    end /\
  (dict_get (get_protocol_fees c address) b = Raise KeyError <->
   ~ In b (map fst (fee_logs c address))) /\
  (forall before after fee1 fee2,
     fee_logs c address = before ++ [(b, fee1)] ++ after ++ [(b, fee2)] ->
     dict_get (get_protocol_fees c address) b = Ok fee2).
Proof.
  unfold get_protocol_fees. split; [apply dict_of_get|]. split.
  - rewrite dict_of_get, <- last_value_None.
    destruct (last_value (fee_logs c address) b); split; congruence.
  - intros before after fee1 fee2 E. rewrite dict_of_get, E.
    rewrite !app_assoc, last_value_snoc, Z.eqb_refl. reflexivity.
Qed.

(** The blocks of the fees of a vault are distinct, they are exactly the
    blocks that have a fee transfer, and there are no more of them than
    transfers. *)
Theorem get_protocol_fees_blocks (c : Chain) (address : string) :
  NoDup (dict_keys (get_protocol_fees c address)) /\
  (forall b, In b (dict_keys (get_protocol_fees c address)) <->
             In b (map fst (fee_logs c address))) /\
  (List.length (get_protocol_fees c address) <= List.length (fee_logs c address))%nat.
Proof.
  unfold get_protocol_fees. split; [apply dict_of_keys_NoDup|].
  split; [intros b; apply dict_of_keys_In|].
  rewrite <- (length_map fst (dict_of _)), <- (length_map fst (fee_logs _ _)).
  apply NoDup_incl_length; [apply dict_of_keys_NoDup|].
  intros b Hb. now apply dict_of_keys_In.
Qed.

Lemma first_keys_snoc_old {V : Type} (kvs : list (Z * V)) seen k v :
  In k (seen ++ map fst kvs) ->
  first_keys seen (kvs ++ [(k, v)]) = first_keys seen kvs.
Proof.
  revert seen. induction kvs as [|[k0 v0] kvs IH]; intros seen Hin.
  - cbn. rewrite app_nil_r in Hin. destruct (in_dec Z.eq_dec k seen); [reflexivity|contradiction].
  - cbn [app first_keys]. destruct (in_dec Z.eq_dec k0 seen).
    + apply IH. apply in_app_iff in Hin. cbn [map fst In] in Hin. apply in_app_iff.
      destruct Hin as [H|[<-|H]]; auto.
    + f_equal. apply IH. apply in_app_iff in Hin. cbn [map fst In] in Hin.
      apply in_app_iff. cbn [In]. tauto.
Qed.

Lemma first_keys_snoc_new {V : Type} (kvs : list (Z * V)) seen k v :
  ~ In k (seen ++ map fst kvs) ->
  first_keys seen (kvs ++ [(k, v)]) = first_keys seen kvs ++ [k].
Proof.
  revert seen. induction kvs as [|[k0 v0] kvs IH]; intros seen Hnotin.
  - cbn. rewrite app_nil_r in Hnotin.
    destruct (in_dec Z.eq_dec k seen); [contradiction | reflexivity].
  - cbn [app first_keys]. rewrite in_app_iff in Hnotin. cbn [map fst In] in Hnotin.
    destruct (in_dec Z.eq_dec k0 seen).
    + apply IH. rewrite in_app_iff. tauto.
    + cbn [app]. f_equal. apply IH. rewrite in_app_iff. cbn [In]. tauto.
Qed.

(** The fees keep their blocks in the order in which the blocks first occur
    in the logs. *)
Theorem get_protocol_fees_block_order (c : Chain) (address : string) :
  dict_keys (get_protocol_fees c address) = first_keys [] (fee_logs c address).
Proof.
  unfold get_protocol_fees.
  induction (fee_logs c address) as [|[k v] kvs IH] using rev_ind; [reflexivity|].
  rewrite dict_of_snoc.
  destruct (in_dec Z.eq_dec k (dict_keys (dict_of kvs))) as [Hin|Hnotin].
  - rewrite dict_keys_set_old by exact Hin.
    rewrite first_keys_snoc_old; [exact IH|]. cbn [app]. now apply dict_of_keys_In.
  - rewrite dict_keys_set_new by exact Hnotin.
    rewrite first_keys_snoc_new; [now rewrite IH|].
    cbn [app]. intros Hin. apply Hnotin. now apply dict_of_keys_In.
Qed.

(** ** The frame of a wrapper *)

(** The frame of a wrapper has one row per block of the fees of its vault,
    in the order of the fees, so no block is repeated within a frame; every
    row carries the wrapper's address and vault, the timestamp
    [pd.to_datetime] gives to the time of its block and
    [balance_usd = balance * vault_price]. *)
Theorem wrap_one_row_per_block (c : Chain) (w : Wrapper.t) (rows : list Row.t) :
  Partner.wrap c w = Ok rows ->
  map Row.block rows = dict_keys (get_protocol_fees c (Wrapper.vault w)) /\
  map Row.protocol_fee rows = map snd (get_protocol_fees c (Wrapper.vault w)) /\
  NoDup (map Row.block rows) /\
  rows <> [] /\
  (forall r, In r rows ->
     Row.wrapper r = Wrapper.wrapper w /\
     Row.vault r = Wrapper.vault w /\
     to_timestamp (get_block_timestamp c (Row.block r)) = Ok (Row.timestamp r) /\
     Row.balance r = balanceOf c (Wrapper.vault w) (Wrapper.wrapper w) (Row.block r) /\
     Row.total_supply r = totalSupply c (Wrapper.vault w) (Row.block r) /\
     Row.vault_price r = get_price c (Wrapper.vault w) (Row.block r) /\
     Row.balance_usd r = (Row.balance r * Row.vault_price r)%float).
Proof.
  intros Hw. apply wrap_Ok in Hw. destruct Hw as (Hne & Hd & ->).
  assert (Hb : map Row.block (map (row_of c w) (get_protocol_fees c (Wrapper.vault w)))
               = dict_keys (get_protocol_fees c (Wrapper.vault w)))
    by (unfold dict_keys; rewrite map_map; reflexivity).
  split; [exact Hb|]. split; [rewrite map_map; reflexivity|].
  split; [rewrite Hb; apply dict_of_keys_NoDup|].
  split; [destruct (get_protocol_fees c (Wrapper.vault w)); [contradiction | discriminate]|].
  intros r Hr. apply in_map_iff in Hr. destruct Hr as (ev & <- & Hev).
  cbn [row_of Row.make Row.wrapper Row.vault Row.timestamp Row.block Row.balance
       Row.total_supply Row.vault_price Row.balance_usd].
  repeat split. apply datable_true, Hd. unfold dict_keys. now apply in_map.
Qed.

Lemma wrap_one_row_per_block_witness :
  exists rows,
    Partner.wrap chain_rich (wrapper_of "a" "R") = Ok rows /\
    map Row.block rows = [10; 20] /\
    map Row.protocol_fee rows = [300%float; 200%float] /\
    map Row.timestamp rows = [1629459200000000000; 1649459200000000000] /\
    NoDup (map Row.block rows).
Proof.
  destruct (Partner.wrap chain_rich (wrapper_of "a" "R")) as [rows|] eqn:E;
    [|vm_compute in E; discriminate E].
  exists rows. split; [reflexivity|].
  pose proof (wrap_one_row_per_block chain_rich (wrapper_of "a" "R") rows E)
    as (_ & _ & Hnd & _).
  vm_compute in E. injection E as <-.
  split; [reflexivity | split; [reflexivity | split; [reflexivity | exact Hnd]]].
Defined.

(** Two wrappers on one vault get rows for the same blocks, with the same
    timestamps, protocol fees, total supplies and prices: only the balance,
    and the columns derived from it, tell their rows apart. *)
Theorem wrap_same_vault (c : Chain) (w1 w2 : Wrapper.t) (rows1 rows2 : list Row.t) :
  Wrapper.vault w1 = Wrapper.vault w2 ->
  Partner.wrap c w1 = Ok rows1 ->
  Partner.wrap c w2 = Ok rows2 ->
  map (fun r => (Row.block r, Row.timestamp r, Row.protocol_fee r,
                 Row.total_supply r, Row.vault_price r, Row.vault r)) rows1
  = map (fun r => (Row.block r, Row.timestamp r, Row.protocol_fee r,
                   Row.total_supply r, Row.vault_price r, Row.vault r)) rows2.
Proof.
  intros Ev H1 H2. apply wrap_Ok in H1, H2.
  destruct H1 as (_ & _ & ->), H2 as (_ & _ & ->).
  rewrite Ev, !map_map. apply map_ext. intros ev. cbn. now rewrite Ev.
Qed.

Lemma wrap_same_vault_witness :
  exists rows1 rows2,
    Wrapper.vault (wrapper_of "a" "R") = Wrapper.vault (wrapper_of "b" "R") /\
    Partner.wrap chain_rich (wrapper_of "a" "R") = Ok rows1 /\
    Partner.wrap chain_rich (wrapper_of "b" "R") = Ok rows2 /\
    map Row.balance rows1 <> map Row.balance rows2 /\
    map (fun r => (Row.block r, Row.timestamp r, Row.protocol_fee r,
                   Row.total_supply r, Row.vault_price r, Row.vault r)) rows1
    = map (fun r => (Row.block r, Row.timestamp r, Row.protocol_fee r,
                     Row.total_supply r, Row.vault_price r, Row.vault r)) rows2.
Proof.
  destruct (Partner.wrap chain_rich (wrapper_of "a" "R")) as [rows1|] eqn:E1;
    [|vm_compute in E1; discriminate E1].
  destruct (Partner.wrap chain_rich (wrapper_of "b" "R")) as [rows2|] eqn:E2;
    [|vm_compute in E2; discriminate E2].
  exists rows1, rows2. split; [reflexivity|]. split; [reflexivity|]. split; [reflexivity|].
  split.
  - vm_compute in E1, E2. injection E1 as <-. injection E2 as <-. discriminate.
  - exact (wrap_same_vault chain_rich (wrapper_of "a" "R") (wrapper_of "b" "R")
                           rows1 rows2 eq_refl E1 E2).
Defined.

(** ** When [process] returns *)


Lemma process_Ok_inv c self res :
  Partner.process c self = Ok res -> processable c self.
Proof.
  destruct res as [partner payouts]. intros Hp.
  destruct (process_inv _ _ _ _ Hp) as (rows & tiers & Hs & _).
  destruct (snapshot_inv _ _ _ Hs) as (frames & Hm & Hne & _).
  apply mapM_Ok in Hm. split.
  - intros E. rewrite E in Hm. inversion Hm; subst. contradiction.
  - intros w Hw. destruct (Forall2_In_l _ _ _ _ Hm Hw) as (f & _ & Hwf).
    apply wrap_Ok in Hwf. destruct Hwf as (Hne' & Hd & _).
    split; [|exact Hd]. intros Hlogs. apply Hne'.
    unfold get_protocol_fees. now rewrite Hlogs.
Qed.

Lemma processable_Ok c self :
  processable c self -> exists res, Partner.process c self = Ok res.
Proof.
  intros (Hne & Hall).
  destruct (process_total c self Hne (fun w Hw => proj1 (Hall w Hw))
                          (fun w Hw => proj2 (Hall w Hw))) as (partner & payouts & E).
  eauto.
Qed.


(** ** The order of the ledger *)

(** Sorting by a total preorder. *)
Section LeSort.
Context {K : Type} (leb : K -> K -> bool).
Hypothesis leb_trans : forall x y z, leb x y = true -> leb y z = true -> leb x z = true.
Hypothesis leb_total : forall x y, leb x y = false -> leb y x = true.

Lemma insert_sorted_leb x xs :
  StronglySorted (fun a b => leb a b = true) xs ->
  StronglySorted (fun a b => leb a b = true) (insert_sorted leb x xs).
Proof.
  induction 1 as [|y ys Hs IH Hall]; cbn.
  - repeat constructor.
  - rewrite Forall_forall in Hall. destruct (leb x y) eqn:E.
    + constructor; [constructor; [assumption | now apply Forall_forall]|].
      constructor; [exact E|]. apply Forall_forall. intros z Hz.
      exact (leb_trans _ _ _ E (Hall z Hz)).
    + constructor; [exact IH|].
      apply Forall_forall. intros z Hz.
      apply (Permutation_in _ (insert_sorted_perm leb x ys)) in Hz.
      destruct Hz as [<-|Hz]; [now apply leb_total | now apply Hall].
Qed.

Lemma sort_by_leb_sorted xs :
  StronglySorted (fun a b => leb a b = true) (sort_by leb xs).
Proof.
  induction xs as [|x xs IH]; [constructor|].
  change (sort_by leb (x :: xs)) with (insert_sorted leb x (sort_by leb xs)).
  now apply insert_sorted_leb.
Qed.

Hypothesis leb_antisym : forall x y, leb x y = true -> leb y x = true -> x = y.

Lemma sorted_perm_eq xs ys :
  StronglySorted (fun a b => leb a b = true) xs ->
  StronglySorted (fun a b => leb a b = true) ys ->
  Permutation xs ys -> xs = ys.
Proof.
  intros Hxs. revert ys. induction Hxs as [|x xs Hs IH Hall]; intros ys Hys Hp.
  - apply Permutation_nil in Hp. now subst.
  - destruct Hys as [|y ys Hs' Hall'].
    + apply Permutation_sym, Permutation_nil in Hp. discriminate Hp.
    + rewrite Forall_forall in Hall, Hall'.
      assert (Exy : x = y).
      { assert (Hx : In x (y :: ys)) by (apply (Permutation_in _ Hp); now left).
        assert (Hy : In y (x :: xs))
          by (apply (Permutation_in _ (Permutation_sym Hp)); now left).
        destruct Hx as [E|Hx]; [now symmetry|].
        destruct Hy as [E|Hy]; [assumption|].
        apply leb_antisym; [now apply Hall | now apply Hall']. }
      subst y. f_equal. apply IH; [assumption|].
      exact (Permutation_cons_inv Hp).
Qed.
End LeSort.

Lemma StronglySorted_map {A B : Type} (R : B -> B -> Prop) (f : A -> B) xs :
  StronglySorted (fun a a' => R (f a) (f a')) xs <-> StronglySorted R (map f xs).
Proof.
  induction xs as [|x xs IH]; cbn [map].
  - split; constructor.
  - split; intros Hs; inversion Hs as [|? ? Hs' Hall]; subst;
      (constructor; [now apply IH|]).
    + apply Forall_forall. intros b Hb. apply in_map_iff in Hb.
      destruct Hb as (a & <- & Ha). rewrite Forall_forall in Hall. now apply Hall.
    + apply Forall_forall. intros a Ha. rewrite Forall_forall in Hall.
      apply Hall, in_map, Ha.
Qed.

Lemma is_unique_NoDup idx : is_unique idx = true <-> NoDup idx.
Proof.
  induction idx as [|i idx IH]; cbn [is_unique].
  - split; [constructor | reflexivity].
  - rewrite andb_true_iff, negb_true_iff, IH, NoDup_cons_iff.
    assert (E : existsb (Z.eqb i) idx = false <-> ~ In i idx).
    { destruct (existsb (Z.eqb i) idx) eqn:Ex.
      - apply existsb_exists in Ex. destruct Ex as (j & Hj & Ej).
        apply Z.eqb_eq in Ej. subst j. split; [discriminate | contradiction].
      - split; [|reflexivity]. intros _ Hin.
        assert (F : existsb (Z.eqb i) idx = true)
          by (apply existsb_exists; exists i; split; [assumption | apply Z.eqb_refl]).
        congruence. }
    now rewrite E.
Qed.

Lemma is_monotonic_sorted idx : is_monotonic idx = true -> StronglySorted Z.le idx.
Proof.
  intros Hm. apply Sorted_StronglySorted; [intros x y z; apply Z.le_trans|].
  induction idx as [|i idx IH]; [constructor|].
  destruct idx as [|j idx]; [repeat constructor|].
  cbn [is_monotonic] in Hm. apply andb_true_iff in Hm. destruct Hm as (Hij & Hm).
  constructor; [now apply IH|]. constructor. now apply Z.leb_le.
Qed.

Lemma tiers_of_nil totals : Partner.tiers_of totals = Ok [] -> totals = [].
Proof.
  unfold Partner.tiers_of. destruct totals as [|[b v] totals]; [reflexivity|].
  cbn [mapM]. destruct (bind (get_tier (snd (b, v))) _) as [t|]; cbn [bind]; [|discriminate].
  destruct (mapM _ totals); cbn [bind]; discriminate.
Qed.

(** With a block that repeats and a balance series that is not empty, the
    join returns the rows in block order. *)
Lemma join_index_sorted rows tiers :
  ~ NoDup (map Row.block rows) -> tiers <> [] ->
  StronglySorted (fun r r' => Row.block r <= Row.block r') (Partner.join_index rows tiers).
Proof.
  intros Hnd Hne. unfold Partner.join_index.
  destruct tiers as [|t tiers]; [contradiction|].
  destruct (is_unique (map Row.block rows)) eqn:Eu;
    [apply is_unique_NoDup in Eu; contradiction|].
  destruct (is_monotonic (map Row.block rows)) eqn:Em; cbn [negb andb].
  - apply StronglySorted_map. now apply is_monotonic_sorted.
  - pose proof (sort_by_leb_sorted (fun r r' => Row.block r <=? Row.block r')) as S.
    eapply StronglySorted_ind
      with (P := StronglySorted (fun r r' => Row.block r <= Row.block r'));
      [constructor | | apply S].
    + intros a l _ IH Hall. constructor; [exact IH|].
      eapply Forall_impl; [|exact Hall]. cbn. intros; now apply Z.leb_le.
    + intros x y z Hxy Hyz. apply Z.leb_le in Hxy, Hyz. apply Z.leb_le. lia.
    + intros x y Hxy. apply Z.leb_gt in Hxy. apply Z.leb_le. lia.
Qed.

Lemma join_index_unique rows tiers :
  NoDup (map Row.block rows) -> Partner.join_index rows tiers = rows.
Proof.
  intros Hnd. unfold Partner.join_index. destruct tiers; [reflexivity|].
  apply is_unique_NoDup in Hnd. now rewrite Hnd.
Qed.

Lemma frames_keys c ws frames :
  Forall2 (fun w f => Partner.wrap c w = Ok f) ws frames ->
  map (fun r => (Row.wrapper r, Row.block r)) (List.concat frames) = wrapper_blocks c ws.
Proof.
  unfold wrapper_blocks.
  induction 1 as [|w f ws frames Hw _ IH]; [reflexivity|].
  cbn [List.concat flat_map]. rewrite map_app, IH. f_equal.
  apply wrap_Ok in Hw. destruct Hw as (_ & _ & ->).
  unfold dict_keys. rewrite !map_map. reflexivity.
Qed.

(** The ledger has one row per wrapper and block of the fees of the
    wrapper's vault.  The rows of one block come in the order of the
    partner's wrappers.  When no block occurs twice, the ledger lists the
    wrappers one after the other, each with its blocks in the order of the
    fees; when a block occurs twice (two wrappers on one vault, or two
    vaults with a fee event in one block), the ledger is in block order. *)
Theorem ledger_one_row_per_wrapper_block (c : Chain) (self : Partner.t)
        (partner : list Ledger.t) (payouts : list (Payout.t float)) :
  Partner.process c self = Ok (partner, payouts) ->
  Permutation (map ledger_key partner) (wrapper_blocks c (Partner.wrappers self)) /\
  List.length partner
  = list_sum (map (fun w => List.length (get_protocol_fees c (Wrapper.vault w)))
                  (Partner.wrappers self)) /\
  (forall b, filter (fun k => snd k =? b) (map ledger_key partner)
             = filter (fun k => snd k =? b) (wrapper_blocks c (Partner.wrappers self))) /\
  (NoDup (map snd (wrapper_blocks c (Partner.wrappers self))) ->
   map ledger_key partner = wrapper_blocks c (Partner.wrappers self)) /\
  (~ NoDup (map snd (wrapper_blocks c (Partner.wrappers self))) ->
   Partner.total_balances (map Ledger.row partner) <> [] ->
   StronglySorted (fun l l' => Row.block (Ledger.row l) <= Row.block (Ledger.row l'))
                  partner).
Proof.
  intros Hp. destruct (process_inv _ _ _ _ Hp) as (rows & tiers & Hs & Ht & -> & _).
  destruct (snapshot_inv _ _ _ Hs) as (frames & Hm & _ & ->).
  apply mapM_Ok in Hm. pose proof (frames_keys _ _ _ Hm) as K.
  assert (Ek : map ledger_key
                   (map (Partner.join_tier tiers)
                        (Partner.join_index (List.concat frames) tiers))
               = map (fun r => (Row.wrapper r, Row.block r))
                     (Partner.join_index (List.concat frames) tiers))
    by (rewrite map_map; reflexivity).
  assert (Eb : map snd (wrapper_blocks c (Partner.wrappers self))
               = map Row.block (List.concat frames))
    by (rewrite <- K, map_map; reflexivity).
  assert (P : Permutation (map ledger_key
                             (map (Partner.join_tier tiers)
                                  (Partner.join_index (List.concat frames) tiers)))
                          (wrapper_blocks c (Partner.wrappers self)))
    by (rewrite Ek, <- K; apply Permutation_map, join_index_perm).
  split; [exact P|]. split; [|split; [|split]].
  - rewrite <- (length_map ledger_key), (Permutation_length P).
    unfold wrapper_blocks. clear.
    induction (Partner.wrappers self) as [|w ws IH]; [reflexivity|].
    cbn [flat_map map list_sum]. rewrite length_app, IH, length_map.
    unfold dict_keys. now rewrite length_map.
  - intros b. rewrite Ek, <- K, !filter_map_comm. f_equal.
    apply join_index_filter. cbn [snd]. intros y z Hy Hz.
    apply Z.eqb_eq in Hy, Hz. congruence.
  - intros Hnd. rewrite Ek, <- K. f_equal. apply join_index_unique. now rewrite <- Eb.
  - intros Hnd Hne. rewrite ledger_total_balances in Hne.
    apply (proj2 (StronglySorted_map (fun r r' => Row.block r <= Row.block r') Ledger.row _)).
    rewrite ledger_rows. apply join_index_sorted; [now rewrite <- Eb|].
    intros ->. apply tiers_of_nil in Ht. contradiction.
Qed.

Lemma ledger_one_row_per_wrapper_block_witness :
  exists partner payouts,
    Partner.process chain_rich partner_rich = Ok (partner, payouts) /\
    wrapper_blocks chain_rich (Partner.wrappers partner_rich)
    = [("a"%string, 10); ("a"%string, 20); ("b"%string, 10); ("b"%string, 20)] /\
    map ledger_key partner
    = [("a"%string, 10); ("b"%string, 10); ("a"%string, 20); ("b"%string, 20)] /\
    StronglySorted (fun l l' => Row.block (Ledger.row l) <= Row.block (Ledger.row l'))
                   partner.
Proof.
  destruct (Partner.process chain_rich partner_rich) as [[partner payouts]|] eqn:E;
    [|vm_compute in E; discriminate E].
  exists partner, payouts. split; [reflexivity|].
  pose proof (ledger_one_row_per_wrapper_block chain_rich partner_rich partner payouts E)
    as (_ & _ & _ & _ & S).
  assert (Hnd : ~ NoDup (map snd (wrapper_blocks chain_rich (Partner.wrappers partner_rich)))).
  { intros Hnd. apply is_unique_NoDup in Hnd. vm_compute in Hnd. discriminate Hnd. }
  assert (Hne : Partner.total_balances (map Ledger.row partner) <> []).
  { pose proof E as E'. vm_compute in E'. injection E' as <- _. vm_compute. discriminate. }
  specialize (S Hnd Hne).
  vm_compute in E. injection E as <- _.
  split; [vm_compute; reflexivity | split; [reflexivity | exact S]].
Defined.

(** ** The tiers of the ledger *)

Lemma get_tier_Ok_in_table amount t :
  get_tier amount = Ok t ->
  exists k, In (k, t) TIERS /\ PrimFloat.leb 0 t = true /\ PrimFloat.leb t 0.5 = true.
Proof.
  rewrite get_tier_unfold. destruct (bisect_tier_split amount) as (Hr & _ & _).
  destruct (tier_at_in_table _ Hr) as (k & t' & E & Hin & B).
  unfold tier_at in E. rewrite E. intros [= <-]. eauto.
Qed.

(** Every tier of the ledger is a rate of [TIERS], between 0 and 0.5, or is
    missing (NaN); a missing tier only occurs at a block that has no entry
    in the cumulative balance series. *)
Theorem ledger_tiers_in_table (c : Chain) (self : Partner.t)
        (partner : list Ledger.t) (payouts : list (Payout.t float)) (l : Ledger.t) :
  Partner.process c self = Ok (partner, payouts) ->
  In l partner ->
  (exists k, In (k, Ledger.tier l) TIERS /\
             PrimFloat.leb 0 (Ledger.tier l) = true /\
             PrimFloat.leb (Ledger.tier l) 0.5 = true) \/
  (Ledger.tier l = nan /\
   loc (Partner.total_balances (map Ledger.row partner)) (Row.block (Ledger.row l)) = None).
Proof.
  intros Hp Hl. destruct (process_inv _ _ _ _ Hp) as (rows & tiers & _ & Ht & -> & _).
  rewrite ledger_total_balances. apply ledger_In in Hl. destruct Hl as (r & _ & ->).
  cbn [Ledger.tier Ledger.row Partner.join_tier].
  pose proof (tiers_of_loc _ _ (Row.block r) Ht) as L.
  destruct (loc (Partner.total_balances rows) (Row.block r)) as [total|].
  - destruct L as (t & Hg & ->). left. exact (get_tier_Ok_in_table _ _ Hg).
  - rewrite L. right. split; reflexivity.
Qed.

Lemma ledger_tiers_in_table_witness :
  exists partner payouts l,
    Partner.process chain_rich partner_rich = Ok (partner, payouts) /\
    In l partner /\
    Ledger.tier l = 0.15%float /\
    exists k, In (k, Ledger.tier l) TIERS.
Proof.
  destruct (Partner.process chain_rich partner_rich) as [[partner payouts]|] eqn:E;
    [|vm_compute in E; discriminate E].
  pose proof (fun l => ledger_tiers_in_table chain_rich partner_rich partner payouts l E) as T.
  vm_compute in E. injection E as <- <-.
  eexists _, _, _. split; [reflexivity|]. split; [left; reflexivity|].
  split; [reflexivity|].
  destruct (T _ (or_introl eq_refl)) as [(k & Hk & _)|(Hn & _)];
    [exists k; exact Hk | vm_compute in Hn; discriminate Hn].
Defined.

(** ** Below the first threshold *)

Lemma mul_zero_cases x :
  (is_nan (x * 0)%float = false -> (x * 0 =? 0)%float = true) /\
  (is_nan (x * 0)%float = true ->
   is_nan x = true \/ x = infinity \/ x = neg_infinity).
Proof.
  unfold is_nan. rewrite !eqb_spec, mul_spec.
  change (Prim2SF 0) with (S754_zero false).
  destruct (Prim2SF x) as [s|s| |s m e] eqn:E.
  - destruct s; split; intros F; first [reflexivity | discriminate F].
  - split; [intros F; discriminate F|]. intros _. right.
    destruct s; [right | left]; apply Prim2SF_inj; rewrite E; reflexivity.
  - split; [intros F; discriminate F|]. intros _. left. reflexivity.
  - destruct s; split; intros F; first [reflexivity | discriminate F].
Qed.

Lemma get_tier_first_band total :
  PrimFloat.leb 0 total = true -> PrimFloat.ltb total 1000000 = true ->
  get_tier total = Ok 0%float.
Proof.
  intros H0 Hlt. rewrite get_tier_unfold.
  pose proof (bisect_tier_split total) as S.
  pose proof (tier_split_nonneg _ _ H0 S) as H1.
  destruct S as (_ & Hbelow & _).
  destruct (Z_le_gt_dec (bisect_right lt_int 0 tier_keys total) 1) as [L|G].
  - replace (bisect_right lt_int 0 tier_keys total) with 1 by lia. reflexivity.
  - pose proof (Hbelow 1 ltac:(lia)) as F. vm_compute in F.
    rewrite Hlt in F. discriminate F.
Qed.

(** A partner is paid nothing for a fee event at which its cumulative
    balance is below one million USD: the row's tier is 0 and its payout is
    zero, whatever the fee and the share are.  The payout is NaN instead
    only when the payout base is itself NaN or infinite (a zero total
    supply). *)
Theorem no_payout_below_first_threshold (c : Chain) (self : Partner.t)
        (partner : list Ledger.t) (payouts : list (Payout.t float))
        (l : Ledger.t) (total : float) :
  Partner.process c self = Ok (partner, payouts) ->
  In l partner ->
  loc (Partner.total_balances (map Ledger.row partner)) (Row.block (Ledger.row l))
  = Some total ->
  PrimFloat.leb 0 total = true ->
  PrimFloat.ltb total 1000000 = true ->
  Ledger.tier l = 0%float /\
  (is_nan (Ledger.payout l) = false -> PrimFloat.eqb (Ledger.payout l) 0 = true) /\
  (is_nan (Ledger.payout l) = true ->
   is_nan (Row.payout_base (Ledger.row l)) = true \/
   Row.payout_base (Ledger.row l) = infinity \/
   Row.payout_base (Ledger.row l) = neg_infinity).
Proof.
  intros Hp Hl Hloc H0 Hlt.
  destruct (process_inv _ _ _ _ Hp) as (rows & tiers & _ & Ht & -> & _).
  rewrite ledger_total_balances in Hloc.
  apply ledger_In in Hl. destruct Hl as (r & _ & ->).
  cbn [Ledger.row Ledger.tier Ledger.payout Partner.join_tier] in *.
  pose proof (tiers_of_loc _ _ (Row.block r) Ht) as L.
  rewrite Hloc in L. destruct L as (t & Hg & ->).
  rewrite (get_tier_first_band _ H0 Hlt) in Hg. injection Hg as <-.
  split; [reflexivity | exact (mul_zero_cases (Row.payout_base r))].
Qed.

Lemma no_payout_below_first_threshold_witness :
  exists partner payouts l,
    Partner.process chain_xy partner_xy = Ok (partner, payouts) /\
    In l partner /\
    loc (Partner.total_balances (map Ledger.row partner)) (Row.block (Ledger.row l))
    = Some 250%float /\
    PrimFloat.leb 0 250 = true /\
    PrimFloat.ltb 250 1000000 = true /\
    Row.block (Ledger.row l) = 5 /\
    Ledger.tier l = 0%float.
Proof.
  destruct (Partner.process chain_xy partner_xy) as [[partner payouts]|] eqn:E;
    [|vm_compute in E; discriminate E].
  destruct partner as [|l0 [|l partner]];
    [vm_compute in E; discriminate E | vm_compute in E; discriminate E |].
  exists (l0 :: l :: partner), payouts, l.
  assert (Hin : In l (l0 :: l :: partner)) by (right; left; reflexivity).
  assert (F : Row.block (Ledger.row l) = 5 /\
              loc (Partner.total_balances (map Ledger.row (l0 :: l :: partner)))
                  (Row.block (Ledger.row l)) = Some 250%float).
  { pose proof E as E'. vm_compute in E'. injection E' as <- <- <- <-.
    split; vm_compute; reflexivity. }
  destruct F as (Hb & Hloc).
  split; [reflexivity|]. split; [exact Hin|]. split; [exact Hloc|].
  split; [reflexivity|]. split; [reflexivity|]. split; [exact Hb|].
  exact (proj1 (no_payout_below_first_threshold chain_xy partner_xy _ payouts l 250
                  E Hin Hloc eq_refl eq_refl)).
Defined.

(** ** Whom the payouts of a partner go to *)

(** Every payout line [process] returns for a partner carries the partner's
    name and treasury, pays in the vault of one of the partner's wrappers
    and has an amount that is not NaN: a partner is never paid for a vault
    it has no wrapper on. *)
Theorem process_payouts_of_partner (c : Chain) (self : Partner.t)
        (partner : list Ledger.t) (payouts : list (Payout.t float)) (p : Payout.t float) :
  Partner.process c self = Ok (partner, payouts) ->
  In p payouts ->
  Payout.partner p = Partner.name self /\
  Payout.treasury p = Partner.treasury self /\
  (exists w, In w (Partner.wrappers self) /\ Payout.token p = Wrapper.vault w) /\
  is_nan (Payout.amount p) = false.
Proof.
  intros Hp Hin.
  destruct (process_inv _ _ _ _ Hp) as (rows & tiers & Hs & _ & -> & ->).
  destruct (proj1 (export_payouts_In self _ p) Hin) as (o & col & _ & Hc & Hn & ->).
  cbn [Payout.partner Payout.treasury Payout.token Payout.amount].
  split; [reflexivity|]. split; [reflexivity|]. split; [|exact Hn].
  apply pivot_columns_In in Hc. destruct Hc as (r & Hr & _ & <-).
  unfold Partner.payout_columns in Hr. apply in_map_iff in Hr.
  destruct Hr as (l & <- & Hl). cbn [fst snd].
  apply ledger_In in Hl. destruct Hl as (r0 & Hr0 & ->).
  cbn [Ledger.row Partner.join_tier].
  destruct (snapshot_inv _ _ _ Hs) as (frames & Hm & _ & ->).
  apply mapM_Ok in Hm. apply in_concat in Hr0. destruct Hr0 as (f & Hf & Hr0).
  destruct (Forall2_In_r _ _ _ _ Hm Hf) as (w & Hw & Hwf).
  destruct (wrap_rows _ _ _ _ Hwf Hr0) as (event & _ & ->).
  exists w. split; [exact Hw | reflexivity].
Qed.

Lemma process_payouts_of_partner_witness :
  exists partner payouts p,
    Partner.process chain_rich partner_one = Ok (partner, payouts) /\
    In p payouts /\
    Payout.partner p = "one"%string /\
    Payout.treasury p = Some "0xT"%string /\
    Payout.token p = "V"%string.
Proof.
  destruct (Partner.process chain_rich partner_one) as [[partner payouts]|] eqn:E;
    [|vm_compute in E; discriminate E].
  destruct payouts as [|p payouts]; [vm_compute in E; discriminate E|].
  exists partner, (p :: payouts), p.
  assert (Hin : In p (p :: payouts)) by (left; reflexivity).
  split; [reflexivity|]. split; [exact Hin|].
  destruct (process_payouts_of_partner chain_rich partner_one partner _ p E Hin)
    as (Hn & Ht & (w & Hw & Hv) & _).
  split; [exact Hn|]. split; [exact Ht|].
  destruct Hw as [<-|[]]. exact Hv.
Defined.

(** ** The run over all partners *)

Lemma process_loop_all c partners results total payouts lines :
  Forall2 (fun p res => Partner.process c p = Ok res) partners results ->
  process_loop c partners total payouts lines
  = {| Run.lines :=
         lines ++ map (fun pr => (Partner.name (fst pr), usd_to_pay (fst (snd pr))))
                      (combine partners results);
       Run.total :=
         Some (fold_left PrimFloat.add (map (fun res => usd_to_pay (fst res)) results) total);
       Run.payouts := Partner.concat (payouts ++ map snd results) |}.
Proof.
  intros HF. revert total payouts lines.
  induction HF as [|p res partners results Hp _ IH]; intros total payouts lines;
    cbn [process_loop combine map fold_left].
  - now rewrite !app_nil_r.
  - rewrite Hp, IH. cbn [fst snd]. now rewrite <- !app_assoc.
Qed.

Lemma process_loop_stops c before p after e results total payouts lines :
  Forall2 (fun p res => Partner.process c p = Ok res) before results ->
  Partner.process c p = Raise e ->
  process_loop c (before ++ p :: after) total payouts lines
  = {| Run.lines :=
         lines ++ map (fun pr => (Partner.name (fst pr), usd_to_pay (fst (snd pr))))
                      (combine before results);
       Run.total := None;
       Run.payouts := Raise e |}.
Proof.
  intros HF He. revert total payouts lines.
  induction HF as [|q res before results Hq _ IH]; intros total payouts lines;
    cbn [app process_loop combine map].
  - now rewrite He, app_nil_r.
  - rewrite Hq, IH. cbn [fst snd]. now rewrite <- !app_assoc.
Qed.

Lemma results_of c partners :
  (forall p, In p partners -> processable c p) ->
  exists results, Forall2 (fun p res => Partner.process c p = Ok res) partners results.
Proof.
  induction partners as [|p partners IH]; intros Hall; [exists []; constructor|].
  destruct (processable_Ok c p (Hall p (or_introl eq_refl))) as (res & Hres).
  destruct IH as (results & HF); [intros q Hq; apply Hall; now right|].
  exists (res :: results). now constructor.
Qed.

Lemma first_failure c partners :
  (forall p, In p partners -> processable c p) \/
  (exists before p after e,
      partners = before ++ p :: after /\
      (forall q, In q before -> processable c q) /\
      Partner.process c p = Raise e).
Proof.
  induction partners as [|p partners IH]; [left; intros _ []|].
  destruct (Partner.process c p) as [res|e] eqn:Ep.
  - apply process_Ok_inv in Ep.
    destruct IH as [Hall|(before & q & after & e & -> & Hb & Hq)].
    + left. intros q [<-|Hq]; [exact Ep | now apply Hall].
    + right. exists (p :: before), q, after, e. split; [reflexivity|].
      split; [|exact Hq]. intros q' [<-|Hq']; [exact Ep | now apply Hb].
  - right. exists [], p, partners, e. split; [reflexivity|]. split; [intros _ []|exact Ep].
Qed.

Lemma combine_names (partners : list Partner.t)
      (results : list (list Ledger.t * list (Payout.t float))) :
  List.length partners = List.length results ->
  map fst (map (fun pr => (Partner.name (fst pr), usd_to_pay (fst (snd pr))))
               (combine partners results))
  = map Partner.name partners.
Proof.
  revert results. induction partners as [|p partners IH]; intros [|r results] Hlen;
    try discriminate Hlen; [reflexivity|].
  cbn [combine map fst]. f_equal. apply IH. now injection Hlen.
Qed.

Lemma combine_sums (partners : list Partner.t)
      (results : list (list Ledger.t * list (Payout.t float))) :
  List.length partners = List.length results ->
  map snd (map (fun pr => (Partner.name (fst pr), usd_to_pay (fst (snd pr))))
               (combine partners results))
  = map (fun res => usd_to_pay (fst res)) results.
Proof.
  revert results. induction partners as [|p partners IH]; intros [|r results] Hlen;
    try discriminate Hlen; [reflexivity|].
  cbn [combine map fst snd]. f_equal. apply IH. now injection Hlen.
Qed.


Lemma process_all_returns c partners :
  (exists rows, Run.payouts (process_all c partners) = Ok rows) <->
  partners <> [] /\ forall p, In p partners -> processable c p.
Proof.
  unfold process_all. split.
  - intros (rows & Hrows).
    destruct (first_failure c partners) as [Hall|(before & p & after & e & -> & Hb & Hp)].
    + split; [|exact Hall]. intros ->. discriminate Hrows.
    + destruct (results_of c before Hb) as (results & HF).
      rewrite (process_loop_stops _ _ _ _ _ _ _ _ _ HF Hp) in Hrows. discriminate Hrows.
  - intros (Hne & Hall). destruct (results_of c partners Hall) as (results & HF).
    rewrite (process_loop_all _ _ _ _ _ _ HF). cbn [Run.payouts app].
    destruct HF as [|p res ps rs]; [contradiction|]. cbn [map Partner.concat]. eauto.
Qed.


(** *** The saved file *)

Lemma date_leb_trans d1 d2 d3 :
  date_leb d1 d2 = true -> date_leb d2 d3 = true -> date_leb d1 d3 = true.
Proof.
  destruct d1 as [y1 m1 a1], d2 as [y2 m2 a2], d3 as [y3 m3 a3].
  unfold date_leb. cbn [year month day].
  rewrite !orb_true_iff, !andb_true_iff, !orb_true_iff, !andb_true_iff,
    !Z.ltb_lt, !Z.eqb_eq, !Z.leb_le. lia.
Qed.

Lemma date_leb_total d1 d2 : date_leb d1 d2 = false -> date_leb d2 d1 = true.
Proof.
  destruct d1 as [y1 m1 a1], d2 as [y2 m2 a2].
  unfold date_leb. cbn [year month day]. intros F.
  destruct (_ || _) eqn:E in F; [discriminate|]. clear F.
  rewrite !orb_false_iff, !andb_false_iff, !orb_false_iff, !andb_false_iff,
    !Z.ltb_ge, !Z.eqb_neq, !Z.leb_gt in E.
  rewrite !orb_true_iff, !andb_true_iff, !orb_true_iff, !andb_true_iff,
    !Z.ltb_lt, !Z.eqb_eq, !Z.leb_le. lia.
Qed.

Lemma date_leb_antisym d1 d2 :
  date_leb d1 d2 = true -> date_leb d2 d1 = true -> d1 = d2.
Proof.
  destruct d1 as [y1 m1 a1], d2 as [y2 m2 a2].
  unfold date_leb. cbn [year month day].
  rewrite !orb_true_iff, !andb_true_iff, !orb_true_iff, !andb_true_iff,
    !Z.ltb_lt, !Z.eqb_eq, !Z.leb_le.
  intros H1 H2. assert (y1 = y2 /\ m1 = m2 /\ a1 = a2) as (-> & -> & ->) by lia.
  reflexivity.
Qed.

Lemma stable_sort_values_sorts rows : sort_values rows (stable_sort_values rows).
Proof.
  split; [symmetry; apply sort_by_perm|].
  exact (sort_by_leb_sorted
           (fun p q => date_leb (Payout.timestamp p) (Payout.timestamp q))
           (fun x y z => date_leb_trans _ _ _) (fun x y => date_leb_total _ _) rows).
Qed.

Lemma sort_values_timestamps rows out out' :
  sort_values rows out -> sort_values rows out' ->
  map Payout.timestamp out = map Payout.timestamp out'.
Proof.
  intros (P & S) (P' & S').
  apply (sorted_perm_eq date_leb date_leb_antisym).
  - now apply (StronglySorted_map (fun d d' => date_leb d d' = true) Payout.timestamp).
  - now apply (StronglySorted_map (fun d d' => date_leb d d' = true) Payout.timestamp).
  - apply Permutation_map. now rewrite <- P, <- P'.
Qed.

(** What a run that gets to its end prints and saves: one line per partner,
    in the order of the partners, with the partner's name and numpy's sum of
    [payout * vault_price] over its ledger; the total, which is these sums
    added to 0 in that order; and the payout lines of all partners, put one
    after the other and sorted by timestamp.  The sort is not stable, so
    the file is one of the orderings of these lines by timestamp: its
    timestamp column is fixed, the order of the lines of one month is not. *)
Theorem process_all_output (c : Chain) (partners : list Partner.t)
        (rows : list (Payout.t float)) :
  Run.payouts (process_all c partners) = Ok rows ->
  exists results,
    Forall2 (fun p res => Partner.process c p = Ok res) partners results /\
    Run.lines (process_all c partners)
    = map (fun pr => (Partner.name (fst pr), usd_to_pay (fst (snd pr))))
          (combine partners results) /\
    map fst (Run.lines (process_all c partners)) = map Partner.name partners /\
    Run.total (process_all c partners)
    = Some (fold_left PrimFloat.add (map snd (Run.lines (process_all c partners))) 0%float) /\
    rows = List.concat (map snd results) /\
    saved (process_all c partners) (stable_sort_values rows) /\
    (forall out, saved (process_all c partners) out ->
       Permutation rows out /\
       StronglySorted (fun p q => date_le (Payout.timestamp p) (Payout.timestamp q)) out /\
       map Payout.timestamp out = map Payout.timestamp (stable_sort_values rows)).
Proof.
  intros Hrows.
  assert (Hret : exists rows, Run.payouts (process_all c partners) = Ok rows) by eauto.
  apply process_all_returns in Hret. destruct Hret as (Hne & Hall).
  destruct (results_of c partners Hall) as (results & HF).
  exists results. split; [exact HF|].
  unfold process_all in *. rewrite (process_loop_all _ _ _ _ _ _ HF) in *.
  cbn [Run.lines Run.total Run.payouts app] in *.
  split; [reflexivity|].
  split; [apply combine_names; exact (Forall2_length HF)|].
  split; [now rewrite (combine_sums _ _ (Forall2_length HF))|].
  assert (Er : rows = List.concat (map snd results)).
  { destruct (map snd results); cbn [Partner.concat] in Hrows; congruence. }
  split; [exact Er|]. split.
  - exists rows. split; [exact Hrows | apply stable_sort_values_sorts].
  - intros out (rows' & E' & Hs). cbn [Run.payouts] in E'.
    assert (rows' = rows) by congruence. subst rows'.
    split; [exact (proj1 Hs)|]. split; [exact (proj2 Hs)|].
    exact (sort_values_timestamps rows _ _ Hs (stable_sort_values_sorts rows)).
Qed.

Lemma process_all_output_witness :
  exists rows,
    Run.payouts (process_all chain_rich [partner_rich; partner_one]) = Ok rows /\
    Run.lines (process_all chain_rich [partner_rich; partner_one])
    = [("rich"%string, 30.46875%float); ("one"%string, 12.1875%float)] /\
    Run.total (process_all chain_rich [partner_rich; partner_one]) = Some 42.65625%float /\
    saved (process_all chain_rich [partner_rich; partner_one]) (stable_sort_values rows).
Proof.
  destruct (Run.payouts (process_all chain_rich [partner_rich; partner_one]))
    as [rows|] eqn:E; [|vm_compute in E; discriminate E].
  exists rows. split; [reflexivity|].
  destruct (process_all_output chain_rich _ rows E)
    as (results & _ & _ & _ & _ & _ & Hs & _).
  split; [vm_compute; reflexivity|]. split; [vm_compute; reflexivity | exact Hs].
Defined.

